(** * Execution-graph replay (eg_replay.py): a shallow embedding

    The replay manager [ExgrReplayManager] of
    [train/compute/python/tools/eg_replay.py] is embedded as explicit state
    passing over a record holding the attributes of the Python object.
    A Python [dict] is a [gmap], a Python [set] a [gset]; a call that can
    raise, or that ends in [exit(1)], returns [option], where [None] stands
    for "the run aborts here".

    The helpers imported from [eg_replay_utils] and the tensor operations of
    [torch] are not part of the file; they are the fields of the class
    [Helpers] and every definition below is parametric in them. *)

From stdpp Require Import gmap strings list sorting pretty.
From Stdlib Require Import ZArith.

Open Scope Z_scope.
Set Warnings "-register-all".

(** ** The trace model *)

(** One entry of a tensor descriptor of the trace: an integer (tensor id,
    storage id, offset, element count, element size) or a string (the
    device tag). *)
Abbreviation tval := (Z + string)%type.
Abbreviation TInt z := (@inl Z string z).
Abbreviation TStr s := (@inr Z string s).

(** A tensor identity tuple [t_id], and what [tuple(list(t_id)[:5])] makes
    of it. *)
Abbreviation tid := (list tval).
Abbreviation shape := (list Z).

(** An entry of [node.inputs]. *)
Inductive item :=
| ITensor (t : tid)
| ITensorList (ts : list tid)
| IStr (s : string)
| IInt (z : Z).

#[global] Instance item_eq_dec : EqDecision item.
Proof. solve_decision. Defined.

Inductive Node := mkNode {
  id : Z;
  name : string;
  children : list Node;
  inputs : list item;
  input_types : list string;
  input_shapes : list shape;
  outputs : list item;
  output_types : list string;
  output_shapes : list shape;
}.

(** ** Python values held by the registries and passed to operators *)

Inductive pyval (Tensor : Type) :=
| PNone
| PTensor (t : Tensor)
| PList (l : list (pyval Tensor))
| PTuple (l : list (pyval Tensor))
| PStr (s : string)
| PInt (z : Z)
| PBool (b : bool)
| PInf (negative : bool).
Arguments PNone {Tensor}.
Arguments PTensor {Tensor} t.
Arguments PList {Tensor} l.
Arguments PTuple {Tensor} l.
Arguments PStr {Tensor} s.
Arguments PInt {Tensor} z.
Arguments PBool {Tensor} b.
Arguments PInf {Tensor} negative.

(** A resolved operator: [None] when the call raises. *)
Definition Callable (Tensor : Type) : Type :=
  list (pyval Tensor) → option (pyval Tensor).

(** ** Strings *)

(** [x in s] on Python strings. *)
Fixpoint contains (x s : string) : bool :=
  String.prefix x s ||
  match s with
  | EmptyString => false
  | String _ s' => contains x s'
  end.

Definition in_chars (c : Ascii.ascii) (chars : string) : bool :=
  bool_decide (c ∈ String.list_ascii_of_string chars).

Fixpoint lstrip_list (chars : string) (l : list Ascii.ascii)
    : list Ascii.ascii :=
  match l with
  | [] => []
  | c :: l' => if in_chars c chars then lstrip_list chars l' else l
  end.

(** [s.lstrip(chars)] and [s.rstrip(chars)]. *)
Definition lstrip (chars s : string) : string :=
  String.string_of_list_ascii (lstrip_list chars (String.list_ascii_of_string s)).
Definition rstrip (chars s : string) : string :=
  String.string_of_list_ascii
    (reverse (lstrip_list chars (reverse (String.list_ascii_of_string s)))).

(** ** The helpers of [eg_replay_utils] and of [torch] *)

Class Helpers (Tensor : Type) := {
  get_input_tensors : Node → list (string * tid * shape);
  get_output_tensors : Node → list (string * tid * shape);
  is_qualified : Node → bool;
  skip_op : Node → bool;
  is_fbgemm_forward : Node → bool;
  is_fbgemm_backward : Node → bool;
  is_fbgemm_forward_unweighted : Node → bool;
  (** [build_fbgemm_func(node, cuda)]: [func.forward], [func.backward] and
      the output count. *)
  build_fbgemm_func : Node → string → Callable Tensor * Callable Tensor * Z;
  (** [build_torchscript_func(node)]: the callable, absent when the operator
      cannot be resolved, and the output count. *)
  build_torchscript_func : Node → option (Callable Tensor) * Z;
  fbgemm_input_args_indices : Node → list nat;
  (** first component of [generate_fbgemm_tensors(node, cuda)] *)
  generate_fbgemm_tensors : Node → string → list (pyval Tensor);
  is_tensor : Node → nat → bool;
  is_tensor_list : Node → nat → bool;
  (** [TORCH_DTYPES_RNG[key]] as [shape ↦ rng(shape).to(dtype)]; [None] is
      [KeyError]. *)
  TORCH_DTYPES_RNG : string → option (shape → Tensor);
  (** [v.cuda(device)] *)
  tensor_cuda : Tensor → string → Tensor;
  (** [v.to(torch.float64)] *)
  tensor_to_float64 : Tensor → Tensor;
  (** [v[i] = i * (num / den)], the quotient taken in floating point;
      [None] when the index is out of range. *)
  tensor_setitem : Tensor → Z → Z → Z → option Tensor;
  (** [bool(t)] and [iter(t)] of a tensor; [None] when torch raises. *)
  tensor_bool : Tensor → option bool;
  tensor_iter : Tensor → option (list Tensor);
}.

(** ** The state of the manager *)

Record State (Tensor : Type) := mkState {
  (* arguments *)
  numWarmupIters : nat;
  numIters : nat;
  generator : bool;
  cuda : string;
  skip_node_names : list string;
  (* attributes *)
  tensor_registry_permanent : gmap Z (pyval Tensor);
  dependency_permanent : gmap tid Z;
  tensor_registry : gmap Z (pyval Tensor);
  sorted_nodes : list Node;
  funcs : gmap Z (option (Callable Tensor) * Z);
  unchangeable_intermediate_tensors : gset Z;
  original_unique_tensors : gset tid;
  replay_unique_tensor_num : Z;
  tensors_mapping : gmap (Z * tid * bool) Z;
  replay_tensors_shapes : gmap Z shape;
  tensor_shapes : gmap tid (gset (Z * shape));
  instantiate : gset Z;
  cpu_tensor : gset Z;
  fbgemm_backward_ops : list (Callable Tensor * Z);
  actual_skip_nodes : list string;
  actual_skip_nodes_cnt : Z;
  tensor_with_device : bool;
  tensor_device : gmap Z tval;
}.
Arguments mkState {Tensor}.
Arguments numWarmupIters {Tensor} _.
Arguments numIters {Tensor} _.
Arguments generator {Tensor} _.
Arguments cuda {Tensor} _.
Arguments skip_node_names {Tensor} _.
Arguments tensor_registry_permanent {Tensor} _.
Arguments dependency_permanent {Tensor} _.
Arguments tensor_registry {Tensor} _.
Arguments sorted_nodes {Tensor} _.
Arguments funcs {Tensor} _.
Arguments unchangeable_intermediate_tensors {Tensor} _.
Arguments original_unique_tensors {Tensor} _.
Arguments replay_unique_tensor_num {Tensor} _.
Arguments tensors_mapping {Tensor} _.
Arguments replay_tensors_shapes {Tensor} _.
Arguments tensor_shapes {Tensor} _.
Arguments instantiate {Tensor} _.
Arguments cpu_tensor {Tensor} _.
Arguments fbgemm_backward_ops {Tensor} _.
Arguments actual_skip_nodes {Tensor} _.
Arguments actual_skip_nodes_cnt {Tensor} _.
Arguments tensor_with_device {Tensor} _.
Arguments tensor_device {Tensor} _.

(** [ExgrReplayManager.__init__]: the attributes of a fresh manager. The
    attributes that only serve memory profiling, timing and
    [analyze_subgraph] (which [preprocess_graph] does not call) are left
    out. *)
Definition init {Tensor} (warmup iter : nat) (gen : bool) (cuda_id : Z)
    : State Tensor :=
  {| numWarmupIters := warmup; numIters := iter; generator := gen;
     cuda := if decide (cuda_id = -1) then "cuda"%string
             else ("cuda:" +:+ pretty cuda_id)%string;
     skip_node_names :=
       ["DataLoader"; "aten::set_"; "fb::"; "c10d::allreduce_"; "pyspeech::";
        "All2All_Pooled_Wait"; "adagrad"]%string;
     tensor_registry_permanent := ∅; dependency_permanent := ∅;
     tensor_registry := ∅; sorted_nodes := []; funcs := ∅;
     unchangeable_intermediate_tensors := ∅; original_unique_tensors := ∅;
     replay_unique_tensor_num := 0; tensors_mapping := ∅;
     replay_tensors_shapes := ∅; tensor_shapes := ∅; instantiate := ∅;
     cpu_tensor := ∅; fbgemm_backward_ops := []; actual_skip_nodes := [];
     actual_skip_nodes_cnt := 0; tensor_with_device := true;
     tensor_device := ∅ |}.

Section Replay.
Context {Tensor : Type} `{!Helpers Tensor}.

Abbreviation state := (State Tensor).
Abbreviation value := (pyval Tensor).

(** Attribute assignment, one setter per attribute that is written. *)
Definition set_tensor_registry_permanent (v : gmap Z value) (st : state) : state :=
  mkState (numWarmupIters st) (numIters st) (generator st) (cuda st)
    (skip_node_names st) v (dependency_permanent st) (tensor_registry st)
    (sorted_nodes st) (funcs st) (unchangeable_intermediate_tensors st)
    (original_unique_tensors st) (replay_unique_tensor_num st)
    (tensors_mapping st) (replay_tensors_shapes st) (tensor_shapes st)
    (instantiate st) (cpu_tensor st) (fbgemm_backward_ops st)
    (actual_skip_nodes st) (actual_skip_nodes_cnt st) (tensor_with_device st)
    (tensor_device st).
Definition set_dependency_permanent (v : gmap tid Z) (st : state) : state :=
  mkState (numWarmupIters st) (numIters st) (generator st) (cuda st)
    (skip_node_names st) (tensor_registry_permanent st) v (tensor_registry st)
    (sorted_nodes st) (funcs st) (unchangeable_intermediate_tensors st)
    (original_unique_tensors st) (replay_unique_tensor_num st)
    (tensors_mapping st) (replay_tensors_shapes st) (tensor_shapes st)
    (instantiate st) (cpu_tensor st) (fbgemm_backward_ops st)
    (actual_skip_nodes st) (actual_skip_nodes_cnt st) (tensor_with_device st)
    (tensor_device st).
Definition set_tensor_registry (v : gmap Z value) (st : state) : state :=
  mkState (numWarmupIters st) (numIters st) (generator st) (cuda st)
    (skip_node_names st) (tensor_registry_permanent st)
    (dependency_permanent st) v
    (sorted_nodes st) (funcs st) (unchangeable_intermediate_tensors st)
    (original_unique_tensors st) (replay_unique_tensor_num st)
    (tensors_mapping st) (replay_tensors_shapes st) (tensor_shapes st)
    (instantiate st) (cpu_tensor st) (fbgemm_backward_ops st)
    (actual_skip_nodes st) (actual_skip_nodes_cnt st) (tensor_with_device st)
    (tensor_device st).
Definition set_sorted_nodes (v : list Node) (st : state) : state :=
  mkState (numWarmupIters st) (numIters st) (generator st) (cuda st)
    (skip_node_names st) (tensor_registry_permanent st)
    (dependency_permanent st) (tensor_registry st)
    v (funcs st) (unchangeable_intermediate_tensors st)
    (original_unique_tensors st) (replay_unique_tensor_num st)
    (tensors_mapping st) (replay_tensors_shapes st) (tensor_shapes st)
    (instantiate st) (cpu_tensor st) (fbgemm_backward_ops st)
    (actual_skip_nodes st) (actual_skip_nodes_cnt st) (tensor_with_device st)
    (tensor_device st).
Definition set_funcs (v : gmap Z (option (Callable Tensor) * Z)) (st : state)
    : state :=
  mkState (numWarmupIters st) (numIters st) (generator st) (cuda st)
    (skip_node_names st) (tensor_registry_permanent st)
    (dependency_permanent st) (tensor_registry st)
    (sorted_nodes st) v (unchangeable_intermediate_tensors st)
    (original_unique_tensors st) (replay_unique_tensor_num st)
    (tensors_mapping st) (replay_tensors_shapes st) (tensor_shapes st)
    (instantiate st) (cpu_tensor st) (fbgemm_backward_ops st)
    (actual_skip_nodes st) (actual_skip_nodes_cnt st) (tensor_with_device st)
    (tensor_device st).
Definition set_unchangeable_intermediate_tensors (v : gset Z) (st : state)
    : state :=
  mkState (numWarmupIters st) (numIters st) (generator st) (cuda st)
    (skip_node_names st) (tensor_registry_permanent st)
    (dependency_permanent st) (tensor_registry st)
    (sorted_nodes st) (funcs st) v
    (original_unique_tensors st) (replay_unique_tensor_num st)
    (tensors_mapping st) (replay_tensors_shapes st) (tensor_shapes st)
    (instantiate st) (cpu_tensor st) (fbgemm_backward_ops st)
    (actual_skip_nodes st) (actual_skip_nodes_cnt st) (tensor_with_device st)
    (tensor_device st).
Definition set_original_unique_tensors (v : gset tid) (st : state) : state :=
  mkState (numWarmupIters st) (numIters st) (generator st) (cuda st)
    (skip_node_names st) (tensor_registry_permanent st)
    (dependency_permanent st) (tensor_registry st)
    (sorted_nodes st) (funcs st) (unchangeable_intermediate_tensors st)
    v (replay_unique_tensor_num st)
    (tensors_mapping st) (replay_tensors_shapes st) (tensor_shapes st)
    (instantiate st) (cpu_tensor st) (fbgemm_backward_ops st)
    (actual_skip_nodes st) (actual_skip_nodes_cnt st) (tensor_with_device st)
    (tensor_device st).
Definition set_replay_unique_tensor_num (v : Z) (st : state) : state :=
  mkState (numWarmupIters st) (numIters st) (generator st) (cuda st)
    (skip_node_names st) (tensor_registry_permanent st)
    (dependency_permanent st) (tensor_registry st)
    (sorted_nodes st) (funcs st) (unchangeable_intermediate_tensors st)
    (original_unique_tensors st) v
    (tensors_mapping st) (replay_tensors_shapes st) (tensor_shapes st)
    (instantiate st) (cpu_tensor st) (fbgemm_backward_ops st)
    (actual_skip_nodes st) (actual_skip_nodes_cnt st) (tensor_with_device st)
    (tensor_device st).
Definition set_tensors_mapping (v : gmap (Z * tid * bool) Z) (st : state)
    : state :=
  mkState (numWarmupIters st) (numIters st) (generator st) (cuda st)
    (skip_node_names st) (tensor_registry_permanent st)
    (dependency_permanent st) (tensor_registry st)
    (sorted_nodes st) (funcs st) (unchangeable_intermediate_tensors st)
    (original_unique_tensors st) (replay_unique_tensor_num st)
    v (replay_tensors_shapes st) (tensor_shapes st)
    (instantiate st) (cpu_tensor st) (fbgemm_backward_ops st)
    (actual_skip_nodes st) (actual_skip_nodes_cnt st) (tensor_with_device st)
    (tensor_device st).
Definition set_replay_tensors_shapes (v : gmap Z shape) (st : state) : state :=
  mkState (numWarmupIters st) (numIters st) (generator st) (cuda st)
    (skip_node_names st) (tensor_registry_permanent st)
    (dependency_permanent st) (tensor_registry st)
    (sorted_nodes st) (funcs st) (unchangeable_intermediate_tensors st)
    (original_unique_tensors st) (replay_unique_tensor_num st)
    (tensors_mapping st) v (tensor_shapes st)
    (instantiate st) (cpu_tensor st) (fbgemm_backward_ops st)
    (actual_skip_nodes st) (actual_skip_nodes_cnt st) (tensor_with_device st)
    (tensor_device st).
Definition set_tensor_shapes (v : gmap tid (gset (Z * shape))) (st : state)
    : state :=
  mkState (numWarmupIters st) (numIters st) (generator st) (cuda st)
    (skip_node_names st) (tensor_registry_permanent st)
    (dependency_permanent st) (tensor_registry st)
    (sorted_nodes st) (funcs st) (unchangeable_intermediate_tensors st)
    (original_unique_tensors st) (replay_unique_tensor_num st)
    (tensors_mapping st) (replay_tensors_shapes st) v
    (instantiate st) (cpu_tensor st) (fbgemm_backward_ops st)
    (actual_skip_nodes st) (actual_skip_nodes_cnt st) (tensor_with_device st)
    (tensor_device st).
Definition set_instantiate (v : gset Z) (st : state) : state :=
  mkState (numWarmupIters st) (numIters st) (generator st) (cuda st)
    (skip_node_names st) (tensor_registry_permanent st)
    (dependency_permanent st) (tensor_registry st)
    (sorted_nodes st) (funcs st) (unchangeable_intermediate_tensors st)
    (original_unique_tensors st) (replay_unique_tensor_num st)
    (tensors_mapping st) (replay_tensors_shapes st) (tensor_shapes st)
    v (cpu_tensor st) (fbgemm_backward_ops st)
    (actual_skip_nodes st) (actual_skip_nodes_cnt st) (tensor_with_device st)
    (tensor_device st).
Definition set_cpu_tensor (v : gset Z) (st : state) : state :=
  mkState (numWarmupIters st) (numIters st) (generator st) (cuda st)
    (skip_node_names st) (tensor_registry_permanent st)
    (dependency_permanent st) (tensor_registry st)
    (sorted_nodes st) (funcs st) (unchangeable_intermediate_tensors st)
    (original_unique_tensors st) (replay_unique_tensor_num st)
    (tensors_mapping st) (replay_tensors_shapes st) (tensor_shapes st)
    (instantiate st) v (fbgemm_backward_ops st)
    (actual_skip_nodes st) (actual_skip_nodes_cnt st) (tensor_with_device st)
    (tensor_device st).
Definition set_fbgemm_backward_ops (v : list (Callable Tensor * Z))
    (st : state) : state :=
  mkState (numWarmupIters st) (numIters st) (generator st) (cuda st)
    (skip_node_names st) (tensor_registry_permanent st)
    (dependency_permanent st) (tensor_registry st)
    (sorted_nodes st) (funcs st) (unchangeable_intermediate_tensors st)
    (original_unique_tensors st) (replay_unique_tensor_num st)
    (tensors_mapping st) (replay_tensors_shapes st) (tensor_shapes st)
    (instantiate st) (cpu_tensor st) v
    (actual_skip_nodes st) (actual_skip_nodes_cnt st) (tensor_with_device st)
    (tensor_device st).
(** [self.actual_skip_nodes.append(n); self.actual_skip_nodes_cnt += 1] *)
Definition record_skip (n : string) (st : state) : state :=
  mkState (numWarmupIters st) (numIters st) (generator st) (cuda st)
    (skip_node_names st) (tensor_registry_permanent st)
    (dependency_permanent st) (tensor_registry st)
    (sorted_nodes st) (funcs st) (unchangeable_intermediate_tensors st)
    (original_unique_tensors st) (replay_unique_tensor_num st)
    (tensors_mapping st) (replay_tensors_shapes st) (tensor_shapes st)
    (instantiate st) (cpu_tensor st) (fbgemm_backward_ops st)
    (actual_skip_nodes st ++ [n]) (actual_skip_nodes_cnt st + 1)
    (tensor_with_device st) (tensor_device st).
Definition set_tensor_with_device (v : bool) (st : state) : state :=
  mkState (numWarmupIters st) (numIters st) (generator st) (cuda st)
    (skip_node_names st) (tensor_registry_permanent st)
    (dependency_permanent st) (tensor_registry st)
    (sorted_nodes st) (funcs st) (unchangeable_intermediate_tensors st)
    (original_unique_tensors st) (replay_unique_tensor_num st)
    (tensors_mapping st) (replay_tensors_shapes st) (tensor_shapes st)
    (instantiate st) (cpu_tensor st) (fbgemm_backward_ops st)
    (actual_skip_nodes st) (actual_skip_nodes_cnt st) v
    (tensor_device st).
Definition set_tensor_device (v : gmap Z tval) (st : state) : state :=
  mkState (numWarmupIters st) (numIters st) (generator st) (cuda st)
    (skip_node_names st) (tensor_registry_permanent st)
    (dependency_permanent st) (tensor_registry st)
    (sorted_nodes st) (funcs st) (unchangeable_intermediate_tensors st)
    (original_unique_tensors st) (replay_unique_tensor_num st)
    (tensors_mapping st) (replay_tensors_shapes st) (tensor_shapes st)
    (instantiate st) (cpu_tensor st) (fbgemm_backward_ops st)
    (actual_skip_nodes st) (actual_skip_nodes_cnt st) (tensor_with_device st)
    v.

(** ** Control *)

(** [for x in l: f(x)], where the body can abort the run. *)
Fixpoint for_each {A S : Type} (f : A → S → option S) (l : list A) (s : S)
    : option S :=
  match l with
  | [] => Some s
  | x :: l' => s' ← f x s; for_each f l' s'
  end.

(** [range(n)] *)
Definition range (n : Z) : list Z := Z.of_nat <$> seq 0 (Z.to_nat n).

(** [enumerate(l)] *)
Definition enumerate {A : Type} (l : list A) : list (nat * A) :=
  imap (λ i x, (i, x)) l.

(** The key under which a descriptor is tracked:
    [if self.tensor_with_device: t_id = tuple(list(t_id)[:5])]. *)
Definition key_of (st : state) (t_id : tid) : tid :=
  if tensor_with_device st then take 5 t_id else t_id.

(** [t_id in self.dependency_permanent.keys()] *)
Definition tracked (st : state) (t_id : tid) : bool :=
  bool_decide (is_Some (dependency_permanent st !! t_id)).

(** ** detect_tensor_device *)

Fixpoint detect_traverse (root : Node) (st : state) : state :=
  (fix go (cs : list Node) (st : state) : state :=
     match cs with
     | [] => st
     | child :: rest =>
         match get_input_tensors child with
         | (_, t_id, _) :: _ =>
             if decide (length t_id = 5%nat)
             then set_tensor_with_device false st else st
         | [] =>
             match get_output_tensors child with
             | (_, t_id, _) :: _ =>
                 if decide (length t_id = 5%nat)
                 then set_tensor_with_device false st else st
             | [] => go rest (detect_traverse child st)
             end
         end
     end) (children root) st.

Definition detect_tensor_device (root : Node) (st : state) : state :=
  detect_traverse root st.

(** ** reset_registry *)

(** [v.cuda(self.device)]; only a tensor has the method. *)
Definition to_cuda (st : state) (v : value) : option value :=
  match v with
  | PTensor t => Some (PTensor (tensor_cuda t (cuda st)))
  | _ => None
  end.

(** The value the comprehension of [reset_registry] computes for the entry
    [k: v] of the Permanent Registry. *)
Definition place (st : state) (k : Z) (v : value) : option value :=
  match v with
  | PNone => Some PNone
  | _ =>
      if tensor_with_device st then
        d ← tensor_device st !! k;
        if decide (d = TStr "cpu") then Some v else to_cuda st v
      else
        if decide (k ∈ cpu_tensor st) then Some v else to_cuda st v
  end.

(** The dict comprehension raises as soon as one entry raises, and builds
    the new dict otherwise. [gc.collect()] and [torch.cuda.empty_cache()]
    have no effect on the attributes. *)
Definition reset_registry (st : state) : option state :=
  if decide (map_Forall (λ k v, is_Some (place st k v))
               (tensor_registry_permanent st))
  then Some (set_tensor_registry
               (map_imap (place st) (tensor_registry_permanent st)) st)
  else None.

(** ** extract_subgraph *)

Definition build_func (node : Node) (st : state)
    : option (option (Callable Tensor) * Z * state) :=
  if is_fbgemm_forward node then
    let '(forward, backward, output_count) := build_fbgemm_func node (cuda st) in
    Some (Some forward, output_count,
          set_fbgemm_backward_ops
            (fbgemm_backward_ops st ++ [(backward, id node)]) st)
  else if is_fbgemm_backward node then
    (* assert self.fbgemm_backward_ops; pop(-1) *)
    match last (fbgemm_backward_ops st) with
    | None => None
    | Some (backward_op, forward_id) =>
        Some (Some backward_op, Z.of_nat (length (output_types node)),
              set_fbgemm_backward_ops (removelast (fbgemm_backward_ops st)) st)
    end
  else
    let '(func, output_count) := build_torchscript_func node in
    match func with
    | None => Some (func, output_count, record_skip (name node) st)
    | Some _ => Some (func, output_count, st)
    end.

(** [self.dependency_permanent[t_id] += 1] for every input tensor, on a
    [defaultdict(int)]. *)
Definition count_dependencies (child : Node) (st : state) : state :=
  foldl (λ st '(_, t_id, _),
           let k := key_of st t_id in
           set_dependency_permanent
             (<[k := default 0 (dependency_permanent st !! k) + 1]>
                (dependency_permanent st)) st)
        st (get_input_tensors child).

(** Any exception inside the loop body ends in [exit(1)]. The attribute
    [top_tensors], which only [analyze_subgraph] reads, is left out. *)
Fixpoint _dfs_traverse (root : Node) (st : state) : option state :=
  (fix go (cs : list Node) (st : state) : option state :=
     match cs with
     | [] => Some st
     | child :: rest =>
         if existsb (λ x, contains x (name child)) (skip_node_names st) then
           go rest (record_skip (name child) st)
         else if is_qualified child then
           let st := set_sorted_nodes (sorted_nodes st ++ [child]) st in
           let st := count_dependencies child st in
           '(func, output_count, st) ← build_func child st;
           go rest
              (set_funcs (<[id child := (func, output_count)]> (funcs st)) st)
         else
           let st := if skip_op child then record_skip (name child) st else st in
           st ← _dfs_traverse child st;
           go rest st
     end) (children root) st.

(** [sorted(l, key=lambda x: x.id)]: Python's sort is stable, so nodes of
    equal id keep their relative order. *)
Fixpoint insert_by_id (n : Node) (l : list Node) : list Node :=
  match l with
  | [] => [n]
  | m :: l' =>
      if decide (id n ≤ id m) then n :: m :: l' else m :: insert_by_id n l'
  end.

Definition sorted_by_id (l : list Node) : list Node :=
  foldr insert_by_id [] l.

Definition extract_subgraph (root : Node) (st : state) : option state :=
  st ← _dfs_traverse root st;
  Some (set_sorted_nodes (sorted_by_id (sorted_nodes st)) st).

(** ** analyze_tensors *)

(** The statements shared by the two places where [add_unique_tensor]
    makes a new Replay Tensor. *)
Definition mint (node_id : Z) (t_id : tid) (shp : shape) (input : bool)
    (device : tval) (st : state) : state :=
  let n := replay_unique_tensor_num st + 1 in
  let st := set_replay_unique_tensor_num n st in
  let st := set_tensors_mapping
              (<[(node_id, t_id, input) := n]> (tensors_mapping st)) st in
  let st := set_replay_tensors_shapes
              (<[n := shp]> (replay_tensors_shapes st)) st in
  let st := set_tensor_shapes
              (<[t_id := {[(n, shp)]} ∪ default ∅ (tensor_shapes st !! t_id)]>
                 (tensor_shapes st)) st in
  if tensor_with_device st
  then set_tensor_device (<[n := device]> (tensor_device st)) st
  else st.

(** The scan [for (relay_t_id, pre_shape) in self.tensor_shapes[t_id]] for
    an entry of the given shape. *)
Definition find_shape (st : state) (t_id : tid) (shp : shape)
    : option (Z * shape) :=
  snd <$> list_find (λ p, p.2 = shp)
            (elements (default ∅ (tensor_shapes st !! t_id))).

Definition add_unique_tensor (node_id : Z) (t_id : tid) (shp : shape)
    (input : bool) (device : tval) (st : state) : state :=
  if decide (t_id ∉ original_unique_tensors st) then
    mint node_id t_id shp input device
      (set_original_unique_tensors ({[t_id]} ∪ original_unique_tensors st) st)
  else
    match find_shape st t_id shp with
    | Some (relay_t_id, _) =>
        set_tensors_mapping
          (<[(node_id, t_id, input) := relay_t_id]> (tensors_mapping st)) st
    | None => mint node_id t_id shp input device st
    end.

(** The body of the first pair of loops for one descriptor; [list(t_id)[5]]
    raises on a descriptor with fewer than six entries. *)
Definition resolve_tensor (node : Node) (input : bool)
    (x : string * tid * shape) (st : state) : option state :=
  let '(_, t_id, shp) := x in
  if tensor_with_device st then
    device ← t_id !! 5%nat;
    let t_id := take 5 t_id in
    Some (if tracked st t_id
          then add_unique_tensor (id node) t_id shp input device st else st)
  else
    Some (if tracked st t_id
          then add_unique_tensor (id node) t_id shp input (TInt (-1)) st
          else st).

Definition resolve_node (node : Node) (st : state) : option state :=
  st ← for_each (resolve_tensor node true) (get_input_tensors node) st;
  for_each (resolve_tensor node false) (get_output_tensors node) st.

(** The second pair of loops; [output_set] is a local variable and is
    threaded next to the state. *)
Definition simulate_input (node : Node) (x : string * tid * shape)
    (acc : gset Z * state) : option (gset Z * state) :=
  let '(_, t_id, _) := x in
  let '(output_set, st) := acc in
  let t_id := key_of st t_id in
  if tracked st t_id then
    r ← tensors_mapping st !! (id node, t_id, true);
    Some (output_set,
          if decide (r ∉ output_set)
          then set_instantiate ({[r]} ∪ instantiate st) st else st)
  else Some acc.

Definition simulate_output (node : Node) (x : string * tid * shape)
    (acc : gset Z * state) : option (gset Z * state) :=
  let '(_, t_id, _) := x in
  let '(output_set, st) := acc in
  let t_id := key_of st t_id in
  if tracked st t_id then
    r ← tensors_mapping st !! (id node, t_id, false);
    Some ({[r]} ∪ output_set, st)
  else Some acc.

Definition simulate_node (node : Node) (acc : gset Z * state)
    : option (gset Z * state) :=
  acc ← for_each (simulate_input node) (get_input_tensors node) acc;
  for_each (simulate_output node) (get_output_tensors node) acc.

(** [analyze_tensors], returning the final [output_set] next to the
    state. *)
Definition analyze_tensors_sets (st : state) : option (gset Z * state) :=
  st ← for_each resolve_node (sorted_nodes st) st;
  for_each simulate_node (sorted_nodes st) (∅, st).

Definition analyze_tensors (st : state) : option state :=
  snd <$> analyze_tensors_sets st.

(** ** allocate_tensors *)

Definition is_embedding_bag (node : Node) : bool :=
  String.eqb (name node) "aten::embedding_bag".
Definition is_split_embedding (node : Node) : bool :=
  contains "fbgemm::split_embedding_codegen_lookup" (name node).

(** The body of the loop over [enumerate(get_input_tensors(node))].
    [input_args] is only read when [is_fbgemm_forward(node)]; an index
    outside of it raises [IndexError], which the [except KeyError] clause
    does not catch. *)
Definition allocate_input (node : Node) (input_args : list value)
    (x : nat * (string * tid * shape)) (st : state) : option state :=
  let '(idx, (data_type, t_id, shp)) := x in
  let t_id := key_of st t_id in
  replay_t_id ← tensors_mapping st !! (id node, t_id, true);
  if tracked st t_id
     && bool_decide (tensor_registry_permanent st !! replay_t_id = None)
     && (is_embedding_bag node || is_split_embedding node
         || bool_decide (replay_t_id ∈ instantiate st))
  then
    if is_fbgemm_forward node then
      v ← input_args !! idx;
      let st := set_tensor_registry_permanent
                  (<[replay_t_id := v]> (tensor_registry_permanent st)) st in
      Some (if is_split_embedding node
            then set_unchangeable_intermediate_tensors
                   ({[replay_t_id]} ∪ unchangeable_intermediate_tensors st) st
            else st)
    else
      match TORCH_DTYPES_RNG (rstrip ")" (lstrip "Tensor(" data_type)) with
      | Some rng =>
          let st := set_tensor_registry_permanent
                      (<[replay_t_id := PTensor (rng shp)]>
                         (tensor_registry_permanent st)) st in
          let st := if is_embedding_bag node
                    then set_unchangeable_intermediate_tensors
                           ({[replay_t_id]}
                              ∪ unchangeable_intermediate_tensors st) st
                    else st in
          Some (if String.eqb (name node) "aten::pin_memory"
                   && bool_decide (idx = 0%nat)
                then set_cpu_tensor ({[replay_t_id]} ∪ cpu_tensor st) st
                else st)
      | None =>
          (* except KeyError *)
          Some (set_tensor_registry_permanent
                  (<[replay_t_id := PNone]> (tensor_registry_permanent st)) st)
      end
  else Some st.

(** One iteration of the offsets workaround:
    [self.tensor_registry_permanent[...][i] = i * nnz], where
    [nnz = indices / offsets]. *)
Definition set_offset (node : Node) (indices offsets : Z) (i : Z)
    (st : state) : option state :=
  it ← inputs node !! 2%nat;
  t_id ← match it with
         | ITensor t => Some (if tensor_with_device st then take 5 t else t)
         | _ => None
         end;
  r ← tensors_mapping st !! (id node, t_id, true);
  v ← tensor_registry_permanent st !! r;
  match v with
  | PTensor t =>
      t' ← tensor_setitem t i indices offsets;
      Some (set_tensor_registry_permanent
              (<[r := PTensor t']> (tensor_registry_permanent st)) st)
  | _ => None
  end.

Definition embedding_bag_offsets (node : Node) (st : state) : option state :=
  if is_embedding_bag node then
    indices_tensor_shape ← input_shapes node !! 1%nat ≫= (.!! 0%nat);
    offsets_tensor_shape ← input_shapes node !! 2%nat ≫= (.!! 0%nat);
    if decide (offsets_tensor_shape = 0) then None (* ZeroDivisionError *)
    else
      for_each (set_offset node indices_tensor_shape offsets_tensor_shape)
               (range offsets_tensor_shape) st
  else Some st.

Definition allocate_node (node : Node) (st : state) : option state :=
  let input_args :=
    if is_fbgemm_forward node then generate_fbgemm_tensors node (cuda st)
    else [] in
  st ← for_each (allocate_input node input_args)
         (enumerate (get_input_tensors node)) st;
  embedding_bag_offsets node st.

Definition allocate_tensors (st : state) : option state :=
  for_each allocate_node (sorted_nodes st) st.

(** ** preprocess_graph *)

(** [root] is [self.exgr.get_nodes(clean=True)[1]]. The generator mode runs
    [generate_code], which emits a script, runs it and ends in [exit(1)];
    it is not modelled and counts as the end of the run. *)
Definition preprocess_graph (root : Node) (st : state) : option state :=
  let st := detect_tensor_device root st in
  st ← extract_subgraph root st;
  st ← analyze_tensors st;
  if generator st then None
  else
    st ← allocate_tensors st;
    reset_registry st.

(** ** get_inputs *)

(** [self.tensor_registry[self.tensors_mapping[(node.id, t_id, True)]]] *)
Definition lookup_input (node : Node) (st : state) (t_id : tid)
    : option value :=
  r ← tensors_mapping st !! (id node, t_id, true);
  tensor_registry st !! r.

Definition value_of_tval (v : tval) : value :=
  match v with
  | inl z => PInt z
  | inr s => PStr s
  end.

(** An item passed as it is: [inputs.append(item)]. *)
Definition value_of_item (it : item) : value :=
  match it with
  | ITensor t => PList (value_of_tval <$> t)
  | ITensorList ts => PList ((λ t, PList (value_of_tval <$> t)) <$> ts)
  | IStr s => PStr s
  | IInt z => PInt z
  end.

(** The descriptor of an item that [is_tensor] announces, and the
    descriptors of one that [is_tensor_list] announces. An item of another
    form makes the lookup raise. The empty list is both an empty descriptor
    and an empty list of descriptors. *)
Definition as_tensor (it : item) : option tid :=
  match it with
  | ITensor t => Some t
  | ITensorList [] => Some []
  | _ => None
  end.
Definition as_tensor_list (it : item) : option (list tid) :=
  match it with
  | ITensorList ts => Some ts
  | ITensor [] => Some []
  | _ => None
  end.

(** ["cuda" in item] *)
Definition cuda_in (it : item) : option bool :=
  match it with
  | IStr s => Some (contains "cuda" s)
  | ITensor t => Some (bool_decide (TStr "cuda" ∈ t))
  | ITensorList _ => Some false
  | IInt _ => None
  end.

(** The body of the loop over [enumerate(node.inputs)]. *)
Definition get_input (node : Node) (st : state) (x : nat * item)
    : option value :=
  let '(idx, it) := x in
  if is_tensor node idx then
    t ← as_tensor it; lookup_input node st (key_of st t)
  else if is_tensor_list node idx then
    ts ← as_tensor_list it;
    PList <$> mapM (λ t, lookup_input node st (key_of st t)) ts
  else if bool_decide (it = IStr "<None>" ∨ it = IStr "<Generator>") then
    Some PNone
  else if bool_decide (it = IStr "inf") then Some (PInf false)
  else if bool_decide (it = IStr "-inf") then Some (PInf true)
  else
    ty ← input_types node !! idx;
    if String.eqb ty "Device" then
      b ← cuda_in it;
      Some (if b : bool then PStr (cuda st) else value_of_item it)
    else Some (value_of_item it).

(** [get_inputs]; an exception is printed and [None] is returned, on which
    the caller fails, so it counts as the end of the run. *)
Definition get_inputs (node : Node) (st : state) : option (list value) :=
  if is_fbgemm_forward node then
    ins ← mapM (λ idx, it ← inputs node !! idx;
                       t ← as_tensor it;
                       lookup_input node st (key_of st t))
               (fbgemm_input_args_indices node);
    Some (if is_fbgemm_forward_unweighted node then ins ++ [PNone] else ins)
  else
    mapM (get_input node st) (enumerate (inputs node)).

(** ** run_op *)

(** [inputs[3] = inputs[3].to(torch.float64)] *)
Definition input3_to_float64 (ins : list value) : option (list value) :=
  v ← ins !! 3%nat;
  match v with
  | PTensor t => Some (<[3%nat := PTensor (tensor_to_float64 t)]> ins)
  | _ => None
  end.

(** The workarounds applied to the inputs before the call. *)
Definition patch_inputs (node : Node) (ins : list value)
    : option (list value) :=
  ins ← (if String.eqb (name node) "aten::convolution_backward" then
           match ins with
           | [] => None
           | _ => Some (<[pred (length ins) :=
                            PList [PBool true; PBool true; PBool true]]> ins)
           end
         else Some ins);
  ins ← (if String.eqb (name node) "aten::index_add_"
         then input3_to_float64 ins else Some ins);
  if String.eqb (name node) "aten::index_copy_" then
    ty ← input_types node !! 3%nat;
    if String.eqb ty "Tensor(double)" then input3_to_float64 ins
    else Some ins
  else Some ins.

(** [not tmp] is [negb] of this. *)
Definition truthy (v : value) : option bool :=
  match v with
  | PNone => Some false
  | PTensor t => tensor_bool t
  | PList l | PTuple l => Some (bool_decide (l ≠ []))
  | PStr s => Some (bool_decide (s ≠ ""%string))
  | PInt z => Some (bool_decide (z ≠ 0))
  | PBool b => Some b
  | PInf _ => Some true
  end.

(** [for x in tmp] *)
Definition py_iter (v : value) : option (list value) :=
  match v with
  | PList l | PTuple l => Some l
  | PTensor t =>
      match tensor_iter t with
      | Some ts => Some (PTensor <$> ts)
      | None => None
      end
  | PStr s =>
      Some ((λ c, PStr (String c EmptyString))
              <$> String.list_ascii_of_string s)
  | _ => None
  end.

(** "Flatten any tensor lists": [x[0]] raises on an empty list. *)
Fixpoint flatten_outputs (tmp : list value) : option (list value) :=
  match tmp with
  | [] => Some []
  | x :: tmp' =>
      here ← match x with
             | PList [] => None
             | PList (PTensor _ :: _ as l) => Some l
             | PTensor _ => Some [x]
             | _ => Some []
             end;
      rest ← flatten_outputs tmp';
      Some (here ++ rest)
  end.

(** The [try] block: [None] is [exit(1)], [Some None] the early [return]
    when the operator gave no output, [Some (Some outputs)] otherwise. *)
Definition call_op (func : Callable Tensor) (output_count : Z)
    (ins : list value) : option (option (list value)) :=
  if decide (output_count = 0) then
    _ ← func ins; Some (Some [])
  else
    tmp ← (if decide (output_count = 1)
           then r ← func ins; Some (PTuple [r]) else func ins);
    b ← truthy tmp;
    if b : bool then
      xs ← py_iter tmp;
      outs ← flatten_outputs xs;
      Some (Some outs)
    else Some None.

(** The body of the output-binding loop. *)
Definition bind_output (node : Node)
    (x : (string * tid * shape) * value) (st : state) : option state :=
  let '((_, t_id, _), output) := x in
  let t_id := key_of st t_id in
  if tracked st t_id then
    r ← tensors_mapping st !! (id node, t_id, false);
    if decide (r ∉ unchangeable_intermediate_tensors st) then
      if decide (r ∉ instantiate st) then
        Some (set_tensor_registry (<[r := output]> (tensor_registry st)) st)
      else Some st
    else Some st
  else Some st.

Definition bind_outputs (node : Node) (outputs : list value) (st : state)
    : option state :=
  for_each (bind_output node) (zip (get_output_tensors node) outputs) st.

(** [run_op]; the time and memory bookkeeping of the debug and profiling
    modes is left out. *)
Definition run_op (node : Node) (iter : nat) (st : state) : option state :=
  '(func, output_count) ← funcs st !! id node;
  match func with
  | None => Some st
  | Some func =>
      ins ← get_inputs node st;
      ins ← patch_inputs node ins;
      outputs ← call_op func output_count ins;
      match outputs with
      | None => Some st
      | Some outputs => bind_outputs node outputs st
      end
  end.

(** ** benchTime *)

(** One iteration of the execution loop:
    [for node in self.sorted_nodes: self.run_op(node, iter)]. The call of
    [reset_registry] that follows in the source is commented out. *)
Definition run_iteration (iter : nat) (st : state) : option state :=
  for_each (λ node, run_op node iter) (sorted_nodes st) st.

(** [for iter in range(n)] *)
Definition run_iterations (n : nat) (st : state) : option state :=
  for_each run_iteration (seq 0 n) st.

(** [benchTime] up to the end of the execution loop; timing, profiling and
    the report are left out. *)
Definition benchTime (root : Node) (st : state) : option state :=
  st ← preprocess_graph root st;
  run_iterations (numWarmupIters st + numIters st) st.

(** ** Observations used to state the properties *)

(** [n] calls of [reset_registry] in a row. *)
Fixpoint reset_n (n : nat) (st : state) : option state :=
  match n with
  | O => Some st
  | S n' => st' ← reset_registry st; reset_n n' st'
  end.

(** The loop of [_dfs_traverse] over the children of a node. *)
Fixpoint dfs_children (cs : list Node) (st : state) : option state :=
  match cs with
  | [] => Some st
  | child :: rest =>
      if existsb (λ x, contains x (name child)) (skip_node_names st) then
        dfs_children rest (record_skip (name child) st)
      else if is_qualified child then
        let st := set_sorted_nodes (sorted_nodes st ++ [child]) st in
        let st := count_dependencies child st in
        '(func, output_count, st) ← build_func child st;
        dfs_children rest
          (set_funcs (<[id child := (func, output_count)]> (funcs st)) st)
      else
        let st := if skip_op child then record_skip (name child) st else st in
        st ← _dfs_traverse child st;
        dfs_children rest st
  end.

(** The nodes below [root] that the traversal selects, in the order in
    which it meets them: the qualified nodes that are reached without
    passing a node of the skip list or another qualified node. *)
Fixpoint selected (names : list string) (root : Node) : list Node :=
  flat_map (λ child,
              if existsb (λ x, contains x (name child)) names then []
              else if is_qualified child then [child]
              else selected names child)
           (children root).

(** The operator of the node goes through [build_torchscript_func] and is
    not resolved. *)
Definition unresolved (node : Node) : Prop :=
  is_fbgemm_forward node = false ∧ is_fbgemm_backward node = false ∧
  (build_torchscript_func node).1 = None.

(** A call [add_unique_tensor(node_id, t_id, shape, input, device)]. *)
Record call := mkCall {
  c_node : Z;
  c_key : tid;
  c_shape : shape;
  c_input : bool;
  c_device : tval;
}.

Definition do_call (c : call) (st : state) : state :=
  add_unique_tensor (c_node c) (c_key c) (c_shape c) (c_input c)
    (c_device c) st.

(** The Replay Tensor id that a call assigns to its occurrence: the value
    of [self.tensors_mapping[(node_id, t_id, input)]] when it returns. *)
Definition assigned (c : call) (st : state) : Z :=
  default 0 (tensors_mapping (do_call c st)
               !! (c_node c, c_key c, c_input c)).

(** A sequence of calls, with the ids assigned on the way. *)
Fixpoint resolve_all (cs : list call) (st : state) : list Z * state :=
  match cs with
  | [] => ([], st)
  | c :: cs' =>
      let '(ids, st') := resolve_all cs' (do_call c st) in
      (assigned c st :: ids, st')
  end.

(** [self.tensor_shapes[t_id]] on the [defaultdict(set)]. *)
Definition shapes_of (st : state) (t_id : tid) : gset (Z * shape) :=
  default ∅ (tensor_shapes st !! t_id).

(** The call that the first pair of loops of [analyze_tensors] makes for a
    descriptor, if any. *)
Definition tensor_call (st : state) (node : Node) (input : bool)
    (x : string * tid * shape) : option call :=
  let '(_, t_id, shp) := x in
  if tracked st (key_of st t_id) then
    Some (mkCall (id node) (key_of st t_id) shp input
            (if tensor_with_device st
             then default (TInt (-1)) (t_id !! 5%nat) else TInt (-1)))
  else None.

Definition node_calls (st : state) (node : Node) : list call :=
  omap (tensor_call st node true) (get_input_tensors node)
  ++ omap (tensor_call st node false) (get_output_tensors node).

Definition pass_calls (st : state) (nodes : list Node) : list call :=
  nodes ≫= node_calls st.

(** The shapes seen under a key, and the ids assigned under it. *)
Definition shapes_seen (cs : list call) (k : tid) : gset shape :=
  list_to_set (c_shape <$> filter (λ c, c_key c = k) cs).
Definition ids_assigned (cs : list call) (ids : list Z) (k : tid) : gset Z :=
  list_to_set (snd <$> filter (λ x, c_key x.1 = k) (zip cs ids)).

(** No Replay Tensor has been made yet. *)
Definition no_tensors (st : state) : Prop :=
  original_unique_tensors st = ∅ ∧ tensor_shapes st = ∅.

(** The two states agree on what decides which descriptors are tracked
    and under which key. *)
Definition same_config (st st' : state) : Prop :=
  tensor_with_device st' = tensor_with_device st ∧
  dependency_permanent st' = dependency_permanent st ∧
  sorted_nodes st' = sorted_nodes st.

(** The specialized operator families of the Allocator. *)
Definition specialized (node : Node) : Prop :=
  is_embedding_bag node = true ∨ is_split_embedding node = true.

(** The two states differ at most in what the Allocator writes: the
    Permanent Registry and the sets of unchangeable and cpu tensors. *)
Definition same_but_allocation (st st' : state) : Prop :=
  st' = set_tensor_registry_permanent (tensor_registry_permanent st')
          (set_unchangeable_intermediate_tensors
             (unchangeable_intermediate_tensors st')
             (set_cpu_tensor (cpu_tensor st') st)).

(** The two states differ at most in the Working Registry. *)
Definition same_but_registry (st st' : state) : Prop :=
  st' = set_tensor_registry (tensor_registry st') st.

(** ** analyze_ops *)

(** The four counters of [analyze_ops] and the names it prints because
    they fall in no category. *)
Record op_counts := mkCounts {
  fused_cnt : Z;
  aten_up_cnt : Z;
  aten_cnt : Z;
  custom_cnt : Z;
  printed : list string;
}.

(** The body of the loop over [self.actual_skip_nodes]. *)
Definition count_op (c : op_counts) (op : string) : op_counts :=
  if contains "fused" op then
    mkCounts (fused_cnt c + 1) (aten_up_cnt c) (aten_cnt c) (custom_cnt c)
      (printed c)
  else if contains "aten::record_stream" op || contains "aten::set_" op then
    mkCounts (fused_cnt c) (aten_up_cnt c + 1) (aten_cnt c) (custom_cnt c)
      (printed c)
  else if contains "aten::" op then
    mkCounts (fused_cnt c) (aten_up_cnt c) (aten_cnt c + 1) (custom_cnt c)
      (printed c)
  else if contains "fb::" op || contains "fbgemm::" op then
    mkCounts (fused_cnt c) (aten_up_cnt c) (aten_cnt c) (custom_cnt c + 1)
      (printed c)
  else
    mkCounts (fused_cnt c) (aten_up_cnt c) (aten_cnt c) (custom_cnt c)
      (printed c ++ [op]).

Definition analyze_ops (st : state) : op_counts :=
  foldl count_op (mkCounts 0 0 0 0 []) (actual_skip_nodes st).

(** ** generate_code: the name an output is assigned to *)

(** [_generate_output_tensor_str(node, output_tensors)]: the name, and the
    list after [output_tensors.pop(0)]; [pop] raises on the empty list. *)
Definition _generate_output_tensor_str (node : Node)
    (output_tensors : list (string * tid * shape)) (st : state)
    : option (string * list (string * tid * shape)) :=
  match output_tensors with
  | [] => None
  | (_, t_id, _) :: rest =>
      let t_id := key_of st t_id in
      if tracked st t_id then
        replay_t_id ← tensors_mapping st !! (id node, t_id, false);
        if decide ((replay_t_id ∉ unchangeable_intermediate_tensors st)
                   ∧ (replay_t_id ∉ instantiate st))
        then Some (("tensor_" +:+ pretty replay_t_id)%string, rest)
        else Some ("_"%string, rest)
      else Some ("_"%string, rest)
  end.

(** ** benchTime: the report *)

(** The two integers of the line "Operator coverage: {} / {} = {}". The
    line before it divides by [self.numIters] and this one by the second
    integer; a division by zero raises. The quotients themselves are
    floating point and are left out. *)
Definition coverage_report (st : state) : option (Z * Z) :=
  if decide (numIters st = 0%nat) then None
  else
    let replayed := Z.of_nat (length (sorted_nodes st)) in
    let total := replayed + actual_skip_nodes_cnt st in
    if decide (total = 0) then None else Some (replayed, total).

(** ** Further notions used in the proofs *)

(** The nodes below a node, parents before children. *)
Fixpoint descendants (root : Node) : list Node :=
  flat_map (λ child, child :: descendants child) (children root).

(** The keys of the input tensors of a list of nodes, with repetitions. *)
Definition input_keys (st : state) (nodes : list Node) : list tid :=
  (λ x : string * tid * shape, key_of st x.1.2)
    <$> (nodes ≫= get_input_tensors).

(** The number of times a key occurs among them. *)
Definition occurrences (k : tid) (ks : list tid) : Z :=
  Z.of_nat (length (filter (λ k', k' = k) ks)).

(** The descriptors of a node have the six entries that the device-aware
    mode reads. *)
Definition with_device (node : Node) : Prop :=
  ∀ x, x ∈ get_input_tensors node ++ get_output_tensors node →
       (6 ≤ length x.1.2)%nat.

(** ** Notions used in the proofs *)

Implicit Types (st : State Tensor) (node : Node) (r : Z).

Definition protected st r : Prop :=
  r ∈ unchangeable_intermediate_tensors st ∨ r ∈ instantiate st.

(** [st'] keeps the entry of [r] and the protection of [r]. *)
Definition keeps st r st' : Prop :=
  same_but_registry st st' ∧ tensor_registry st' !! r = tensor_registry st !! r.

(** What a stretch of the traversal that selects the nodes [sel] does to
    the attributes of the flattener. *)
Definition traversal_summary (sel : list Node) st st' : Prop :=
  sorted_nodes st' = sorted_nodes st ++ sel ∧
  skip_node_names st' = skip_node_names st ∧
  (∃ extra,
     actual_skip_nodes st' = actual_skip_nodes st ++ extra ∧
     actual_skip_nodes_cnt st'
     = actual_skip_nodes_cnt st + Z.of_nat (length extra) ∧
     ∀ n, n ∈ sel → unresolved n → name n ∈ extra) ∧
  (∀ i, i ∉ id <$> sel → funcs st' !! i = funcs st !! i) ∧
  (NoDup (id <$> sel) → ∀ n, n ∈ sel → unresolved n →
     funcs st' !! id n = Some (None, (build_torchscript_func n).2)).

Definition le_id : relation Node := λ a b, id a ≤ id b.
Definition lt_id : relation Node := λ a b, id a < id b.

(** The ids flagged since [st] are ids of inputs of specialized nodes. *)
Definition flagged_inputs (nodes : list Node) st s : Prop :=
  same_but_allocation st s ∧
  ∀ r, r ∈ unchangeable_intermediate_tensors s →
       r ∈ unchangeable_intermediate_tensors st ∨
       ∃ node x, node ∈ nodes ∧ specialized node ∧
                 x ∈ get_input_tensors node ∧
                 tensors_mapping st !! (id node, key_of st x.1.2, true)
                 = Some r.

(** What holds of the bookkeeping of [add_unique_tensor]: a recorded pair
    belongs to a key that was seen, carries an id that was handed out, and
    neither a shape under a key nor an id occurs twice. *)
Record resolver_inv st : Prop := {
  inv_seen : ∀ k r s, (r, s) ∈ shapes_of st k → k ∈ original_unique_tensors st;
  inv_bound : ∀ k r s, (r, s) ∈ shapes_of st k → r ≤ replay_unique_tensor_num st;
  inv_shape : ∀ k r1 r2 s,
    (r1, s) ∈ shapes_of st k → (r2, s) ∈ shapes_of st k → r1 = r2;
  inv_id : ∀ k1 k2 r s1 s2,
    (r, s1) ∈ shapes_of st k1 → (r, s2) ∈ shapes_of st k2 → k1 = k2 ∧ s1 = s2;
}.

(** The two outcomes of a call. *)
Definition reuses (c : call) st st' : Prop :=
  (assigned c st, c_shape c) ∈ shapes_of st (c_key c) ∧
  (∀ k, shapes_of st' k = shapes_of st k) ∧
  replay_unique_tensor_num st' = replay_unique_tensor_num st ∧
  original_unique_tensors st' = original_unique_tensors st.

Definition mints (c : call) st st' : Prop :=
  (∀ r, (r, c_shape c) ∉ shapes_of st (c_key c)) ∧
  assigned c st = replay_unique_tensor_num st + 1 ∧
  replay_unique_tensor_num st' = replay_unique_tensor_num st + 1 ∧
  shapes_of st' (c_key c)
  = {[(assigned c st, c_shape c)]} ∪ shapes_of st (c_key c) ∧
  (∀ k, k ≠ c_key c → shapes_of st' k = shapes_of st k) ∧
  c_key c ∈ original_unique_tensors st' ∧
  original_unique_tensors st ⊆ original_unique_tensors st'.

(** The second pass only adds to [output_set] and to [instantiate]. *)
Definition sim_le (a b : gset Z * State Tensor) : Prop :=
  a.1 ⊆ b.1 ∧ instantiate a.2 ⊆ instantiate b.2 ∧
  b.2 = set_instantiate (instantiate b.2) a.2.

(** The input occurrence has a replay id, and the id is classified. *)
Definition input_classified node (x : string * tid * shape)
    (acc : gset Z * State Tensor) : Prop :=
  tracked acc.2 (key_of acc.2 x.1.2) = true →
  ∃ r, tensors_mapping acc.2 !! (id node, key_of acc.2 x.1.2, true) = Some r ∧
       (r ∈ instantiate acc.2 ∨ r ∈ acc.1).

Definition output_classified node (x : string * tid * shape)
    (acc : gset Z * State Tensor) : Prop :=
  tracked acc.2 (key_of acc.2 x.1.2) = true →
  ∃ r, tensors_mapping acc.2 !! (id node, key_of acc.2 x.1.2, false) = Some r ∧
       r ∈ acc.1.

Definition node_classified node (acc : gset Z * State Tensor) : Prop :=
  (∀ x, x ∈ get_input_tensors node → input_classified node x acc) ∧
  (∀ x, x ∈ get_output_tensors node → output_classified node x acc).

(** What the second pass classifies is a replay id of the mapping. *)
Definition range_inv (base acc : gset Z * State Tensor) : Prop :=
  sim_le base acc ∧
  ∀ r, r ∈ instantiate acc.2 ∨ r ∈ acc.1 →
       (r ∈ instantiate base.2 ∨ r ∈ base.1)
       ∨ ∃ t, tensors_mapping base.2 !! t = Some r.

(** ** Notions used for the further properties *)

(** The callables known after a stretch of the traversal. *)
Definition funcs_cover (sel : list Node) st st' : Prop :=
  (∀ n, n ∈ sel → is_Some (funcs st' !! id n)) ∧
  (∀ i, is_Some (funcs st !! i) → is_Some (funcs st' !! i)).

(** The Dependency Count Map after a stretch of the traversal: the count of
    a key grows by the number of its occurrences, and a key is present when
    it was present or occurs. *)
Definition counts_inputs (sel : list Node) st st' : Prop :=
  tensor_with_device st' = tensor_with_device st ∧
  ∀ k, default 0 (dependency_permanent st' !! k)
       = default 0 (dependency_permanent st !! k)
         + occurrences k (input_keys st sel) ∧
       (is_Some (dependency_permanent st' !! k) ↔
        is_Some (dependency_permanent st !! k)
        ∨ 0 < occurrences k (input_keys st sel)).

(** The body of the loop of [count_dependencies]. *)
Definition count_one st (x : string * tid * shape) : State Tensor :=
  set_dependency_permanent
    (<[key_of st x.1.2 :=
         default 0 (dependency_permanent st !! key_of st x.1.2) + 1]>
       (dependency_permanent st)) st.

(** The loop of [_traverse] over the children of a node. *)
Fixpoint detect_children (cs : list Node) st : State Tensor :=
  match cs with
  | [] => st
  | child :: rest =>
      match get_input_tensors child with
      | (_, t_id, _) :: _ =>
          if decide (length t_id = 5%nat)
          then set_tensor_with_device false st else st
      | [] =>
          match get_output_tensors child with
          | (_, t_id, _) :: _ =>
              if decide (length t_id = 5%nat)
              then set_tensor_with_device false st else st
          | [] => detect_children rest (detect_traverse child st)
          end
      end
  end.

(** No descriptor of the node has five entries. *)
Definition no_short_descriptor node : Prop :=
  ∀ x, x ∈ get_input_tensors node ++ get_output_tensors node →
       length x.1.2 ≠ 5%nat.

(** The shape and device tables hold ids that were handed out, and an
    entry for every recorded pair. *)
Record tables_inv st : Prop := {
  tbl_shape_bound : ∀ r, is_Some (replay_tensors_shapes st !! r) →
                         r ≤ replay_unique_tensor_num st;
  tbl_device_bound : ∀ r, is_Some (tensor_device st !! r) →
                          r ≤ replay_unique_tensor_num st;
  tbl_shape : ∀ k r s, (r, s) ∈ shapes_of st k →
                       replay_tensors_shapes st !! r = Some s;
  tbl_device : ∀ k r s, (r, s) ∈ shapes_of st k →
                        tensor_with_device st = true →
                        is_Some (tensor_device st !! r);
}.

(** The Allocator went from [a] to [b] without dropping an entry of the
    Permanent Registry. *)
Definition alloc_le (a b : State Tensor) : Prop :=
  same_but_allocation a b ∧
  ∀ r, is_Some (tensor_registry_permanent a !! r) →
       is_Some (tensor_registry_permanent b !! r).

(** The input has a Permanent Registry entry when the Allocator is to seed
    it: it is must-instantiate or an input of a specialized node. *)
Definition seeded node (x : string * tid * shape) st : Prop :=
  ∀ r, tracked st (key_of st x.1.2) = true →
       tensors_mapping st !! (id node, key_of st x.1.2, true) = Some r →
       r ∈ instantiate st ∨ specialized node →
       is_Some (tensor_registry_permanent st !! r).

(** The Working Registry went from [a] to [b] by output bindings of nodes
    of [nodes]. *)
Definition bound_by (nodes : list Node) (a b : State Tensor) : Prop :=
  same_but_registry a b ∧
  ∀ r, tensor_registry b !! r = tensor_registry a !! r
       ∨ (is_Some (tensor_registry b !! r) ∧ ¬ protected a r ∧
          ∃ node x, node ∈ nodes ∧ x ∈ get_output_tensors node ∧
                    tracked a (key_of a x.1.2) = true ∧
                    tensors_mapping a !! (id node, key_of a x.1.2, false)
                    = Some r).

(** The four categories of a name, in the order the branches test them. *)
Definition in_fused (op : string) : Prop := contains "fused" op = true.
Definition in_aten (op : string) : Prop :=
  contains "fused" op = false ∧ contains "aten::" op = true.
Definition in_custom (op : string) : Prop :=
  contains "fused" op = false ∧ contains "aten::" op = false ∧
  (contains "fb::" op = true ∨ contains "fbgemm::" op = true).
Definition in_none (op : string) : Prop :=
  contains "fused" op = false ∧ contains "aten::" op = false ∧
  contains "fb::" op = false ∧ contains "fbgemm::" op = false.

Definition tally (P : string → Prop) `{!∀ op, Decision (P op)}
    (l : list string) : Z :=
  Z.of_nat (length (filter P l)).

End Replay.

(** ** A small instance of the helpers

    Tensors are a label and a device; an input or output of a node is a
    tensor when its type string starts with [Tensor]; operators are the
    nodes whose name contains [::]; [aten::relu] and [aten::embedding_bag]
    resolve, other operators do not. *)

Definition demo_tensor : Type := string * string.

Definition demo_tensors_of (its : list item) (tys : list string)
    (shps : list shape) : list (string * tid * shape) :=
  omap (λ x, match x with
             | (ITensor t, ty, shp) =>
                 if String.prefix "Tensor" ty then Some (ty, t, shp) else None
             | _ => None
             end)
       (zip (zip its tys) shps).

Definition demo_op (label : string) : Callable demo_tensor :=
  λ _, Some (PTensor (label, "cuda"%string)).

#[local] Instance demo_helpers : Helpers demo_tensor := {|
  get_input_tensors n :=
    demo_tensors_of (inputs n) (input_types n) (input_shapes n);
  get_output_tensors n :=
    demo_tensors_of (outputs n) (output_types n) (output_shapes n);
  is_qualified n := contains "::" (name n);
  skip_op n := false;
  is_fbgemm_forward n := false;
  is_fbgemm_backward n := false;
  is_fbgemm_forward_unweighted n := false;
  build_fbgemm_func n c := (demo_op "fwd", demo_op "bwd", 1);
  build_torchscript_func n :=
    if String.eqb (name n) "aten::relu"
       || String.eqb (name n) "aten::embedding_bag"
    then (Some (demo_op (name n)), 1) else (None, 1);
  fbgemm_input_args_indices n := [];
  generate_fbgemm_tensors n c := [];
  is_tensor n idx :=
    match input_types n !! idx with
    | Some ty => String.prefix "Tensor" ty
    | None => false
    end;
  is_tensor_list n idx := false;
  TORCH_DTYPES_RNG key :=
    if String.eqb key "float" || String.eqb key "long"
    then Some (λ _, ("seed", "cpu")%string) else None;
  tensor_cuda t d := (t.1, d);
  tensor_to_float64 t := t;
  tensor_setitem t i num den := Some t;
  tensor_bool t := Some true;
  tensor_iter t := Some [];
|}.

(** Tensor descriptors with a device tag. *)
Definition demo_tid (n : Z) : tid :=
  [TInt n; TInt n; TInt 0; TInt 4; TInt 4; TStr "cuda:0"].

(** An operator node with one tensor input and one tensor output. *)
Definition demo_unary (i : Z) (nm : string) (src dst : Z) : Node :=
  mkNode i nm [] [ITensor (demo_tid src)] ["Tensor(float)"%string] [[4]]
         [ITensor (demo_tid dst)] ["Tensor(float)"%string] [[4]].

Definition demo_root (cs : list Node) : Node :=
  mkNode 1 "[pytorch|profiler|execution_graph|thread]" cs [] [] [] [] [] [].

(** A fresh manager: no warmup, two iterations, default device. *)
Definition demo_init : State demo_tensor := init 0 2 false (-1).

(** A chain: node 2 consumes tensor 10 and produces tensor 11, node 3
    consumes tensor 11. *)
Definition trace_chain : Node :=
  demo_root [demo_unary 2 "aten::relu" 10 11; demo_unary 3 "aten::relu" 11 12].

(** Node 2 consumes tensor 10 before node 3 produces it; the operator of
    node 4 is not resolved. *)
Definition node_rewrite : Node := demo_unary 3 "aten::relu" 12 10.
Definition node_foo : Node := demo_unary 4 "aten::foo" 11 12.
Definition trace_rewrite : Node :=
  demo_root [demo_unary 2 "aten::relu" 10 11; node_rewrite; node_foo].

(** The traversal meets node 5 first, then nodes 4 and 3 below a label. *)
Definition trace_unordered : Node :=
  demo_root
    [demo_unary 5 "aten::relu" 12 13;
     mkNode 2 "## forward ##"
       [demo_unary 4 "aten::relu" 11 12; demo_unary 3 "aten::relu" 10 11]
       [] [] [] [] [] []].

(** An [aten::embedding_bag] node (weight, indices, offsets) whose output
    is consumed by node 3. *)
Definition node_embedding : Node :=
  mkNode 2 "aten::embedding_bag" []
    [ITensor (demo_tid 10); ITensor (demo_tid 11); ITensor (demo_tid 12);
     IInt 0]
    ["Tensor(float)"; "Tensor(long)"; "Tensor(long)"; "Int"]%string
    [[10; 4]; [6]; [3]; []]
    [ITensor (demo_tid 13)] ["Tensor(float)"%string] [[3; 4]].
Definition trace_embedding : Node :=
  demo_root
    [node_embedding;
     mkNode 3 "aten::relu" [] [ITensor (demo_tid 13)]
       ["Tensor(float)"%string] [[3; 4]]
       [ITensor (demo_tid 14)] ["Tensor(float)"%string] [[3; 4]]].

(** The manager after [extract_subgraph], after [analyze_tensors], after
    [allocate_tensors] and after [preprocess_graph] on a trace. *)
Definition demo_flat (root : Node) : State demo_tensor :=
  default demo_init (extract_subgraph root demo_init).
Definition demo_sets (root : Node) : gset Z * State demo_tensor :=
  default (∅, demo_init) (analyze_tensors_sets (demo_flat root)).
Definition demo_analyzed (root : Node) : State demo_tensor :=
  (demo_sets root).2.
Definition demo_allocated (root : Node) : State demo_tensor :=
  default demo_init (allocate_tensors (demo_analyzed root)).
Definition demo_ready (root : Node) : State demo_tensor :=
  default demo_init (preprocess_graph root demo_init).
(** ... and after [n] iterations of the execution loop. *)
Definition demo_run (root : Node) (n : nat) : State demo_tensor :=
  default demo_init (run_iterations n (demo_ready root)).

(** The key of tensor [n]. *)
Definition demo_key (n : Z) : tid := take 5 (demo_tid n).

(** One key seen as an input of shape [8], as an input of shape [16] and
    as an output of shape [8]. *)
Definition demo_calls : list call :=
  [mkCall 5 (demo_key 1) [8] true (TStr "cuda:0");
   mkCall 9 (demo_key 1) [16] true (TStr "cuda:0");
   mkCall 9 (demo_key 1) [8] false (TStr "cuda:0")].

(** The descriptor of the output of [node_rewrite] and a value for it. *)
Definition demo_output : (string * tid * shape) * pyval demo_tensor :=
  (("Tensor(float)"%string, demo_tid 10, [4]),
   PTensor ("new", "cuda")%string).

(** The helpers with the two fbgemm predicates read off the name of the
    node, the rest as above. *)
Definition fbgemm_helpers : Helpers demo_tensor := {|
  get_input_tensors := @get_input_tensors _ demo_helpers;
  get_output_tensors := @get_output_tensors _ demo_helpers;
  is_qualified := @is_qualified _ demo_helpers;
  skip_op := @skip_op _ demo_helpers;
  is_fbgemm_forward n :=
    contains "fbgemm::split_embedding_codegen_lookup" (name n);
  is_fbgemm_backward n := contains "CppNode<SplitLookupFunction" (name n);
  is_fbgemm_forward_unweighted := @is_fbgemm_forward_unweighted _ demo_helpers;
  build_fbgemm_func := @build_fbgemm_func _ demo_helpers;
  build_torchscript_func := @build_torchscript_func _ demo_helpers;
  fbgemm_input_args_indices := @fbgemm_input_args_indices _ demo_helpers;
  generate_fbgemm_tensors := @generate_fbgemm_tensors _ demo_helpers;
  is_tensor := @is_tensor _ demo_helpers;
  is_tensor_list := @is_tensor_list _ demo_helpers;
  TORCH_DTYPES_RNG := @TORCH_DTYPES_RNG _ demo_helpers;
  tensor_cuda := @tensor_cuda _ demo_helpers;
  tensor_to_float64 := @tensor_to_float64 _ demo_helpers;
  tensor_setitem := @tensor_setitem _ demo_helpers;
  tensor_bool := @tensor_bool _ demo_helpers;
  tensor_iter := @tensor_iter _ demo_helpers;
|}.

(** A forward node of the fbgemm lookup and the node of its backward. *)
Definition node_lookup : Node :=
  demo_unary 2 "fbgemm::split_embedding_codegen_lookup_sgd_function" 10 11.
Definition node_lookup_backward : Node :=
  demo_unary 3 "autograd::engine::evaluate_function: torch::autograd::CppNode<SplitLookupFunction_sgd_Op>" 11 12.

(** The manager of the chain after [preprocess_graph], without its device
    table, and without its Working Registry. *)
Definition demo_no_device : State demo_tensor :=
  set_tensor_device ∅ (demo_ready trace_chain).
Definition demo_cleared : State demo_tensor :=
  set_tensor_registry ∅ (demo_ready trace_chain).

(** * Properties *)

Section Properties.
Context {Tensor : Type} `{!Helpers Tensor}.

Implicit Types (st : State Tensor) (node : Node) (r : Z).

(** ** Loops *)


(** An invariant of the loop body is an invariant of the loop. *)
Lemma for_each_invariant {A S} (P : S → Prop) (f : A → S → option S)
    (l : list A) (s s' : S) :
  (∀ x a b, x ∈ l → P a → f x a = Some b → P b) →
  P s → for_each f l s = Some s' → P s'.
Proof.
  revert s. induction l as [|x l IH]; intros s Hf HP Hrun; simpl in Hrun.
  - by simplify_eq.
  - destruct (f x s) as [s1|] eqn:E; simpl in Hrun; [|done].
    eapply IH; [| |exact Hrun].
    + intros y a b Hy. apply Hf. by right.
    + eapply Hf; [by left|exact HP|exact E].
Qed.

(** ** The Working Registry is the only attribute the execution writes *)

Lemma same_but_registry_refl st : same_but_registry st st.
Proof. by destruct st. Qed.

Lemma same_but_registry_trans st1 st2 st3 :
  same_but_registry st1 st2 → same_but_registry st2 st3 →
  same_but_registry st1 st3.
Proof.
  unfold same_but_registry. intros H12 H23. rewrite H23 at 1.
  rewrite H12. by destruct st1.
Qed.

Lemma same_but_registry_set st reg :
  same_but_registry st (set_tensor_registry reg st).
Proof. by destruct st. Qed.

Lemma bind_output_spec node x st st' :
  bind_output node x st = Some st' →
  st' = st ∨
  ∃ r, tracked st (key_of st x.1.1.2) = true ∧
       tensors_mapping st !! (id node, key_of st x.1.1.2, false) = Some r ∧
       (r ∉ unchangeable_intermediate_tensors st) ∧ (r ∉ instantiate st) ∧
       st' = set_tensor_registry (<[r := x.2]> (tensor_registry st)) st.
Proof.
  destruct x as [[[ty t_id] shp] output]. unfold bind_output. simpl.
  destruct (tracked st (key_of st t_id)) eqn:Ht; [|intros; simplify_eq; by left].
  destruct (tensors_mapping st !! _) as [r|] eqn:Hr; simpl; [|done].
  destruct (decide (r ∉ unchangeable_intermediate_tensors st)) as [Hu|Hu];
    [destruct (decide (r ∉ instantiate st)) as [Hi|Hi]|];
    intros [= <-]; [right; by exists r|by left..].
Qed.



Lemma run_op_bind node iter st st' :
  run_op node iter st = Some st' →
  st' = st ∨ ∃ outputs, bind_outputs node outputs st = Some st'.
Proof.
  unfold run_op. intros H.
  destruct (funcs st !! id node) as [[[func|] oc]|]; simpl in H;
    [|simplify_eq; by left|done].
  destruct (get_inputs node st) as [ins|]; simpl in H; [|done].
  destruct (patch_inputs node ins) as [ins'|]; simpl in H; [|done].
  destruct (call_op func oc ins') as [[outs|]|]; simpl in H;
    [eauto|simplify_eq; by left|done].
Qed.


Lemma same_but_registry_fields st st' :
  same_but_registry st st' →
  sorted_nodes st' = sorted_nodes st ∧
  instantiate st' = instantiate st ∧
  unchangeable_intermediate_tensors st' = unchangeable_intermediate_tensors st ∧
  tensor_registry_permanent st' = tensor_registry_permanent st ∧
  tensors_mapping st' = tensors_mapping st.
Proof. intros ->. by destruct st. Qed.



(** ** The frame of the output binding *)

Lemma keeps_refl st r : keeps st r st.
Proof. split; [apply same_but_registry_refl|done]. Qed.

Lemma keeps_trans st1 st2 st3 r :
  keeps st1 r st2 → keeps st2 r st3 → keeps st1 r st3.
Proof.
  intros [S12 E12] [S23 E23]. split.
  - by eapply same_but_registry_trans.
  - by rewrite E23.
Qed.

Lemma protected_same st st' r :
  same_but_registry st st' → protected st r → protected st' r.
Proof.
  intros (_ & Hi & Hu & _)%same_but_registry_fields. unfold protected.
  by rewrite Hi, Hu.
Qed.

Lemma bind_output_frame node x st st' r :
  protected st r → bind_output node x st = Some st' → keeps st r st'.
Proof.
  intros Hp [->|(r' & _ & _ & Hu & Hi & ->)]%bind_output_spec.
  - apply keeps_refl.
  - split; [apply same_but_registry_set|].
    assert (r' ≠ r) by (intros ->; destruct Hp; done).
    destruct st; simpl in *. by rewrite lookup_insert_ne.
Qed.

(** A loop whose body keeps the entry of a protected id keeps it. *)
Lemma for_each_keeps {A} (f : A → State Tensor → option (State Tensor))
    (l : list A) st st' r :
  (∀ x a b, protected a r → f x a = Some b → keeps a r b) →
  protected st r → for_each f l st = Some st' → keeps st r st'.
Proof.
  intros Hf Hp.
  apply (for_each_invariant (λ s, keeps st r s)); [|apply keeps_refl].
  intros x a b _ Ha Hb. eapply keeps_trans; [exact Ha|].
  eapply Hf; [|exact Hb]. eapply protected_same; [apply Ha|exact Hp].
Qed.

Lemma bind_outputs_frame node outputs st st' r :
  protected st r → bind_outputs node outputs st = Some st' → keeps st r st'.
Proof.
  unfold bind_outputs. apply for_each_keeps.
  intros x a b. apply bind_output_frame.
Qed.

Lemma run_op_frame node iter st st' r :
  protected st r → run_op node iter st = Some st' → keeps st r st'.
Proof.
  intros Hp [->|[outs H]]%run_op_bind.
  - apply keeps_refl.
  - by eapply bind_outputs_frame.
Qed.

Lemma run_iteration_frame iter st st' r :
  protected st r → run_iteration iter st = Some st' → keeps st r st'.
Proof.
  unfold run_iteration. apply for_each_keeps.
  intros x a b. apply run_op_frame.
Qed.

Lemma run_iterations_frame n st st' r :
  protected st r → run_iterations n st = Some st' → keeps st r st'.
Proof.
  unfold run_iterations. apply for_each_keeps.
  intros x a b. apply run_iteration_frame.
Qed.

(** ** reset_registry *)

Lemma place_same st st' k v :
  same_but_registry st st' → place st' k v = place st k v.
Proof. intros ->. by destruct st. Qed.

Lemma reset_registry_Some st st1 :
  reset_registry st = Some st1 →
  st1 = set_tensor_registry
          (map_imap (place st) (tensor_registry_permanent st)) st.
Proof. unfold reset_registry. case_decide; [|done]. by intros [= <-]. Qed.

Lemma reset_registry_same st st1 :
  reset_registry st = Some st1 → same_but_registry st st1.
Proof.
  intros ->%reset_registry_Some. apply same_but_registry_set.
Qed.

Lemma reset_registry_lookup st st1 k :
  reset_registry st = Some st1 →
  tensor_registry st1 !! k = tensor_registry_permanent st !! k ≫= place st k.
Proof.
  intros ->%reset_registry_Some. destruct st; simpl.
  apply map_lookup_imap.
Qed.

Lemma set_tensor_registry_twice st a b :
  set_tensor_registry a (set_tensor_registry b st) = set_tensor_registry a st.
Proof. by destruct st. Qed.

Lemma permanent_set_tensor_registry st reg :
  tensor_registry_permanent (set_tensor_registry reg st)
  = tensor_registry_permanent st.
Proof. by destruct st. Qed.

(** A reset does not look at the Working Registry. *)
Lemma reset_registry_any st st1 reg :
  reset_registry st = Some st1 →
  reset_registry (set_tensor_registry reg st) = Some st1.
Proof.
  unfold reset_registry. case_decide as HF; [|done]. intros [= <-].
  assert (∀ k v, place (set_tensor_registry reg st) k v = place st k v) as Hp.
  { intros k v. apply place_same, same_but_registry_set. }
  rewrite permanent_set_tensor_registry, set_tensor_registry_twice.
  rewrite decide_True.
  - assert (map_imap (place (set_tensor_registry reg st))
                     (tensor_registry_permanent st)
            = map_imap (place st) (tensor_registry_permanent st)) as ->;
      [|done].
    apply map_eq. intros k. rewrite !map_lookup_imap.
    destruct (tensor_registry_permanent st !! k) as [v|]; simpl; [|done].
    apply Hp.
  - intros k v Hk. rewrite Hp. by apply HF.
Qed.

Lemma reset_registry_again st st1 :
  reset_registry st = Some st1 → reset_registry st1 = Some st1.
Proof.
  intros H. pose proof (reset_registry_Some _ _ H) as E.
  rewrite E at 1. by apply reset_registry_any.
Qed.

Lemma reset_n_fixed st st1 n :
  reset_registry st = Some st1 → reset_n (S n) st = Some st1.
Proof.
  intros H. simpl. rewrite H. simpl.
  apply reset_registry_again in H. clear st.
  induction n as [|n IH]; simpl; [done|]. by rewrite H.
Qed.

(** C9. [reset_registry] leaves the Permanent Registry as it is, and the
    Working Registry it builds depends on the Permanent Registry alone:
    it holds, under the same ids, the permanent values moved to their
    device ([place]); whatever the Working Registry held before, and after
    any number of resets in a row, the result is the one of the first
    reset. *)
Theorem reset_registry_idempotent st st1 :
  reset_registry st = Some st1 →
  tensor_registry_permanent st1 = tensor_registry_permanent st ∧
  (∀ k, tensor_registry st1 !! k
        = tensor_registry_permanent st !! k ≫= place st k) ∧
  (∀ reg, reset_registry (set_tensor_registry reg st1) = Some st1) ∧
  (∀ n, reset_n (S n) st = Some st1).
Proof.
  intros H. split_and!.
  - by apply reset_registry_same, same_but_registry_fields in H as (_&_&_&?&_).
  - intros k. by apply reset_registry_lookup.
  - intros reg. eapply reset_registry_any, reset_registry_again, H.
  - intros n. by apply reset_n_fixed.
Qed.

(** ** The execution loop *)

Lemma preprocess_graph_reset root st0 st :
  preprocess_graph root st0 = Some st →
  ∃ sa, reset_registry sa = Some st.
Proof.
  unfold preprocess_graph. intros H.
  destruct (extract_subgraph root _) as [s1|]; simpl in H; [|done].
  destruct (analyze_tensors s1) as [s2|]; simpl in H; [|done].
  destruct (generator s2); [done|].
  destruct (allocate_tensors s2) as [s3|]; simpl in H; [|done].
  by exists s3.
Qed.

(** After [preprocess_graph] the Working Registry is the Permanent Registry
    moved to the devices. *)
Lemma preprocess_graph_baseline root st0 st k :
  preprocess_graph root st0 = Some st →
  tensor_registry st !! k = tensor_registry_permanent st !! k ≫= place st k.
Proof.
  intros [sa H]%preprocess_graph_reset.
  rewrite (reset_registry_lookup _ _ k H).
  pose proof (reset_registry_same _ _ H) as Hs.
  apply same_but_registry_fields in Hs as Hf. destruct Hf as (_&_&_&->&_).
  destruct (tensor_registry_permanent sa !! k) as [v|]; simpl; [|done].
  symmetry. by apply place_same.
Qed.


(** C4. The output binding writes the Working Registry at the id of a
    tracked output that is neither unchangeable-intermediate nor
    must-instantiate, and nowhere else; so the entry of an id flagged either
    way is the same after the binding of an output, and after any number of
    iterations of the execution loop. *)
Theorem protected_entry_kept node x n st st1 st2 r :
  protected st r →
  bind_output node x st = Some st1 →
  run_iterations n st = Some st2 →
  (∀ r', tracked st (key_of st x.1.1.2) = true →
         tensors_mapping st !! (id node, key_of st x.1.1.2, false) = Some r' →
         tensor_registry st1
         = if decide (protected st r') then tensor_registry st
           else <[r' := x.2]> (tensor_registry st)) ∧
  (tracked st (key_of st x.1.1.2) = false → st1 = st) ∧
  tensor_registry st1 !! r = tensor_registry st !! r ∧
  tensor_registry st2 !! r = tensor_registry st !! r.
Proof.
  intros Hp Hb Hrun. split_and!.
  - intros r' Ht Hm. revert Hb.
    destruct x as [[[ty t_id] shp] output]. unfold bind_output. simpl in *.
    rewrite Ht, Hm. simpl. unfold protected.
    destruct (decide (r' ∉ unchangeable_intermediate_tensors st)) as [Hu|Hu];
      [destruct (decide (r' ∉ instantiate st)) as [Hi|Hi]|];
      intros [= <-].
    + rewrite decide_False by tauto. by destruct st.
    + rewrite decide_True; [done|]. right. by apply dec_stable.
    + rewrite decide_True; [done|]. left. by apply dec_stable.
  - intros Ht. revert Hb.
    destruct x as [[[ty t_id] shp] output]. unfold bind_output. simpl in *.
    rewrite Ht. by intros [= <-].
  - by apply (bind_output_frame _ _ _ _ _ Hp) in Hb as [_ ?].
  - by apply (run_iterations_frame _ _ _ _ Hp) in Hrun as [_ ?].
Qed.

(** C5. A must-instantiate id keeps the value the Allocator seeded: after
    any number of iterations its Working Registry entry is its Permanent
    Registry entry moved to its device, also when operators produce outputs
    bound to it and it is not flagged unchangeable-intermediate. *)
Theorem seeded_entry_not_overwritten root st0 st n st' r :
  preprocess_graph root st0 = Some st →
  r ∈ instantiate st →
  run_iterations n st = Some st' →
  tensor_registry st' !! r = tensor_registry_permanent st !! r ≫= place st r.
Proof.
  intros Hpre Hr Hrun.
  rewrite <- (preprocess_graph_baseline _ _ _ r Hpre).
  eapply run_iterations_frame; [|exact Hrun]. by right.
Qed.


(** ** The flattener *)

(** Induction on the trace tree. *)
Fixpoint Node_tree_ind (P : Node → Prop)
    (step : ∀ n, Forall P (children n) → P n) (n : Node) : P n :=
  step n
    ((fix go (cs : list Node) : Forall P cs :=
        match cs with
        | [] => Forall_nil_2 P
        | c :: cs' => Forall_cons_2 P c cs' (Node_tree_ind P step c) (go cs')
        end) (children n)).

Lemma dfs_traverse_children root st :
  _dfs_traverse root st = dfs_children (children root) st.
Proof.
  destruct root as [i nm cs ins ity ish outs oty osh]. simpl.
  revert st. induction cs as [|c cs IH]; intros st; simpl; [done|].
  destruct (existsb _ _); [apply IH|].
  destruct (is_qualified c).
  - destruct (build_func c _) as [[[f oc] s1]|]; simpl; [apply IH|done].
  - destruct (_dfs_traverse c _) as [s1|]; simpl; [apply IH|done].
Qed.

Lemma selected_children names root :
  selected names root
  = flat_map (λ child,
                if existsb (λ x, contains x (name child)) names then []
                else if is_qualified child then [child]
                else selected names child)
             (children root).
Proof. by destruct root. Qed.

Lemma traversal_summary_refl st : traversal_summary [] st st.
Proof.
  split_and!; [by rewrite app_nil_r|done| |done|].
  - exists []. split_and!; [by rewrite app_nil_r|simpl; lia|].
    by intros n ?%elem_of_nil.
  - by intros _ n ?%elem_of_nil.
Qed.

Lemma traversal_summary_record_skip nm st :
  traversal_summary [] st (record_skip nm st).
Proof.
  split_and!; [destruct st; simpl; by rewrite app_nil_r|by destruct st|
               |by destruct st|].
  - exists [nm]. split_and!; [by destruct st|by destruct st|].
    by intros n ?%elem_of_nil.
  - by intros _ n ?%elem_of_nil.
Qed.

Lemma traversal_summary_trans sel1 sel2 st1 st2 st3 :
  traversal_summary sel1 st1 st2 → traversal_summary sel2 st2 st3 →
  traversal_summary (sel1 ++ sel2) st1 st3.
Proof.
  intros (Hs1 & Hn1 & (e1 & Ha1 & Hc1 & He1) & Hf1 & Hu1)
         (Hs2 & Hn2 & (e2 & Ha2 & Hc2 & He2) & Hf2 & Hu2).
  split_and!.
  - by rewrite Hs2, Hs1, app_assoc.
  - by rewrite Hn2.
  - exists (e1 ++ e2). split_and!.
    + by rewrite Ha2, Ha1, app_assoc.
    + rewrite Hc2, Hc1, length_app. lia.
    + intros n [Hn|Hn]%elem_of_app Hun; apply elem_of_app; eauto.
  - intros i Hi. rewrite fmap_app in Hi.
    rewrite Hf2, Hf1; [done|..]; intros ?; apply Hi, elem_of_app; eauto.
  - rewrite fmap_app. intros (N1 & Hdisj & N2)%NoDup_app n Hn Hun.
    apply elem_of_app in Hn as [Hn|Hn].
    + rewrite Hf2; [by apply Hu1|].
      apply Hdisj. by apply list_elem_of_fmap_2.
    + by apply Hu2.
Qed.

Lemma count_dependencies_eq child st :
  count_dependencies child st
  = set_dependency_permanent
      (dependency_permanent (count_dependencies child st)) st.
Proof.
  unfold count_dependencies.
  generalize (get_input_tensors child). intros l. revert st.
  induction l as [|[[ty t] shp] l IH]; intros st; simpl; [by destruct st|].
  rewrite IH at 1. by destruct st.
Qed.

Lemma build_func_spec c st f oc s1 :
  build_func c st = Some (f, oc, s1) →
  sorted_nodes s1 = sorted_nodes st ∧
  skip_node_names s1 = skip_node_names st ∧
  funcs s1 = funcs st ∧
  ∃ extra,
    actual_skip_nodes s1 = actual_skip_nodes st ++ extra ∧
    actual_skip_nodes_cnt s1
    = actual_skip_nodes_cnt st + Z.of_nat (length extra) ∧
    (unresolved c →
       extra = [name c] ∧ f = None ∧ oc = (build_torchscript_func c).2).
Proof.
  unfold build_func, unresolved.
  destruct (is_fbgemm_forward c) eqn:Ef.
  { destruct (build_fbgemm_func c (cuda st)) as [[fw bw] n]. intros [= <- <- <-].
    split_and!; [by destruct st..|]. exists [].
    split_and!; [destruct st; simpl; by rewrite app_nil_r
                |destruct st; simpl; lia|by intros [? _]]. }
  destruct (is_fbgemm_backward c) eqn:Eb.
  { destruct (last (fbgemm_backward_ops st)) as [[bw fid]|]; [|done].
    intros [= <- <- <-].
    split_and!; [by destruct st..|]. exists [].
    split_and!; [destruct st; simpl; by rewrite app_nil_r
                |destruct st; simpl; lia|by intros (_ & ? & _)]. }
  destruct (build_torchscript_func c) as [[g|] n]; intros [= <- <- <-].
  - split_and!; [done..|]. exists [].
    split_and!; [by rewrite app_nil_r|simpl; lia|by intros (_ & _ & ?)].
  - split_and!; [by destruct st..|]. exists [name c].
    split_and!; [by destruct st|by destruct st|done].
Qed.

(** The step of the traversal at a qualified node. *)
Lemma traversal_summary_qualified c st f oc s1 :
  build_func c
    (count_dependencies c
       (set_sorted_nodes (sorted_nodes st ++ [c]) st)) = Some (f, oc, s1) →
  traversal_summary [c] st
    (set_funcs (<[id c := (f, oc)]> (funcs s1)) s1).
Proof.
  intros (Hs & Hn & Hf & extra & Ha & Hc & Hu)%build_func_spec.
  rewrite count_dependencies_eq in Hs, Hn, Hf, Ha, Hc.
  assert (∀ g, sorted_nodes (set_funcs g s1) = sorted_nodes st ++ [c]) as Hs'.
  { intros g. destruct s1, st; simpl in *. done. }
  split_and!.
  - apply Hs'.
  - destruct s1, st; simpl in *. done.
  - exists extra. split_and!.
    + destruct s1, st; simpl in *. done.
    + destruct s1, st; simpl in *. done.
    + intros n ->%list_elem_of_singleton Hun.
      destruct (Hu Hun) as (-> & _). by left.
  - intros i Hi. simpl in Hi.
    assert (id c ≠ i) by (intros <-; apply Hi; by left).
    destruct s1, st; simpl in *. rewrite lookup_insert_ne by done. by rewrite Hf.
  - intros _ n ->%list_elem_of_singleton Hun.
    destruct (Hu Hun) as (_ & -> & ->).
    destruct s1; simpl. by rewrite lookup_insert_eq.
Qed.

Lemma dfs_children_summary cs :
  Forall (λ c, ∀ st st', _dfs_traverse c st = Some st' →
                 traversal_summary (selected (skip_node_names st) c) st st')
         cs →
  ∀ st st', dfs_children cs st = Some st' →
    traversal_summary
      (flat_map (λ child,
                   if existsb (λ x, contains x (name child))
                        (skip_node_names st) then []
                   else if is_qualified child then [child]
                   else selected (skip_node_names st) child) cs) st st'.
Proof.
  induction 1 as [|c cs Hc _ IH]; intros st st' Hrun; simpl in Hrun.
  { simplify_eq. apply traversal_summary_refl. }
  simpl. destruct (existsb _ (skip_node_names st)) eqn:Eskip.
  - apply IH in Hrun.
    replace (skip_node_names (record_skip (name c) st))
      with (skip_node_names st) in Hrun by (by destruct st).
    apply (traversal_summary_trans [] _ _ _ _
             (traversal_summary_record_skip _ _) Hrun).
  - destruct (is_qualified c) eqn:Eq.
    + destruct (build_func c _) as [[[f oc] s1]|] eqn:Eb; simpl in Hrun;
        [|done].
      pose proof (traversal_summary_qualified _ _ _ _ _ Eb) as Hstep.
      apply IH in Hrun. pose proof Hstep as (_ & Hn & _).
      rewrite Hn in Hrun.
      eapply traversal_summary_trans; [exact Hstep|exact Hrun].
    + destruct (_dfs_traverse c _) as [s1|] eqn:Ec; simpl in Hrun; [|done].
      apply Hc in Ec. apply IH in Hrun.
      assert (traversal_summary []
                st (if skip_op c then record_skip (name c) st else st))
        as Hpre.
      { destruct (skip_op c);
          [apply traversal_summary_record_skip|apply traversal_summary_refl]. }
      pose proof Hpre as (_ & Hn0 & _). pose proof Ec as (_ & Hn1 & _).
      rewrite Hn1, Hn0 in Hrun. rewrite Hn0 in Ec.
      apply (traversal_summary_trans [] _ st _ _ Hpre).
      eapply traversal_summary_trans; [exact Ec|exact Hrun].
Qed.

Lemma dfs_traverse_summary root st st' :
  _dfs_traverse root st = Some st' →
  traversal_summary (selected (skip_node_names st) root) st st'.
Proof.
  revert st st'. induction root as [root IH] using Node_tree_ind.
  intros st st'. rewrite dfs_traverse_children, selected_children.
  by apply dfs_children_summary.
Qed.

(** ** The sort by node id *)

Lemma insert_by_id_perm n l : insert_by_id n l ≡ₚ n :: l.
Proof.
  induction l as [|m l IH]; simpl; [done|].
  case_decide; [done|]. by rewrite IH, Permutation_swap.
Qed.

Lemma sorted_by_id_perm l : sorted_by_id l ≡ₚ l.
Proof.
  induction l as [|n l IH]; simpl; [done|].
  by rewrite insert_by_id_perm, IH.
Qed.

Lemma insert_by_id_sorted n l :
  StronglySorted le_id l → StronglySorted le_id (insert_by_id n l).
Proof.
  induction 1 as [|m l Hl IH Hm]; simpl.
  { repeat constructor. }
  case_decide as Hnm.
  - constructor; [by constructor|].
    constructor; [done|]. eapply Forall_impl; [exact Hm|].
    unfold le_id. intros; simpl in *; lia.
  - constructor; [done|]. rewrite insert_by_id_perm.
    constructor; [unfold le_id; lia|done].
Qed.

Lemma sorted_by_id_sorted l : StronglySorted le_id (sorted_by_id l).
Proof.
  induction l as [|n l IH]; simpl; [constructor|].
  by apply insert_by_id_sorted.
Qed.

Lemma sorted_strict l :
  StronglySorted le_id l → NoDup (id <$> l) → StronglySorted lt_id l.
Proof.
  induction 1 as [|m l Hl IH Hm]; [constructor|].
  rewrite fmap_cons, NoDup_cons. intros [Hnotin Hnd].
  constructor; [by apply IH|].
  rewrite Forall_forall in Hm |- *. intros x Hx.
  assert (id m ≠ id x).
  { intros E. apply Hnotin. rewrite E. by apply list_elem_of_fmap_2. }
  specialize (Hm x Hx). unfold le_id, lt_id in *. lia.
Qed.

Lemma sorted_by_id_strict l :
  NoDup (id <$> l) → StronglySorted lt_id (sorted_by_id l).
Proof.
  intros Hnd. apply sorted_strict; [apply sorted_by_id_sorted|].
  by rewrite sorted_by_id_perm.
Qed.

(** With distinct ids the order of the result does not depend on the order
    in which the nodes were collected. *)
Lemma sorted_by_id_unique l1 l2 :
  NoDup (id <$> l1) → l2 ≡ₚ l1 → sorted_by_id l2 = sorted_by_id l1.
Proof.
  intros Hnd Hp.
  apply (StronglySorted_unique_strong lt_id).
  - unfold lt_id. intros; lia.
  - apply sorted_by_id_strict. by rewrite Hp.
  - by apply sorted_by_id_strict.
  - by rewrite !sorted_by_id_perm.
Qed.

Lemma extract_subgraph_sorted_nodes root st st' :
  extract_subgraph root st = Some st' →
  sorted_nodes st'
  = sorted_by_id (sorted_nodes st ++ selected (skip_node_names st) root).
Proof.
  unfold extract_subgraph. intros H.
  destruct (_dfs_traverse root st) as [s1|] eqn:E; simpl in H; [|done].
  apply dfs_traverse_summary in E as (Hs & _). simplify_eq.
  rewrite <- Hs. by destruct s1.
Qed.

(** Ascending order holds whatever the ids are. *)
Lemma extract_subgraph_ascending root st st' :
  extract_subgraph root st = Some st' →
  StronglySorted Z.le (id <$> sorted_nodes st').
Proof.
  intros ->%extract_subgraph_sorted_nodes.
  eapply StronglySorted_fmap; [|apply sorted_by_id_sorted]. done.
Qed.

(** C7. When the selected nodes of the trace have pairwise distinct ids,
    [sorted_nodes] after [extract_subgraph] on a fresh manager lists them by
    strictly increasing id; the list is a function of the trace and of the
    skip list alone, so a second run on the same trace gives the same list,
    and it does not depend on the order in which the traversal met the
    nodes. *)
Theorem sorted_nodes_increasing root st st' :
  extract_subgraph root st = Some st' →
  sorted_nodes st = [] →
  NoDup (id <$> selected (skip_node_names st) root) →
  StronglySorted Z.lt (id <$> sorted_nodes st') ∧
  sorted_nodes st' ≡ₚ selected (skip_node_names st) root ∧
  (∀ l, l ≡ₚ selected (skip_node_names st) root →
        sorted_by_id l = sorted_nodes st') ∧
  (∀ st2 st2', extract_subgraph root st2 = Some st2' →
               sorted_nodes st2 = [] →
               skip_node_names st2 = skip_node_names st →
               sorted_nodes st2' = sorted_nodes st').
Proof.
  intros Hrun Hnil Hnd.
  apply extract_subgraph_sorted_nodes in Hrun. rewrite Hnil in Hrun.
  simpl in Hrun. rewrite Hrun. split_and!.
  - eapply StronglySorted_fmap; [|by apply sorted_by_id_strict]. done.
  - apply sorted_by_id_perm.
  - intros l Hl. by apply sorted_by_id_unique.
  - intros st2 st2' H2 Hnil2 Hn2.
    apply extract_subgraph_sorted_nodes in H2.
    by rewrite H2, Hnil2, Hn2.
Qed.


(** C2. A selected node whose operator is not resolved is recorded as
    skipped (its name is appended to [actual_skip_nodes] and counted in
    [actual_skip_nodes_cnt]) and the flattening goes on; the node stays in
    [sorted_nodes], [funcs] holds no callable for it, and [run_op] returns
    for it at once, leaving the state as it is. *)
Theorem unresolved_node_skipped_at_run root st st' n :
  extract_subgraph root st = Some st' →
  n ∈ selected (skip_node_names st) root →
  unresolved n →
  NoDup (id <$> selected (skip_node_names st) root) →
  (∀ s, build_func n s
        = Some (None, (build_torchscript_func n).2, record_skip (name n) s)) ∧
  (∃ extra,
     actual_skip_nodes st' = actual_skip_nodes st ++ extra ∧
     actual_skip_nodes_cnt st'
     = actual_skip_nodes_cnt st + Z.of_nat (length extra) ∧
     name n ∈ extra) ∧
  n ∈ sorted_nodes st' ∧
  funcs st' !! id n = Some (None, (build_torchscript_func n).2) ∧
  (∀ iter s, funcs s = funcs st' → run_op n iter s = Some s).
Proof.
  intros Hrun Hn Hun Hnd.
  pose proof (extract_subgraph_sorted_nodes _ _ _ Hrun) as Hsorted.
  unfold extract_subgraph in Hrun.
  destruct (_dfs_traverse root st) as [s1|] eqn:E; simpl in Hrun; [|done].
  apply dfs_traverse_summary in E
    as (_ & _ & (extra & Ha & Hc & He) & _ & Hf).
  injection Hrun as <-.
  assert (funcs (set_sorted_nodes (sorted_by_id (sorted_nodes s1)) s1) !! id n
          = Some (None, (build_torchscript_func n).2)) as Hfn.
  { replace (funcs (set_sorted_nodes (sorted_by_id (sorted_nodes s1)) s1))
      with (funcs s1) by (by destruct s1). by apply Hf. }
  split_and!.
  - intros s. unfold build_func. destruct Hun as (-> & -> & Hnone).
    destruct (build_torchscript_func n) as [[g|] oc]; simpl in *; done.
  - exists extra. split_and!; [by destruct s1..|by apply He].
  - rewrite Hsorted, sorted_by_id_perm. apply elem_of_app. by right.
  - exact Hfn.
  - intros iter s Hs. unfold run_op. by rewrite Hs, Hfn.
Qed.

(** ** The Allocator *)

Lemma same_but_allocation_refl st : same_but_allocation st st.
Proof. by destruct st. Qed.

Lemma same_but_allocation_trans st1 st2 st3 :
  same_but_allocation st1 st2 → same_but_allocation st2 st3 →
  same_but_allocation st1 st3.
Proof.
  unfold same_but_allocation. intros H12 H23. rewrite H23 at 1.
  rewrite H12. by destruct st1.
Qed.

Lemma same_but_allocation_fields st st' :
  same_but_allocation st st' →
  sorted_nodes st' = sorted_nodes st ∧
  tensors_mapping st' = tensors_mapping st ∧
  (∀ t, key_of st' t = key_of st t) ∧
  (∀ t, tracked st' t = tracked st t) ∧
  instantiate st' = instantiate st.
Proof. intros ->. by destruct st. Qed.

(** What [allocate_input] does for an input whose replay id is [r]: either
    nothing, or it writes the Permanent Registry at [r] and flags at most
    [r], and this only at a node of a specialized family. *)
Lemma allocate_input_spec node input_args idx ty t_id shp st st' :
  allocate_input node input_args (idx, (ty, t_id, shp)) st = Some st' →
  same_but_allocation st st' ∧
  ∃ r, tensors_mapping st !! (id node, key_of st t_id, true) = Some r ∧
       (unchangeable_intermediate_tensors st'
        = unchangeable_intermediate_tensors st
        ∨ (specialized node ∧
           unchangeable_intermediate_tensors st'
           = {[r]} ∪ unchangeable_intermediate_tensors st)).
Proof.
  unfold allocate_input.
  destruct (tensors_mapping st !! _) as [r|] eqn:Hr; simpl; [|done].
  intros H.
  assert (∀ s, same_but_allocation st s →
            (unchangeable_intermediate_tensors s
             = unchangeable_intermediate_tensors st
             ∨ (specialized node ∧
                unchangeable_intermediate_tensors s
                = {[r]} ∪ unchangeable_intermediate_tensors st)) →
            Some s = Some st' →
            same_but_allocation st st' ∧
            ∃ r0, Some r = Some r0 ∧
              (unchangeable_intermediate_tensors st'
               = unchangeable_intermediate_tensors st
               ∨ (specialized node ∧
                  unchangeable_intermediate_tensors st'
                  = {[r0]} ∪ unchangeable_intermediate_tensors st))) as Hfin.
  { intros s ? ? [= <-]. eauto. }
  destruct (_ && _ && _); [|apply (Hfin st); [apply same_but_allocation_refl|by left|done]].
  destruct (is_fbgemm_forward node).
  - destruct (input_args !! idx) as [v|]; simpl in H; [|done].
    destruct (is_split_embedding node) eqn:Es; (eapply Hfin; [| |exact H]).
    + by destruct st.
    + right. split; [by right|by destruct st].
    + by destruct st.
    + left. by destruct st.
  - destruct (TORCH_DTYPES_RNG _) as [rng|].
    + destruct (is_embedding_bag node) eqn:Ee;
        destruct (_ && _); (eapply Hfin; [| |exact H]);
        try (by destruct st);
        try (left; by destruct st);
        right; (split; [by left|by destruct st]).
    + eapply Hfin; [| |exact H]; [by destruct st|left; by destruct st].
Qed.

Lemma allocate_input_flags node input_args idx ty t_id shp st st' r :
  allocate_input node input_args (idx, (ty, t_id, shp)) st = Some st' →
  tensors_mapping st !! (id node, key_of st t_id, true) = Some r →
  tracked st (key_of st t_id) = true →
  tensor_registry_permanent st !! r = None →
  (is_fbgemm_forward node = true → is_split_embedding node = true →
   r ∈ unchangeable_intermediate_tensors st') ∧
  (is_fbgemm_forward node = false → is_embedding_bag node = true →
   is_Some (TORCH_DTYPES_RNG (rstrip ")" (lstrip "Tensor(" ty))) →
   r ∈ unchangeable_intermediate_tensors st').
Proof.
  unfold allocate_input. intros H Hr Ht Hnone. rewrite Hr in H. simpl in H.
  rewrite Ht, (bool_decide_eq_true_2 _ Hnone) in H. simpl in H. split.
  - intros Ef Es. rewrite Ef, Es, orb_true_r in H. simpl in H.
    destruct (input_args !! idx) as [v|]; simpl in H; [|done].
    injection H as <-. destruct st; simpl. set_solver.
  - intros Ef Ee [rng Hrng]. rewrite Ef, Ee, Hrng in H. simpl in H.
    destruct (_ && _); injection H as <-; destruct st; simpl; set_solver.
Qed.

Lemma set_offset_same node a b i st st' :
  set_offset node a b i st = Some st' →
  same_but_allocation st st' ∧
  unchangeable_intermediate_tensors st' = unchangeable_intermediate_tensors st.
Proof.
  unfold set_offset. intros H.
  destruct (inputs node !! 2%nat) as [it|]; simpl in H; [|done].
  destruct (match it with ITensor t => _ | _ => None end) as [t|];
    simpl in H; [|done].
  destruct (tensors_mapping st !! _) as [r|]; simpl in H; [|done].
  destruct (tensor_registry_permanent st !! r) as [[| t0 | | | | | |]|];
    simpl in H; try done.
  destruct (tensor_setitem t0 i a b) as [t'|]; simpl in H; [|done].
  injection H as <-. by destruct st.
Qed.

Lemma embedding_bag_offsets_same node st st' :
  embedding_bag_offsets node st = Some st' →
  same_but_allocation st st' ∧
  unchangeable_intermediate_tensors st' = unchangeable_intermediate_tensors st.
Proof.
  unfold embedding_bag_offsets.
  destruct (is_embedding_bag node);
    [|intros [= <-]; split; [apply same_but_allocation_refl|done]].
  destruct (input_shapes node !! 1%nat ≫= _) as [a|]; simpl; [|done].
  destruct (input_shapes node !! 2%nat ≫= _) as [b|]; simpl; [|done].
  case_decide; [done|].
  apply (for_each_invariant
           (λ s, same_but_allocation st s ∧
                 unchangeable_intermediate_tensors s
                 = unchangeable_intermediate_tensors st)).
  - intros i s1 s2 _ [Hs Hu] [Hs' Hu']%set_offset_same. split.
    + by eapply same_but_allocation_trans.
    + by rewrite Hu'.
  - split; [apply same_but_allocation_refl|done].
Qed.

Lemma allocate_node_flagged nodes node st s s' :
  node ∈ nodes →
  flagged_inputs nodes st s → allocate_node node s = Some s' →
  flagged_inputs nodes st s'.
Proof.
  intros Hnode Hs. unfold allocate_node.
  destruct (for_each _ _ s) as [s1|] eqn:E; simpl; [|done].
  intros [Hs' Hu']%embedding_bag_offsets_same.
  cut (flagged_inputs nodes st s1).
  { intros [Ha Hb]. split; [by eapply same_but_allocation_trans|].
    intros r. rewrite Hu'. apply Hb. }
  revert E. apply for_each_invariant; [|exact Hs].
  intros [idx [[ty t_id] shp]] a b Hx [Ha Hfl] Hstep.
  apply elem_of_lookup_imap in Hx as (i & x & Hx & Hi). simplify_eq.
  apply allocate_input_spec in Hstep as (Hab & r & Hr & Hu).
  split; [by eapply same_but_allocation_trans|].
  apply same_but_allocation_fields in Ha as (_ & Hm & Hk & _).
  rewrite Hm, Hk in Hr.
  intros r'. destruct Hu as [->|[Hspec ->]]; [apply Hfl|].
  intros [->%elem_of_singleton|?]%elem_of_union; [|by apply Hfl].
  right. exists node, (ty, t_id, shp). split_and!; [done..| |done].
  by eapply list_elem_of_lookup_2.
Qed.

(** C8. The Allocator flags unchangeable-intermediate ids of inputs, not of
    outputs: every id it flags is the replay id of an input tensor of a node
    named [aten::embedding_bag] or containing
    [fbgemm::split_embedding_codegen_lookup]; and when it reaches a tracked
    input of such a node whose id has no Permanent Registry entry yet, it
    flags the id, for an fbgemm forward node of the second family and for
    an [aten::embedding_bag] node whose dtype resolves. *)
Theorem specialized_inputs_flagged st st' :
  allocate_tensors st = Some st' →
  (∀ r, r ∈ unchangeable_intermediate_tensors st' →
        r ∈ unchangeable_intermediate_tensors st ∨
        ∃ node x, node ∈ sorted_nodes st ∧ specialized node ∧
                  x ∈ get_input_tensors node ∧
                  tensors_mapping st !! (id node, key_of st x.1.2, true)
                  = Some r) ∧
  (∀ node input_args idx ty t_id shp s s' r,
     allocate_input node input_args (idx, (ty, t_id, shp)) s = Some s' →
     tensors_mapping s !! (id node, key_of s t_id, true) = Some r →
     tracked s (key_of s t_id) = true →
     tensor_registry_permanent s !! r = None →
     (is_fbgemm_forward node = true → is_split_embedding node = true →
      r ∈ unchangeable_intermediate_tensors s') ∧
     (is_fbgemm_forward node = false → is_embedding_bag node = true →
      is_Some (TORCH_DTYPES_RNG (rstrip ")" (lstrip "Tensor(" ty))) →
      r ∈ unchangeable_intermediate_tensors s')).
Proof.
  intros Hrun. split.
  - cut (flagged_inputs (sorted_nodes st) st st'); [by intros [_ ?]|].
    revert Hrun. unfold allocate_tensors. apply for_each_invariant.
    + intros node a b Hnode Ha Hstep. by eapply allocate_node_flagged.
    + split; [apply same_but_allocation_refl|by left].
  - intros. by eapply allocate_input_flags.
Qed.

(** ** The identity resolver *)

Lemma no_tensors_inv st : no_tensors st → resolver_inv st.
Proof.
  intros [_ Hts].
  assert (∀ k, shapes_of st k = ∅) as He.
  { intros k. unfold shapes_of. by rewrite Hts, lookup_empty. }
  split; intros *; rewrite ?He; set_solver.
Qed.

Lemma find_shape_Some st k s r s' :
  find_shape st k s = Some (r, s') → (r, s) ∈ shapes_of st k ∧ s' = s.
Proof.
  unfold find_shape, shapes_of.
  destruct (list_find _ _) as [[i [r0 s0]]|] eqn:E; simpl; [|done].
  intros [= -> ->]. apply list_find_Some in E as (Hi & Hs & _). simpl in Hs.
  subst. split; [|done]. apply elem_of_elements.
  by eapply list_elem_of_lookup_2.
Qed.

Lemma find_shape_None st k s r :
  find_shape st k s = None → (r, s) ∉ shapes_of st k.
Proof.
  unfold find_shape, shapes_of.
  destruct (list_find _ _) as [[i [r0 s0]]|] eqn:E; simpl; [done|].
  intros _ Hin. apply elem_of_elements in Hin.
  rewrite list_find_None, Forall_forall in E. by apply (E _ Hin).
Qed.

Lemma mint_fields node_id t_id shp input device st st' :
  st' = mint node_id t_id shp input device st →
  tensors_mapping st' !! (node_id, t_id, input)
  = Some (replay_unique_tensor_num st + 1) ∧
  replay_unique_tensor_num st' = replay_unique_tensor_num st + 1 ∧
  shapes_of st' t_id
  = {[(replay_unique_tensor_num st + 1, shp)]} ∪ shapes_of st t_id ∧
  (∀ k, k ≠ t_id → shapes_of st' k = shapes_of st k) ∧
  original_unique_tensors st' = original_unique_tensors st.
Proof.
  intros ->. unfold mint, shapes_of. destruct st; simpl.
  destruct tensor_with_device0; simpl;
    (split_and!;
     [by rewrite lookup_insert_eq|done|by rewrite lookup_insert_eq
     |by intros k ?; rewrite lookup_insert_ne|done]).
Qed.

Lemma do_call_cases c st :
  resolver_inv st → reuses c st (do_call c st) ∨ mints c st (do_call c st).
Proof.
  intros Hinv. unfold reuses, mints, assigned, do_call, add_unique_tensor.
  destruct c as [n k s input dev]. simpl.
  destruct (decide (k ∉ original_unique_tensors st)) as [Hnew|Hold].
  - right.
    pose proof (mint_fields n k s input dev
                  (set_original_unique_tensors
                     ({[k]} ∪ original_unique_tensors st) st) _ eq_refl)
      as (Hm & Hn & Hk & Ho & Hor).
    replace (replay_unique_tensor_num (set_original_unique_tensors _ st))
      with (replay_unique_tensor_num st) in * by (by destruct st).
    assert (∀ k', shapes_of (set_original_unique_tensors
                               ({[k]} ∪ original_unique_tensors st) st) k'
                  = shapes_of st k') as Hsh by (intros; by destruct st).
    rewrite Hm. simpl. rewrite Hsh in Hk.
    split_and!; [|done|done|done| | |].
    + intros r Hr. apply Hnew. by eapply inv_seen.
    + intros k' Hk'. by rewrite Ho, Hsh.
    + rewrite Hor. clear. destruct st; simpl. set_solver.
    + rewrite Hor. clear. destruct st; simpl. set_solver.
  - apply dec_stable in Hold.
    destruct (find_shape st k s) as [[r s']|] eqn:Ef.
    + left. apply find_shape_Some in Ef as [Hin ->].
      replace (tensors_mapping (set_tensors_mapping _ st) !! (n, k, input))
        with (Some r) by (destruct st; simpl; by rewrite lookup_insert_eq).
      simpl. split_and!; [done|intros; by destruct st|by destruct st..].
    + right.
      pose proof (mint_fields n k s input dev st _ eq_refl)
        as (Hm & Hn & Hk & Ho & Hor).
      rewrite Hm. simpl.
      split_and!; [|done|done|done|done| |].
      * intros r. by apply find_shape_None.
      * by rewrite Hor.
      * by rewrite Hor.
Qed.

Lemma assigned_lookup c st :
  tensors_mapping (do_call c st) !! (c_node c, c_key c, c_input c)
  = Some (assigned c st).
Proof.
  unfold assigned, do_call, add_unique_tensor.
  destruct (decide _).
  - by rewrite (proj1 (mint_fields _ _ _ _ _ _ _ eq_refl)).
  - destruct (find_shape _ _ _) as [[r s']|].
    + destruct st; simpl. by rewrite lookup_insert_eq.
    + by rewrite (proj1 (mint_fields _ _ _ _ _ _ _ eq_refl)).
Qed.

Lemma do_call_inv c st : resolver_inv st → resolver_inv (do_call c st).
Proof.
  intros Hinv.
  destruct (do_call_cases c st Hinv) as [(_ & Hsh & Hn & Ho)|Hm].
  { split; intros *; rewrite ?Hsh, ?Hn, ?Ho; apply Hinv. }
  destruct Hm as (Hfresh & Hr & Hn & Hk & Hother & Hseen & Hsub).
  assert (∀ k r s, (r, s) ∈ shapes_of (do_call c st) k →
            (k = c_key c ∧ r = replay_unique_tensor_num st + 1
             ∧ s = c_shape c)
            ∨ (r, s) ∈ shapes_of st k) as Hsplit.
  { intros k r s. destruct (decide (k = c_key c)) as [->|Hne].
    - rewrite Hk, Hr. intros [[= -> ->]%elem_of_singleton|?]%elem_of_union;
        [by left|by right].
    - rewrite Hother by done. by right. }
  split.
  - intros k r s [(-> & _)|Hold]%Hsplit; [done|].
    apply Hsub. by eapply inv_seen.
  - intros k r s [(_ & -> & _)|Hold]%Hsplit; rewrite Hn; [lia|].
    pose proof (inv_bound _ Hinv _ _ _ Hold). lia.
  - intros k r1 r2 s [(-> & -> & ->)|H1]%Hsplit [(E & -> & Es)|H2]%Hsplit.
    + done.
    + by destruct (Hfresh r2).
    + subst. by destruct (Hfresh r1).
    + by eapply inv_shape.
  - intros k1 k2 r s1 s2
      [(-> & -> & ->)|H1]%Hsplit [(E & Er & Es)|H2]%Hsplit.
    + by subst.
    + pose proof (inv_bound _ Hinv _ _ _ H2). lia.
    + subst. pose proof (inv_bound _ Hinv _ _ _ H1). lia.
    + by eapply inv_id.
Qed.

Lemma do_call_records c st :
  resolver_inv st →
  (assigned c st, c_shape c) ∈ shapes_of (do_call c st) (c_key c) ∧
  (∀ k, shapes_of st k ⊆ shapes_of (do_call c st) k) ∧
  (∀ k r s, (r, s) ∈ shapes_of (do_call c st) k →
     (r, s) ∈ shapes_of st k
     ∨ (r = assigned c st ∧ k = c_key c ∧ s = c_shape c)).
Proof.
  intros Hinv.
  destruct (do_call_cases c st Hinv) as [(Hin & Hsh & _)|Hm].
  { split_and!; [by rewrite Hsh|intros k; by rewrite Hsh|].
    intros k r s. rewrite Hsh. by left. }
  destruct Hm as (_ & _ & _ & Hk & Hother & _).
  split_and!.
  - rewrite Hk. clear. set_solver.
  - intros k. destruct (decide (k = c_key c)) as [->|Hne].
    + rewrite Hk. clear. set_solver.
    + by rewrite Hother.
  - intros k r s. destruct (decide (k = c_key c)) as [->|Hne].
    + rewrite Hk. intros [[= -> ->]%elem_of_singleton|?]%elem_of_union;
        [by right|by left].
    + rewrite Hother by done. by left.
Qed.

(** The pairs recorded after a sequence of calls are the pairs of an id
    assigned and the shape of its call. *)
Lemma resolve_all_spec cs st ids st' :
  resolver_inv st → resolve_all cs st = (ids, st') →
  resolver_inv st' ∧ length ids = length cs ∧
  (∀ k, shapes_of st k ⊆ shapes_of st' k) ∧
  (∀ i c r, cs !! i = Some c → ids !! i = Some r →
            (r, c_shape c) ∈ shapes_of st' (c_key c)) ∧
  (∀ k r s, (r, s) ∈ shapes_of st' k →
            (r, s) ∈ shapes_of st k
            ∨ ∃ i c, cs !! i = Some c ∧ ids !! i = Some r
                     ∧ c_key c = k ∧ c_shape c = s).
Proof.
  revert st ids st'. induction cs as [|c cs IH]; intros st ids st' Hinv; simpl.
  { intros [= <- <-]. split_and!; [done..| |by left]. by intros []. }
  destruct (resolve_all cs (do_call c st)) as [ids1 st1] eqn:E.
  intros [= <- <-].
  destruct (IH _ _ _ (do_call_inv c st Hinv) E) as (Hinv1 & Hlen & Hmono & Hin & Hback).
  destruct (do_call_records c st Hinv) as (Hrec & Hmono0 & Hback0).
  split_and!.
  - done.
  - simpl. by rewrite Hlen.
  - intros k. etrans; [apply Hmono0|apply Hmono].
  - intros [|i] c' r; simpl.
    + intros [= <-] [= <-]. by apply Hmono.
    + apply Hin.
  - intros k r s [Hold|(i & c' & ? & ? & ? & ?)]%Hback.
    + apply Hback0 in Hold as [?|(-> & -> & ->)]; [by left|].
      right. by exists 0%nat, c.
    + right. by exists (S i), c'.
Qed.

(** The size of the image of a set under a map that is injective on it. *)
Lemma size_set_map_inj `{Countable A, Countable B} (f : A → B) (X : gset A) :
  (∀ x y, x ∈ X → y ∈ X → f x = f y → x = y) →
  size (set_map f X : gset B) = size X.
Proof.
  induction X as [|x X Hx IH] using set_ind_L; intros Hinj.
  { by rewrite set_map_empty, !size_empty. }
  rewrite set_map_union_L, set_map_singleton_L.
  rewrite !size_union, !size_singleton, IH; [done| | |].
  - intros y z ? ?. apply Hinj; set_solver.
  - set_solver.
  - intros y ->%elem_of_singleton (z & Hz & Hin)%elem_of_map.
    apply Hinj in Hz; [|set_solver..]. by subst.
Qed.

(** *** The first pass of [analyze_tensors] is a sequence of calls *)

Lemma same_config_refl st : same_config st st.
Proof. done. Qed.

Lemma same_config_trans st1 st2 st3 :
  same_config st1 st2 → same_config st2 st3 → same_config st1 st3.
Proof. intros (?&?&?) (?&?&?). split_and!; congruence. Qed.

Lemma same_config_key st st' t :
  same_config st st' →
  key_of st' t = key_of st t ∧ tracked st' t = tracked st t.
Proof. intros (Hd & Hp & _). unfold key_of, tracked. by rewrite Hd, Hp. Qed.

Lemma do_call_mapping c st :
  same_config st (do_call c st) ∧
  instantiate (do_call c st) = instantiate st ∧
  tensors_mapping (do_call c st)
  = <[(c_node c, c_key c, c_input c) := assigned c st]> (tensors_mapping st).
Proof.
  pose proof (assigned_lookup c st) as Ha. revert Ha.
  generalize (assigned c st). intros r.
  unfold do_call, add_unique_tensor, mint. destruct c as [n k s input dev].
  simpl. destruct st; simpl.
  destruct (decide _); [|destruct (find_shape _ _ _) as [[r0 s0]|]]; simpl;
    try (destruct tensor_with_device0); simpl;
    rewrite lookup_insert_eq; intros [= <-]; done.
Qed.

Lemma resolve_all_app cs1 cs2 st :
  resolve_all (cs1 ++ cs2) st
  = ((resolve_all cs1 st).1 ++ (resolve_all cs2 (resolve_all cs1 st).2).1,
     (resolve_all cs2 (resolve_all cs1 st).2).2).
Proof.
  revert st. induction cs1 as [|c cs1 IH]; intros st; simpl.
  { by destruct (resolve_all cs2 st). }
  rewrite IH. by destruct (resolve_all cs1 (do_call c st)).
Qed.

Lemma resolve_all_config cs st : same_config st (resolve_all cs st).2.
Proof.
  revert st. induction cs as [|c cs IH]; intros st; simpl; [done|].
  specialize (IH (do_call c st)).
  destruct (resolve_all cs (do_call c st)) as [ids s1]. simpl in *.
  eapply same_config_trans; [|exact IH]. apply do_call_mapping.
Qed.

Lemma resolve_tensor_call st node input x s s' :
  same_config st s → resolve_tensor node input x s = Some s' →
  s' = (resolve_all (option_list (tensor_call st node input x)) s).2.
Proof.
  intros Hc. destruct x as [[ty t_id] shp]. unfold resolve_tensor, tensor_call.
  destruct (same_config_key _ _ (key_of st t_id) Hc) as [_ Ht].
  pose proof Hc as (Hd & _). unfold key_of in *. rewrite Hd.
  destruct (tensor_with_device st).
  - destruct (t_id !! 5%nat) as [dev|]; simpl; [|done].
    rewrite Ht. intros [= <-]. by destruct (tracked st _).
  - rewrite Ht. intros [= <-]. by destruct (tracked st _).
Qed.

Lemma resolve_tensors_calls st node input l s s' :
  same_config st s → for_each (resolve_tensor node input) l s = Some s' →
  s' = (resolve_all (omap (tensor_call st node input) l) s).2.
Proof.
  revert s. induction l as [|x l IH]; intros s Hc; simpl.
  { by intros [= <-]. }
  destruct (resolve_tensor node input x s) as [s1|] eqn:E; simpl; [|done].
  intros Hrun. apply (resolve_tensor_call st) in E; [|done].
  assert (same_config st s1) as Hc1.
  { rewrite E. eapply same_config_trans; [exact Hc|apply resolve_all_config]. }
  apply IH in Hrun; [|done]. rewrite Hrun, E.
  destruct (tensor_call st node input x) as [c|]; simpl; [|done].
  by destruct (resolve_all _ (do_call c s)).
Qed.

Lemma first_pass_calls st nodes s s' :
  same_config st s → for_each resolve_node nodes s = Some s' →
  s' = (resolve_all (pass_calls st nodes) s).2.
Proof.
  revert s. induction nodes as [|node nodes IH]; intros s Hc Hrun.
  { simpl in Hrun. by simplify_eq. }
  change (resolve_node node s ≫= for_each resolve_node nodes = Some s')
    in Hrun.
  destruct (resolve_node node s) as [s2|] eqn:E; simpl in Hrun; [|done].
  unfold resolve_node in E.
  destruct (for_each (resolve_tensor node true) (get_input_tensors node) s)
    as [s1|] eqn:E1; simpl in E; [|done].
  apply (resolve_tensors_calls st) in E1; [|done].
  assert (same_config st s1) as Hc1.
  { rewrite E1. eapply same_config_trans; [exact Hc|apply resolve_all_config]. }
  apply (resolve_tensors_calls st) in E; [|done].
  assert (same_config st s2) as Hc2.
  { rewrite E. eapply same_config_trans; [exact Hc1|apply resolve_all_config]. }
  apply IH in Hrun; [|done].
  unfold pass_calls in *. rewrite bind_cons. unfold node_calls at 1.
  rewrite !resolve_all_app. simpl. by rewrite <- E1, <- E.
Qed.

(** *** One Replay Tensor per key and shape *)

Lemma elem_of_shapes_seen cs k s :
  s ∈ shapes_seen cs k ↔
  ∃ i c, cs !! i = Some c ∧ c_key c = k ∧ c_shape c = s.
Proof.
  unfold shapes_seen. rewrite elem_of_list_to_set, list_elem_of_fmap. split.
  - intros (c & -> & [Hk [i Hi]%list_elem_of_lookup]%list_elem_of_filter).
    by exists i, c.
  - intros (i & c & Hi & Hk & <-). exists c. split; [done|].
    apply list_elem_of_filter. split; [done|]. by eapply list_elem_of_lookup_2.
Qed.

Lemma elem_of_ids_assigned cs ids k r :
  r ∈ ids_assigned cs ids k ↔
  ∃ i c, cs !! i = Some c ∧ ids !! i = Some r ∧ c_key c = k.
Proof.
  unfold ids_assigned. rewrite elem_of_list_to_set, list_elem_of_fmap. split.
  - intros ([c r'] & -> & [Hk Hin]%list_elem_of_filter).
    apply elem_of_lookup_zip_with in Hin as (i & c0 & r0 & [= <- <-] & ? & ?).
    by exists i, c.
  - intros (i & c & Hi & Hr & Hk). exists (c, r). split; [done|].
    apply list_elem_of_filter. split; [done|].
    apply elem_of_lookup_zip_with. by exists i, c, r.
Qed.

(** After a sequence of calls on a manager without tensors, the pairs
    recorded under a key are those of an id assigned under the key and the
    shape of its call. *)
Lemma resolve_all_recorded cs st ids st' :
  no_tensors st → resolve_all cs st = (ids, st') →
  resolver_inv st' ∧ length ids = length cs ∧
  ∀ k r s, (r, s) ∈ shapes_of st' k ↔
           ∃ i c, cs !! i = Some c ∧ ids !! i = Some r
                  ∧ c_key c = k ∧ c_shape c = s.
Proof.
  intros Hno Hrun.
  destruct (resolve_all_spec _ _ _ _ (no_tensors_inv _ Hno) Hrun)
    as (Hinv & Hlen & _ & Hin & Hback).
  split_and!; [done..|]. intros k r s. split.
  - intros [Hold|?]%Hback; [|done].
    destruct Hno as [_ Hts]. unfold shapes_of in Hold.
    rewrite Hts, lookup_empty in Hold. set_solver.
  - intros (i & c & Hi & Hr & <- & <-). by eapply Hin.
Qed.

(** C6. In a sequence of calls of [add_unique_tensor] on a manager without
    tensors: a call whose shape was seen before under its key is assigned
    the id of the earlier call; a call whose shape was not seen before under
    its key is assigned an id that no earlier call was assigned; and for
    every key the number of ids assigned under it, which is the number of
    pairs that [tensor_shapes] records for it, is the number of distinct
    shapes seen under it. *)
Theorem one_replay_tensor_per_shape cs st ids st' :
  no_tensors st → resolve_all cs st = (ids, st') →
  (∀ i j ci cj rj, (i < j)%nat →
     cs !! i = Some ci → cs !! j = Some cj → ids !! j = Some rj →
     c_key ci = c_key cj → c_shape ci = c_shape cj →
     ids !! i = Some rj) ∧
  (∀ j cj rj, cs !! j = Some cj → ids !! j = Some rj →
     (∀ i ci, (i < j)%nat → cs !! i = Some ci →
              c_key ci = c_key cj → c_shape ci ≠ c_shape cj) →
     ∀ i, (i < j)%nat → ids !! i ≠ Some rj) ∧
  (∀ k, size (ids_assigned cs ids k) = size (shapes_seen cs k) ∧
        size (shapes_of st' k) = size (shapes_seen cs k)).
Proof.
  intros Hno Hrun.
  destruct (resolve_all_recorded _ _ _ _ Hno Hrun) as (Hinv & Hlen & Hrec).
  assert (∀ i c, cs !! i = Some c → ∃ r, ids !! i = Some r) as Hsome.
  { intros i c Hi. apply lookup_lt_is_Some. rewrite Hlen.
    by eapply lookup_lt_Some. }
  split_and!.
  - intros i j ci cj rj _ Hi Hj Hrj Hk Hs.
    destruct (Hsome _ _ Hi) as [ri Hri]. rewrite Hri. f_equal.
    eapply (inv_shape _ Hinv (c_key cj) _ _ (c_shape cj)); apply Hrec.
    + by exists i, ci.
    + by exists j, cj.
  - intros j cj rj Hj Hrj Hnew i Hij Hri.
    assert (is_Some (cs !! i)) as [ci Hi].
    { apply lookup_lt_is_Some. rewrite <- Hlen. by eapply lookup_lt_Some. }
    assert ((rj, c_shape ci) ∈ shapes_of st' (c_key ci)) as H1
      by (apply Hrec; by exists i, ci).
    assert ((rj, c_shape cj) ∈ shapes_of st' (c_key cj)) as H2
      by (apply Hrec; by exists j, cj).
    destruct (inv_id _ Hinv _ _ _ _ _ H1 H2) as [Hk Hs].
    by eapply Hnew.
  - intros k.
    assert (size (shapes_of st' k) = size (shapes_seen cs k)) as Hsz.
    { rewrite <- (size_set_map_inj snd (shapes_of st' k)).
      - f_equal. apply set_eq. intros s.
        rewrite elem_of_map, elem_of_shapes_seen. split.
        + intros ([r s0] & -> & (i & c & ? & ? & ? & ?)%Hrec). by exists i, c.
        + intros (i & c & Hi & Hk & Hs).
          destruct (Hsome _ _ Hi) as [r Hr]. exists (r, s). split; [done|].
          apply Hrec. by exists i, c.
      - intros [r1 s1] [r2 s2] H1 H2 Hs. simpl in Hs. subst. f_equal.
        by eapply inv_shape. }
    split; [|done]. rewrite <- Hsz.
    rewrite <- (size_set_map_inj fst (shapes_of st' k)).
    + f_equal. apply set_eq. intros r.
      rewrite elem_of_map, elem_of_ids_assigned. split.
      * intros (i & c & Hi & Hr & Hk). exists (r, c_shape c). split; [done|].
        apply Hrec. by exists i, c.
      * intros ([r0 s] & -> & (i & c & ? & ? & ? & ?)%Hrec). by exists i, c.
    + intros [r1 s1] [r2 s2] H1 H2 Hr. simpl in Hr. subst. f_equal.
      by eapply inv_id.
Qed.

(** C10. In the first pass of [analyze_tensors] on a manager without
    tensors, an input occurrence and an output occurrence of one key are
    assigned the same Replay Tensor id exactly when their shapes are equal,
    whichever of the two comes first. *)
Theorem replay_ids_shared_across_roles st st1 i j ci cj ri rj :
  no_tensors st →
  for_each resolve_node (sorted_nodes st) st = Some st1 →
  pass_calls st (sorted_nodes st) !! i = Some ci →
  pass_calls st (sorted_nodes st) !! j = Some cj →
  (resolve_all (pass_calls st (sorted_nodes st)) st).1 !! i = Some ri →
  (resolve_all (pass_calls st (sorted_nodes st)) st).1 !! j = Some rj →
  c_key ci = c_key cj → c_input ci = true → c_input cj = false →
  st1 = (resolve_all (pass_calls st (sorted_nodes st)) st).2 ∧
  (c_shape ci = c_shape cj ↔ ri = rj).
Proof.
  intros Hno Hpass Hi Hj Hri Hrj Hk _ _.
  split; [by apply first_pass_calls|].
  destruct (resolve_all (pass_calls st (sorted_nodes st)) st) as [ids s'] eqn:E.
  destruct (resolve_all_recorded _ _ _ _ Hno E) as (Hinv & Hlen & Hrec).
  simpl in *.
  assert ((ri, c_shape ci) ∈ shapes_of s' (c_key cj)) as H1
    by (apply Hrec; by exists i, ci).
  assert ((rj, c_shape cj) ∈ shapes_of s' (c_key cj)) as H2
    by (apply Hrec; by exists j, cj).
  split.
  - intros Hs. rewrite Hs in H1. by eapply inv_shape.
  - intros Hr. rewrite Hr in H1. by eapply inv_id.
Qed.

(** ** The lifetime analyzer *)

(** A loop whose body moves the state up in a preorder and establishes, for
    the element it visits, a property that moving up preserves. *)
Lemma for_each_visits {A S} (f : A → S → option S) (le : relation S)
    (Q : A → S → Prop) (l : list A) (s s' : S) :
  Reflexive le → Transitive le →
  (∀ x a b, x ∈ l → f x a = Some b → le a b ∧ Q x b) →
  (∀ x a b, Q x a → le a b → Q x b) →
  for_each f l s = Some s' → le s s' ∧ ∀ x, x ∈ l → Q x s'.
Proof.
  intros Hrefl Htrans Hstep Hmono. revert s.
  induction l as [|x l IH]; intros s Hrun; simpl in Hrun.
  { simplify_eq. split; [done|]. by intros x ?%elem_of_nil. }
  destruct (f x s) as [s1|] eqn:E; simpl in Hrun; [|done].
  destruct (Hstep x s s1) as [Hle HQ]; [by left|done|].
  destruct (IH (λ y a b Hy, Hstep y a b (list_elem_of_further _ _ _ Hy))
               _ Hrun) as [Hle' HQ'].
  split; [by etrans|].
  intros y [->|Hy]%elem_of_cons; [by eapply Hmono|by apply HQ'].
Qed.

Implicit Types (a b base : gset Z * State Tensor).

#[local] Instance sim_le_refl : Reflexive (@sim_le Tensor).
Proof. intros [o a]. split_and!; [done..|]. by destruct a. Qed.

#[local] Instance sim_le_trans : Transitive (@sim_le Tensor).
Proof.
  intros [o1 a] [o2 b] [o3 c] (H1 & H2 & H3) (H4 & H5 & H6). simpl in *.
  split_and!; [set_solver..|]. simpl. rewrite H6 at 1. rewrite H3.
  by destruct a.
Qed.

Lemma sim_le_fields a b :
  sim_le a b →
  tensors_mapping b.2 = tensors_mapping a.2 ∧
  (∀ t, key_of b.2 t = key_of a.2 t) ∧
  (∀ t, tracked b.2 t = tracked a.2 t) ∧
  sorted_nodes b.2 = sorted_nodes a.2.
Proof.
  destruct a as [o a], b as [o' b]. intros (_ & _ & H). simpl in *.
  rewrite H. by destruct a.
Qed.

Lemma input_classified_mono node x a b :
  input_classified node x a → sim_le a b → input_classified node x b.
Proof.
  intros HQ Hle. pose proof (sim_le_fields _ _ Hle) as (Hm & Hk & Ht & _).
  unfold input_classified. rewrite Hm, Hk, Ht. intros Htr.
  destruct (HQ Htr) as (r & Hr & Hin). exists r. split; [done|].
  destruct Hle as (Ho & Hi & _).
  destruct Hin; [left; by apply Hi|right; by apply Ho].
Qed.

Lemma output_classified_mono node x a b :
  output_classified node x a → sim_le a b → output_classified node x b.
Proof.
  intros HQ Hle. pose proof (sim_le_fields _ _ Hle) as (Hm & Hk & Ht & _).
  unfold output_classified. rewrite Hm, Hk, Ht. intros Htr.
  destruct (HQ Htr) as (r & Hr & Hin). exists r. split; [done|].
  destruct Hle as (Ho & _). by apply Ho.
Qed.

Lemma simulate_input_spec node x a b :
  simulate_input node x a = Some b →
  sim_le a b ∧ input_classified node x b.
Proof.
  destruct x as [[ty t] shp], a as [o a]. unfold simulate_input.
  unfold input_classified. simpl.
  destruct (tracked a (key_of a t)) eqn:Ht.
  - destruct (tensors_mapping a !! _) as [r|] eqn:Hr; simpl; [|done].
    destruct (decide (r ∉ o)) as [Hnew|Hold]; intros [= <-]; simpl.
    + split.
      * split_and!; simpl; [done|destruct a; simpl; set_solver
                           |by destruct a].
      * intros _. exists r. split; [by destruct a|].
        left. destruct a; simpl. set_solver.
    + split; [reflexivity|]. intros _. exists r. split; [done|].
      right. by apply dec_stable.
  - intros [= <-]. split; [reflexivity|]. simpl. by rewrite Ht.
Qed.

Lemma simulate_output_spec node x a b :
  simulate_output node x a = Some b →
  sim_le a b ∧ output_classified node x b.
Proof.
  destruct x as [[ty t] shp], a as [o a]. unfold simulate_output.
  unfold output_classified. simpl.
  destruct (tracked a (key_of a t)) eqn:Ht.
  - destruct (tensors_mapping a !! _) as [r|] eqn:Hr; simpl; [|done].
    intros [= <-]. simpl. split.
    + split_and!; simpl; [set_solver|done|by destruct a].
    + intros _. exists r. split; [done|]. set_solver.
  - intros [= <-]. split; [reflexivity|]. simpl. by rewrite Ht.
Qed.

Lemma simulate_node_spec node a b :
  simulate_node node a = Some b → sim_le a b ∧ node_classified node b.
Proof.
  unfold simulate_node. intros H.
  destruct (for_each (simulate_input node) (get_input_tensors node) a)
    as [a1|] eqn:E1; simpl in H; [|done].
  apply (for_each_visits _ sim_le (input_classified node)) in E1
    as [Hle1 HQ1]; [|apply _..| |].
  - apply (for_each_visits _ sim_le (output_classified node)) in H
      as [Hle2 HQ2]; [|apply _..| |].
    + split; [by etrans|]. split; [|done].
      intros x Hx. eapply input_classified_mono; [by apply HQ1|done].
    + intros x a0 b0 _. apply simulate_output_spec.
    + intros x a0 b0. apply output_classified_mono.
  - intros x a0 b0 _. apply simulate_input_spec.
  - intros x a0 b0. apply input_classified_mono.
Qed.

Lemma simulate_nodes_spec nodes a b :
  for_each simulate_node nodes a = Some b →
  sim_le a b ∧ ∀ node, node ∈ nodes → node_classified node b.
Proof.
  apply (for_each_visits _ sim_le node_classified); [apply _..| |].
  - intros x a0 b0 _. apply simulate_node_spec.
  - intros node a0 b0 [Hin Hout] Hle. split; intros x Hx.
    + eapply input_classified_mono; [by apply Hin|done].
    + eapply output_classified_mono; [by apply Hout|done].
Qed.

Lemma range_inv_refl base : range_inv base base.
Proof. split; [reflexivity|]. by left. Qed.

Lemma simulate_input_range base node x a b :
  range_inv base a → simulate_input node x a = Some b → range_inv base b.
Proof.
  intros [Hle Hr] Hstep.
  pose proof (simulate_input_spec _ _ _ _ Hstep) as [Hab _].
  split; [by etrans|].
  pose proof (sim_le_fields _ _ Hle) as (Hm & _).
  destruct x as [[ty t] shp], a as [o a]. unfold simulate_input in Hstep.
  simpl in *. destruct (tracked a (key_of a t)); [|by simplify_eq].
  destruct (tensors_mapping a !! _) as [r0|] eqn:E; simpl in Hstep; [|done].
  destruct (decide (r0 ∉ o)); injection Hstep as <-; [|done].
  intros r [Hi|Ho]; simpl in *; [|apply Hr; by right].
  replace (instantiate (set_instantiate ({[r0]} ∪ instantiate a) a))
    with ({[r0]} ∪ instantiate a) in Hi by (by destruct a).
  apply elem_of_union in Hi as [->%elem_of_singleton|Hi]; [|apply Hr; by left].
  right. rewrite <- Hm. by eexists.
Qed.

Lemma simulate_output_range base node x a b :
  range_inv base a → simulate_output node x a = Some b → range_inv base b.
Proof.
  intros [Hle Hr] Hstep.
  pose proof (simulate_output_spec _ _ _ _ Hstep) as [Hab _].
  split; [by etrans|].
  pose proof (sim_le_fields _ _ Hle) as (Hm & _).
  destruct x as [[ty t] shp], a as [o a]. unfold simulate_output in Hstep.
  simpl in *. destruct (tracked a (key_of a t)); [|by simplify_eq].
  destruct (tensors_mapping a !! _) as [r0|] eqn:E; simpl in Hstep; [|done].
  injection Hstep as <-.
  intros r [Hi|Ho]; simpl in *; [apply Hr; by left|].
  apply elem_of_union in Ho as [->%elem_of_singleton|Ho]; [|apply Hr; by right].
  right. rewrite <- Hm. by eexists.
Qed.

Lemma simulate_nodes_range base nodes a b :
  range_inv base a → for_each simulate_node nodes a = Some b →
  range_inv base b.
Proof.
  intros Ha. apply for_each_invariant; [|done].
  intros node a0 b0 _ Ha0. unfold simulate_node. intros H.
  destruct (for_each (simulate_input node) (get_input_tensors node) a0)
    as [a1|] eqn:E1; simpl in H; [|done].
  revert H. apply for_each_invariant.
  - intros x a2 b2 _. apply simulate_output_range.
  - revert E1. apply for_each_invariant; [|done].
    intros x a2 b2 _. apply simulate_input_range.
Qed.

Lemma resolve_all_config_alt st cs s1 :
  s1 = (resolve_all cs st).2 → same_config st s1.
Proof. intros ->. apply resolve_all_config. Qed.

(** The keys of the mapping after a sequence of calls. *)
Lemma resolve_all_mapping cs st :
  instantiate (resolve_all cs st).2 = instantiate st ∧
  ∀ t, is_Some (tensors_mapping (resolve_all cs st).2 !! t) →
       is_Some (tensors_mapping st !! t)
       ∨ ∃ c, c ∈ cs ∧ t = (c_node c, c_key c, c_input c).
Proof.
  revert st. induction cs as [|c cs IH]; intros st; simpl.
  { split; [done|]. by left. }
  specialize (IH (do_call c st)).
  destruct (resolve_all cs (do_call c st)) as [ids s1]. simpl in *.
  destruct IH as [Hi Hk].
  destruct (do_call_mapping c st) as (_ & Hi0 & Hm0).
  split; [by rewrite Hi|].
  intros t [Hold|(c' & Hc' & ->)]%Hk.
  - rewrite Hm0 in Hold.
    destruct (decide ((c_node c, c_key c, c_input c) = t)) as [<-|Hne].
    + right. exists c. split; [by left|done].
    + left. by rewrite lookup_insert_ne in Hold.
  - right. exists c'. split; [by right|done].
Qed.

Lemma tensor_call_Some st node input x c :
  tensor_call st node input x = Some c →
  c_node c = id node ∧ c_key c = key_of st x.1.2 ∧ c_input c = input ∧
  tracked st (key_of st x.1.2) = true.
Proof.
  destruct x as [[ty t] shp]. unfold tensor_call. simpl.
  destruct (tracked st (key_of st t)); [|done]. by intros [= <-].
Qed.

Lemma elem_of_pass_calls st nodes c :
  c ∈ pass_calls st nodes →
  ∃ node x, node ∈ nodes ∧ c_node c = id node ∧
            c_key c = key_of st x.1.2 ∧
            tracked st (key_of st x.1.2) = true ∧
            ((c_input c = true ∧ x ∈ get_input_tensors node)
             ∨ (c_input c = false ∧ x ∈ get_output_tensors node)).
Proof.
  unfold pass_calls. intros (node & Hc & Hnode)%list_elem_of_bind.
  unfold node_calls in Hc.
  apply elem_of_app in Hc
    as [(x & Hx & Hcall)%list_elem_of_omap|(x & Hx & Hcall)%list_elem_of_omap];
    apply tensor_call_Some in Hcall as (? & ? & ? & ?);
    exists node, x; (split_and!; [done..|]); [left|right]; done.
Qed.

(** C1. After [analyze_tensors] on a manager without mapping and without
    must-instantiate ids, the must-instantiate set and the set of the ids
    produced by execution together are the Replay Tensor ids that
    [tensors_mapping] holds: each of these ids is in at least one of the two
    sets, and the sets hold nothing else. *)
Theorem mapped_ids_classified st out st' :
  tensors_mapping st = ∅ → instantiate st = ∅ →
  analyze_tensors_sets st = Some (out, st') →
  ∀ r, r ∈ instantiate st' ∨ r ∈ out ↔
       ∃ t, tensors_mapping st' !! t = Some r.
Proof.
  intros Hmap Hinst. unfold analyze_tensors_sets. intros H.
  destruct (for_each resolve_node (sorted_nodes st) st) as [s1|] eqn:E1;
    simpl in H; [|done].
  apply (first_pass_calls st) in E1; [|apply same_config_refl].
  pose proof (resolve_all_config (pass_calls st (sorted_nodes st)) st) as Hc.
  pose proof (resolve_all_mapping (pass_calls st (sorted_nodes st)) st)
    as [Hi1 Hk1].
  rewrite <- E1 in Hc, Hi1, Hk1.
  pose proof (simulate_nodes_spec _ _ _ H) as [Hle Hcl].
  pose proof (simulate_nodes_range (∅, s1) _ _ _ (range_inv_refl _) H)
    as [_ Hrange].
  pose proof (sim_le_fields _ _ Hle) as (Hm & Hk & Ht & _). simpl in *.
  intros r. split.
  - intros [[Hin|Hin]|Hex]%Hrange.
    + rewrite Hi1, Hinst in Hin. set_solver.
    + set_solver.
    + by rewrite Hm.
  - intros [t Hr]. rewrite Hm in Hr.
    destruct (Hk1 t) as [Hold|(c & Hc' & ->)]; [by eexists| |].
    { rewrite Hmap, lookup_empty in Hold. by destruct Hold. }
    apply elem_of_pass_calls in Hc'
      as (node & x & Hnode & Hn & Hkey & Htr & Hrole).
    destruct Hc as (_ & _ & Hsn). rewrite <- Hsn in Hnode.
    destruct (Hcl node Hnode) as [Hcin Hcout].
    assert (∀ t, key_of s1 t = key_of st t) as Hks.
    { intros t. by eapply same_config_key, resolve_all_config_alt. }
    assert (∀ t, tracked s1 t = tracked st t) as Hts.
    { intros t. by eapply same_config_key, resolve_all_config_alt. }
    destruct Hrole as [[Hrole Hx]|[Hrole Hx]].
    + destruct (Hcin x Hx) as (r' & Hr' & Hcls).
      { simpl. by rewrite Ht, Hk, Hks, Hts. }
      simpl in Hr'. rewrite Hm, Hk, Hks, <- Hkey, <- Hn, <- Hrole, Hr in Hr'.
      by simplify_eq.
    + destruct (Hcout x Hx) as (r' & Hr' & Hcls).
      { simpl. by rewrite Ht, Hk, Hks, Hts. }
      simpl in Hr'. rewrite Hm, Hk, Hks, <- Hkey, <- Hn, <- Hrole, Hr in Hr'.
      simplify_eq. by right.
Qed.

End Properties.

(** * Further properties *)

Section Further.
Context {Tensor : Type} `{!Helpers Tensor}.

Implicit Types (st : State Tensor) (node : Node) (r : Z).

(** ** The flattener *)

(** A relation between the selected nodes and the states before and after
    holds of the traversal when it holds of its steps and composes. *)
Lemma dfs_traverse_rel (R : list Node → State Tensor → State Tensor → Prop) :
  (∀ st, R [] st st) →
  (∀ nm st, R [] st (record_skip nm st)) →
  (∀ c st f oc s1,
     build_func c
       (count_dependencies c
          (set_sorted_nodes (sorted_nodes st ++ [c]) st)) = Some (f, oc, s1) →
     R [c] st (set_funcs (<[id c := (f, oc)]> (funcs s1)) s1)) →
  (∀ l1 l2 a b c, R l1 a b → R l2 b c → R (l1 ++ l2) a c) →
  ∀ root st st', _dfs_traverse root st = Some st' →
                 R (selected (skip_node_names st) root) st st'.
Proof.
  intros Hrefl Hskip Hqual Htrans root.
  induction root as [root IH] using Node_tree_ind.
  intros st st'. rewrite dfs_traverse_children, selected_children.
  revert st st'. induction IH as [|c cs Hc _ IHcs]; intros st st' Hrun;
    simpl in Hrun.
  { simplify_eq. apply Hrefl. }
  simpl. destruct (existsb _ (skip_node_names st)) eqn:Eskip.
  - apply IHcs in Hrun.
    replace (skip_node_names (record_skip (name c) st))
      with (skip_node_names st) in Hrun by (by destruct st).
    apply (Htrans [] _ st (record_skip (name c) st) st' (Hskip _ _) Hrun).
  - destruct (is_qualified c) eqn:Eq.
    + destruct (build_func c _) as [[[f oc] s1]|] eqn:Eb; simpl in Hrun;
        [|done].
      pose proof (traversal_summary_qualified _ _ _ _ _ Eb) as (_ & Hn & _).
      apply IHcs in Hrun. rewrite Hn in Hrun.
      apply (Htrans [c] _ _ _ _ (Hqual _ _ _ _ _ Eb) Hrun).
    + destruct (_dfs_traverse c _) as [s1|] eqn:Ec; simpl in Hrun; [|done].
      pose proof (dfs_traverse_summary _ _ _ Ec) as (_ & Hn1 & _).
      apply Hc in Ec. apply IHcs in Hrun.
      assert (skip_node_names (if skip_op c then record_skip (name c) st
                               else st) = skip_node_names st) as Hn0.
      { destruct (skip_op c); [by destruct st|done]. }
      rewrite Hn1, Hn0 in Hrun. rewrite Hn0 in Ec.
      apply (Htrans [] _ st
               (if skip_op c then record_skip (name c) st else st) st').
      * destruct (skip_op c); [apply Hskip|apply Hrefl].
      * apply (Htrans _ _ _ _ _ Ec Hrun).
Qed.

(** X1. The skip tally is the length of the list of skipped names: when
    [actual_skip_nodes_cnt] counts [actual_skip_nodes] before
    [extract_subgraph], it counts it after, and neither loses an entry. *)
Theorem skip_tally_counts_names root st st' :
  extract_subgraph root st = Some st' →
  actual_skip_nodes_cnt st = Z.of_nat (length (actual_skip_nodes st)) →
  actual_skip_nodes_cnt st' = Z.of_nat (length (actual_skip_nodes st')) ∧
  actual_skip_nodes st `prefix_of` actual_skip_nodes st'.
Proof.
  unfold extract_subgraph. intros Hrun Hcnt.
  destruct (_dfs_traverse root st) as [s1|] eqn:E; simpl in Hrun; [|done].
  apply dfs_traverse_summary in E as (_ & _ & (extra & Ha & Hc & _) & _).
  injection Hrun as <-.
  replace (actual_skip_nodes_cnt (set_sorted_nodes _ s1))
    with (actual_skip_nodes_cnt s1) by (by destruct s1).
  replace (actual_skip_nodes (set_sorted_nodes _ s1))
    with (actual_skip_nodes s1) by (by destruct s1).
  rewrite Hc, Ha, Hcnt, length_app. split; [lia|by exists extra].
Qed.

Lemma dfs_traverse_funcs root st st' :
  _dfs_traverse root st = Some st' →
  funcs_cover (selected (skip_node_names st) root) st st'.
Proof.
  apply (dfs_traverse_rel funcs_cover).
  - intros s. split; [by intros n ?%elem_of_nil|done].
  - intros nm s. split; [by intros n ?%elem_of_nil|by destruct s].
  - intros c s f oc s1 (_ & _ & Hf & _)%build_func_spec.
    rewrite count_dependencies_eq in Hf.
    assert (funcs s1 = funcs s) as Hf' by (rewrite Hf; by destruct s).
    split.
    + intros n ->%list_elem_of_singleton. destruct s1; simpl.
      rewrite lookup_insert_eq. by eexists.
    + intros i Hi. destruct s1; simpl in *. rewrite lookup_insert.
      case_decide; [by eexists|]. by rewrite Hf'.
  - intros l1 l2 a b c [H1 H1'] [H2 H2']. split; [|by auto].
    intros n [?|?]%elem_of_app; auto.
Qed.

(** X2. After [extract_subgraph], [funcs] has an entry for every node of
    [sorted_nodes] that the traversal selected or that had one before: the
    lookup [self.funcs[node.id]] of [run_op] does not raise for them. *)
Theorem funcs_entry_for_sorted_nodes root st st' n :
  extract_subgraph root st = Some st' →
  (∀ m, m ∈ sorted_nodes st → is_Some (funcs st !! id m)) →
  n ∈ sorted_nodes st' →
  is_Some (funcs st' !! id n).
Proof.
  intros Hrun Hold Hn.
  pose proof (extract_subgraph_sorted_nodes _ _ _ Hrun) as Hs.
  rewrite Hs, sorted_by_id_perm in Hn.
  unfold extract_subgraph in Hrun.
  destruct (_dfs_traverse root st) as [s1|] eqn:E; simpl in Hrun; [|done].
  apply dfs_traverse_funcs in E as [Hsel Hkeep]. injection Hrun as <-.
  replace (funcs (set_sorted_nodes _ s1)) with (funcs s1) by (by destruct s1).
  apply elem_of_app in Hn as [Hn|Hn]; [apply Hkeep, Hold, Hn|by apply Hsel].
Qed.

Lemma occurrences_app k l1 l2 :
  occurrences k (l1 ++ l2) = occurrences k l1 + occurrences k l2.
Proof. unfold occurrences. rewrite filter_app, length_app. lia. Qed.

Lemma occurrences_nonneg k l : 0 ≤ occurrences k l.
Proof. unfold occurrences. lia. Qed.

Lemma occurrences_cons k k' l :
  occurrences k (k' :: l)
  = (if decide (k' = k) then 1 else 0) + occurrences k l.
Proof.
  unfold occurrences. rewrite filter_cons. case_decide; simpl; lia.
Qed.

Lemma input_keys_twd st st' sel :
  tensor_with_device st' = tensor_with_device st →
  input_keys st' sel = input_keys st sel.
Proof. intros H. unfold input_keys, key_of. by rewrite H. Qed.

Lemma counts_inputs_refl st st' :
  tensor_with_device st' = tensor_with_device st →
  dependency_permanent st' = dependency_permanent st →
  counts_inputs [] st st'.
Proof.
  intros Ht Hd. split; [done|]. intros k. rewrite Hd.
  unfold input_keys, occurrences. simpl. split; [lia|]. split; [by left|].
  intros [?|?]; [done|lia].
Qed.

Lemma counts_inputs_trans l1 l2 a b c :
  counts_inputs l1 a b → counts_inputs l2 b c → counts_inputs (l1 ++ l2) a c.
Proof.
  intros [Ht1 H1] [Ht2 H2]. split; [congruence|]. intros k.
  destruct (H1 k) as [Hv1 Hs1]. destruct (H2 k) as [Hv2 Hs2].
  rewrite (input_keys_twd a b l2 Ht1) in Hv2, Hs2.
  assert (input_keys a (l1 ++ l2) = input_keys a l1 ++ input_keys a l2) as ->.
  { unfold input_keys. by rewrite bind_app, fmap_app. }
  rewrite occurrences_app.
  pose proof (occurrences_nonneg k (input_keys a l1)).
  pose proof (occurrences_nonneg k (input_keys a l2)).
  split; [lia|]. rewrite Hs2, Hs1. split.
  - intros [[?|?]|?]; [by left|right; lia..].
  - intros [?|?]; [by left; left|].
    destruct (decide (0 < occurrences k (input_keys a l1)));
      [left; by right|right; lia].
Qed.

Lemma count_dependencies_fold child st :
  count_dependencies child st = foldl count_one st (get_input_tensors child).
Proof.
  unfold count_dependencies. generalize (get_input_tensors child).
  intros l. revert st. induction l as [|[[ty t] shp] l IH]; intros st; [done|].
  simpl. apply IH.
Qed.

Lemma count_fold_spec st (l : list (string * tid * shape)) :
  tensor_with_device (foldl count_one st l) = tensor_with_device st ∧
  ∀ k, default 0 (dependency_permanent (foldl count_one st l) !! k)
       = default 0 (dependency_permanent st !! k)
         + occurrences k ((λ x, key_of st x.1.2) <$> l) ∧
       (is_Some (dependency_permanent (foldl count_one st l) !! k) ↔
        is_Some (dependency_permanent st !! k)
        ∨ 0 < occurrences k ((λ x, key_of st x.1.2) <$> l)).
Proof.
  revert st. induction l as [|x l IH]; intros st.
  { split; [done|]. intros k. unfold occurrences. simpl. split; [lia|].
    split; [by left|]. intros [?|?]; [done|lia]. }
  change (foldl count_one st (x :: l))
    with (foldl count_one (count_one st x) l).
  destruct (IH (count_one st x)) as [Ht Hk].
  assert (tensor_with_device (count_one st x) = tensor_with_device st) as Ht1
    by (by destruct st).
  assert (∀ y, key_of (count_one st x) y = key_of st y) as Hkey
    by (intros y; unfold key_of; by rewrite Ht1).
  assert (dependency_permanent (count_one st x)
          = <[key_of st x.1.2 :=
                default 0 (dependency_permanent st !! key_of st x.1.2) + 1]>
              (dependency_permanent st)) as Hd1
    by (by destruct st).
  split; [etrans; [exact Ht|exact Ht1]|]. intros k.
  destruct (Hk k) as [Hv Hs].
  assert ((λ y : string * tid * shape, key_of (count_one st x) y.1.2) <$> l
          = (λ y : string * tid * shape, key_of st y.1.2) <$> l) as Hl.
  { apply list_fmap_ext. intros ? ? ?. apply Hkey. }
  rewrite Hl in Hv, Hs. rewrite fmap_cons, occurrences_cons.
  pose proof (occurrences_nonneg k ((λ y : string * tid * shape,
                                       key_of st y.1.2) <$> l)).
  rewrite Hd1, lookup_insert in Hv, Hs.
  destruct (decide (key_of st x.1.2 = k)) as [Heq|Hne]; simpl in Hv.
  - subst k. split; [lia|]. rewrite Hs. split; [intros _; right; lia|].
    intros _. left. by eexists.
  - split; [lia|]. rewrite Hs. split; (intros [?|?]; [by left|right; lia]).
Qed.

Lemma build_func_config c st f oc s1 :
  build_func c st = Some (f, oc, s1) →
  tensor_with_device s1 = tensor_with_device st ∧
  dependency_permanent s1 = dependency_permanent st.
Proof.
  unfold build_func. destruct (is_fbgemm_forward c).
  { destruct (build_fbgemm_func c (cuda st)) as [[fw bw] n].
    intros [= <- <- <-]. by destruct st. }
  destruct (is_fbgemm_backward c).
  { destruct (last (fbgemm_backward_ops st)) as [[bw fid]|]; [|done].
    intros [= <- <- <-]. by destruct st. }
  destruct (build_torchscript_func c) as [[g|] n]; intros [= <- <- <-];
    by destruct st.
Qed.

Lemma dfs_traverse_counts root st st' :
  _dfs_traverse root st = Some st' →
  counts_inputs (selected (skip_node_names st) root) st st'.
Proof.
  apply (dfs_traverse_rel counts_inputs).
  - intros s. by apply counts_inputs_refl.
  - intros nm s. apply counts_inputs_refl; by destruct s.
  - intros c s f oc s1 [Ht Hd]%build_func_config.
    rewrite count_dependencies_fold in Ht, Hd.
    destruct (count_fold_spec (set_sorted_nodes (sorted_nodes s ++ [c]) s)
                (get_input_tensors c)) as [Ht' Hk].
    rewrite <- Ht in Ht'. rewrite <- Hd in Hk.
    assert (tensor_with_device (set_sorted_nodes (sorted_nodes s ++ [c]) s)
            = tensor_with_device s) as Ht0 by (by destruct s).
    assert (dependency_permanent (set_sorted_nodes (sorted_nodes s ++ [c]) s)
            = dependency_permanent s) as Hd0 by (by destruct s).
    split.
    + destruct s1; simpl in *. congruence.
    + intros k. specialize (Hk k). rewrite Hd0 in Hk.
      assert (input_keys s [c]
              = (λ x : string * tid * shape,
                   key_of (set_sorted_nodes (sorted_nodes s ++ [c]) s) x.1.2)
                  <$> get_input_tensors c) as ->.
      { unfold input_keys. rewrite bind_cons. simpl. rewrite app_nil_r.
        apply list_fmap_ext. intros ? ? ?. unfold key_of. by rewrite Ht0. }
      destruct s1; simpl in *. exact Hk.
  - apply counts_inputs_trans.
Qed.

(** X3. After [extract_subgraph] on a manager whose Dependency Count Map is
    empty, the map holds exactly the keys of the input tensors of the
    selected nodes, each with the number of its occurrences: the tensors of
    a node of the skip list, or of a node that is not selected, are not
    counted, and a key that only occurs as an output is absent. *)
Theorem dependency_counts_inputs root st st' k :
  extract_subgraph root st = Some st' →
  dependency_permanent st = ∅ →
  dependency_permanent st' !! k
  = if decide (occurrences k
                 (input_keys st (selected (skip_node_names st) root)) = 0)
    then None
    else Some (occurrences k
                 (input_keys st (selected (skip_node_names st) root))).
Proof.
  unfold extract_subgraph. intros Hrun Hempty.
  destruct (_dfs_traverse root st) as [s1|] eqn:E; simpl in Hrun; [|done].
  apply dfs_traverse_counts in E as [_ Hk]. injection Hrun as <-.
  replace (dependency_permanent (set_sorted_nodes _ s1))
    with (dependency_permanent s1) by (by destruct s1).
  destruct (Hk k) as [Hv Hs]. rewrite Hempty, lookup_empty in Hv, Hs.
  simpl in Hv.
  pose proof (occurrences_nonneg k
                (input_keys st (selected (skip_node_names st) root))).
  case_decide as Hz.
  - destruct (dependency_permanent s1 !! k) as [v|] eqn:Ek; [|done].
    assert (is_Some (Some v)) as Hv' by by eexists.
    apply Hs in Hv' as [[? [=]]|?]. lia.
  - destruct (dependency_permanent s1 !! k) as [v|] eqn:Ek.
    + simpl in Hv. f_equal. lia.
    + assert (is_Some (@None Z)) as [? [=]]. apply Hs. right. lia.
Qed.

(** X4. [build_func] pairs the fbgemm operators as a stack: the backward
    callable of a forward node is pushed, the next backward node gets it
    with [len(node.output_types)] as output count and the stack is as it was
    before the forward node; a backward node met with an empty stack fails
    the assertion, which ends the flattening. *)
Theorem build_func_pairs_backward n1 n2 st :
  is_fbgemm_forward n1 = true →
  is_fbgemm_forward n2 = false → is_fbgemm_backward n2 = true →
  (∃ s1 s2,
     build_func n1 st
     = Some (Some (build_fbgemm_func n1 (cuda st)).1.1,
             (build_fbgemm_func n1 (cuda st)).2, s1) ∧
     build_func n2 s1
     = Some (Some (build_fbgemm_func n1 (cuda st)).1.2,
             Z.of_nat (length (output_types n2)), s2) ∧
     fbgemm_backward_ops s2 = fbgemm_backward_ops st ∧
     actual_skip_nodes s2 = actual_skip_nodes st) ∧
  (fbgemm_backward_ops st = [] → build_func n2 st = None).
Proof.
  intros Hf1 Hf2 Hb2. split.
  - unfold build_func. rewrite Hf1, Hf2, Hb2.
    destruct (build_fbgemm_func n1 (cuda st)) as [[fw bw] oc]. simpl.
    eexists _, _. split; [reflexivity|].
    replace (fbgemm_backward_ops (set_fbgemm_backward_ops
               (fbgemm_backward_ops st ++ [(bw, id n1)]) st))
      with (fbgemm_backward_ops st ++ [(bw, id n1)]) by (by destruct st).
    rewrite last_snoc. split; [reflexivity|].
    rewrite removelast_last. by destruct st.
  - intros Hnil. unfold build_func. by rewrite Hf2, Hb2, Hnil.
Qed.

(** ** detect_tensor_device *)

Lemma detect_traverse_children root st :
  detect_traverse root st = detect_children (children root) st.
Proof.
  destruct root as [i nm cs ins ity ish outs oty osh]. simpl.
  revert st. induction cs as [|c cs IH]; intros st; simpl; [done|].
  destruct (get_input_tensors c) as [|[[? ?] ?] ?]; [|done].
  destruct (get_output_tensors c) as [|[[? ?] ?] ?]; [|done].
  apply IH.
Qed.

Lemma set_tensor_with_device_twice st b :
  set_tensor_with_device b (set_tensor_with_device b st)
  = set_tensor_with_device b st.
Proof. by destruct st. Qed.

Lemma descendants_children root :
  descendants root
  = flat_map (λ child, child :: descendants child) (children root).
Proof. by destruct root. Qed.

(** X5. [detect_tensor_device] writes nothing but [tensor_with_device], and
    only to clear it: the manager is left as it is or with the flag off.
    It is left as it is when no descriptor below the root has five entries,
    and the flag is off when the first child of the root has an input
    tensor whose first descriptor has five entries. *)
Theorem detect_tensor_device_clears_flag root st :
  (detect_tensor_device root st = st
   ∨ detect_tensor_device root st = set_tensor_with_device false st) ∧
  ((∀ n, n ∈ descendants root → no_short_descriptor n) →
   detect_tensor_device root st = st) ∧
  (∀ c cs ty t shp l,
     children root = c :: cs → get_input_tensors c = (ty, t, shp) :: l →
     length t = 5%nat →
     detect_tensor_device root st = set_tensor_with_device false st).
Proof.
  unfold detect_tensor_device. split_and!.
  - revert st. induction root as [root IH] using Node_tree_ind.
    intros st. rewrite detect_traverse_children.
    revert st. induction IH as [|c cs Hc _ IHcs]; intros st; simpl;
      [by left|].
    destruct (get_input_tensors c) as [|[[? t] ?] ?].
    + destruct (get_output_tensors c) as [|[[? t] ?] ?].
      * destruct (Hc st) as [->| ->]; [apply IHcs|].
        destruct (IHcs (set_tensor_with_device false st)) as [->| ->];
          [by right|]. right. apply set_tensor_with_device_twice.
      * case_decide; [by right|by left].
    + case_decide; [by right|by left].
  - revert st. induction root as [root IH] using Node_tree_ind.
    intros st Hall. rewrite detect_traverse_children.
    rewrite descendants_children in Hall.
    revert st Hall. induction IH as [|c cs Hc _ IHcs]; intros st Hall; simpl;
      [done|].
    assert (no_short_descriptor c) as Hno.
    { apply Hall. simpl. by left. }
    destruct (get_input_tensors c) as [|[[ty t] shp] l] eqn:Ei.
    + destruct (get_output_tensors c) as [|[[ty t] shp] l] eqn:Eo.
      * rewrite Hc.
        -- apply IHcs. intros n Hn. apply Hall. simpl.
           right. apply elem_of_app. by right.
        -- intros n Hn. apply Hall. simpl. right. apply elem_of_app. by left.
      * rewrite decide_False; [done|].
        apply (Hno (ty, t, shp)). rewrite Ei, Eo. by left.
    + rewrite decide_False; [done|].
      apply (Hno (ty, t, shp)). rewrite Ei. by left.
  - intros c cs ty t shp l Hch Hin Hlen. rewrite detect_traverse_children, Hch.
    simpl. rewrite Hin. by rewrite decide_True.
Qed.

(** ** analyze_tensors does not raise on well-formed descriptors *)

#[local] Existing Instances sim_le_refl sim_le_trans.

Lemma for_each_total {A S} (P : S → Prop) (f : A → S → option S)
    (l : list A) (s : S) :
  (∀ x a, x ∈ l → P a → ∃ b, f x a = Some b ∧ P b) →
  P s → ∃ s', for_each f l s = Some s' ∧ P s'.
Proof.
  revert s. induction l as [|x l IH]; intros s Hf HP; simpl; [by eauto|].
  destruct (Hf x s) as (b & -> & Hb); [by left|done|]. simpl.
  apply IH; [|done]. intros y a Hy. apply Hf. by right.
Qed.

Lemma for_each_abort {A S} (P : S → Prop) (f : A → S → option S)
    (l : list A) (x : A) (s : S) :
  x ∈ l → (∀ a, P a → f x a = None) →
  (∀ y a b, P a → f y a = Some b → P b) →
  P s → for_each f l s = None.
Proof.
  intros Hx Hnone Hstep. revert s.
  induction l as [|y l IH]; intros s HP; [by apply elem_of_nil in Hx|].
  simpl. apply elem_of_cons in Hx as [<-|Hx].
  - by rewrite Hnone.
  - destruct (f y s) as [b|] eqn:E; simpl; [|done].
    apply IH; [done|]. by eapply Hstep.
Qed.

Lemma resolve_tensor_config st node input x s s' :
  same_config st s → resolve_tensor node input x s = Some s' →
  same_config st s'.
Proof.
  intros Hc H. apply (resolve_tensor_call st) in H; [|done]. rewrite H.
  eapply same_config_trans; [exact Hc|apply resolve_all_config].
Qed.

Lemma resolve_tensor_Some st node input x s :
  same_config st s →
  (tensor_with_device st = true → (6 ≤ length x.1.2)%nat) →
  ∃ s', resolve_tensor node input x s = Some s' ∧ same_config st s'.
Proof.
  intros Hc Hlen.
  assert (is_Some (resolve_tensor node input x s)) as [s' Hs'].
  { destruct x as [[ty t] shp]. unfold resolve_tensor.
    destruct Hc as (Ht & _). rewrite Ht.
    destruct (tensor_with_device st); [|by eexists].
    destruct (lookup_lt_is_Some_2 t 5) as [d ->]; [simpl in Hlen; lia|].
    by eexists. }
  exists s'. split; [done|]. by eapply resolve_tensor_config.
Qed.

Lemma resolve_tensor_None st node input x s :
  same_config st s → tensor_with_device st = true →
  (length x.1.2 < 6)%nat →
  resolve_tensor node input x s = None.
Proof.
  intros (Ht & _) Htwd Hlen. destruct x as [[ty t] shp].
  unfold resolve_tensor. rewrite Ht, Htwd.
  rewrite (lookup_ge_None_2 t 5); [done|]. simpl in Hlen. lia.
Qed.

Lemma resolve_node_config st node s s' :
  same_config st s → resolve_node node s = Some s' → same_config st s'.
Proof.
  intros Hc. unfold resolve_node. intros H.
  destruct (for_each (resolve_tensor node true) (get_input_tensors node) s)
    as [s1|] eqn:E1; simpl in H; [|done].
  revert H. apply for_each_invariant.
  - intros x a b _. apply resolve_tensor_config.
  - revert E1. apply for_each_invariant; [|done].
    intros x a b _. apply resolve_tensor_config.
Qed.

(** The mapping has the key of every call of the sequence. *)
Lemma resolve_all_mapping_has cs st t :
  (is_Some (tensors_mapping st !! t)
   ∨ ∃ c, c ∈ cs ∧ t = (c_node c, c_key c, c_input c)) →
  is_Some (tensors_mapping (resolve_all cs st).2 !! t).
Proof.
  revert st. induction cs as [|c cs IH]; intros st; simpl.
  { intros [?|(c & ?%elem_of_nil & _)]; done. }
  specialize (IH (do_call c st)).
  destruct (resolve_all cs (do_call c st)) as [ids s1]. simpl in *.
  destruct (do_call_mapping c st) as (_ & _ & Hm).
  intros [Hold|(c' & [->|Hc']%elem_of_cons & ->)]; apply IH.
  - left. rewrite Hm, lookup_insert. case_decide; [by eexists|done].
  - left. rewrite Hm, lookup_insert_eq. by eexists.
  - right. by exists c'.
Qed.

Lemma simulate_total nodes s1 :
  (∀ node x, node ∈ nodes → tracked s1 (key_of s1 x.1.2) = true →
     (x ∈ get_input_tensors node →
      is_Some (tensors_mapping s1 !! (id node, key_of s1 x.1.2, true))) ∧
     (x ∈ get_output_tensors node →
      is_Some (tensors_mapping s1 !! (id node, key_of s1 x.1.2, false)))) →
  is_Some (for_each simulate_node nodes (∅, s1)).
Proof.
  intros Hmap.
  destruct (for_each_total (sim_le (∅, s1)) simulate_node nodes (∅, s1))
    as (r & Hr & _); [|reflexivity|by eexists].
  intros node a Hnode Ha. unfold simulate_node.
  destruct (for_each_total (sim_le (∅, s1)) (simulate_input node)
              (get_input_tensors node) a) as (a1 & -> & Ha1); [|done|].
  { intros [[ty t] shp] [o b] Hx Hb.
    pose proof (sim_le_fields _ _ Hb) as (Hm & Hk & Ht & _). simpl in *.
    assert (is_Some (simulate_input node (ty, t, shp) (o, b))) as [b' Hb'].
    { unfold simulate_input. rewrite Hk, Ht, Hm.
      destruct (tracked s1 (key_of s1 t)) eqn:Etr; [|by eexists].
      destruct (Hmap node (ty, t, shp) Hnode Etr) as [[r0 Hr0] _]; [done|].
      simpl in Hr0. rewrite Hr0. by eexists. }
    exists b'. split; [done|]. etrans; [exact Hb|].
    by apply simulate_input_spec in Hb' as [? _]. }
  simpl. apply for_each_total; [|done].
  intros [[ty t] shp] [o b] Hx Hb.
  pose proof (sim_le_fields _ _ Hb) as (Hm & Hk & Ht & _). simpl in *.
  assert (is_Some (simulate_output node (ty, t, shp) (o, b))) as [b' Hb'].
  { unfold simulate_output. rewrite Hk, Ht, Hm.
    destruct (tracked s1 (key_of s1 t)) eqn:Etr; [|by eexists].
    destruct (Hmap node (ty, t, shp) Hnode Etr) as [_ [r0 Hr0]]; [done|].
    simpl in Hr0. rewrite Hr0. by eexists. }
  exists b'. split; [done|]. etrans; [exact Hb|].
  by apply simulate_output_spec in Hb' as [? _].
Qed.

(** X6. [analyze_tensors] raises exactly when the device-aware mode meets a
    descriptor with fewer than six entries ([list(t_id)[5]]): otherwise both
    passes run to the end, and the lookups of [tensors_mapping] in the second
    pass find the keys that the first pass wrote. *)
Theorem analyze_tensors_runs st :
  is_Some (analyze_tensors st) ↔
  (tensor_with_device st = true →
   ∀ node, node ∈ sorted_nodes st → with_device node).
Proof.
  unfold analyze_tensors, analyze_tensors_sets. rewrite fmap_is_Some. split.
  - intros Hsome Htwd node Hnode x Hx.
    destruct (decide (6 ≤ length x.1.2)%nat) as [|Hshort]; [done|].
    exfalso.
    assert (for_each resolve_node (sorted_nodes st) st = None) as Hnone.
    { apply (for_each_abort (same_config st) _ _ node); [done| |
        |apply same_config_refl].
      - intros a Ha. unfold resolve_node.
        apply elem_of_app in Hx as [Hx|Hx].
        + rewrite (for_each_abort (same_config st) _ _ x); [done|done| |
            |done].
          * intros b Hb. apply (resolve_tensor_None st); [done..|lia].
          * intros y b c ?. by apply resolve_tensor_config.
        + destruct (for_each (resolve_tensor node true) _ a) as [a1|] eqn:E1;
            simpl; [|done].
          apply (for_each_abort (same_config st) _ _ x); [done| | |].
          * intros b Hb. apply (resolve_tensor_None st); [done..|lia].
          * intros y b c ?. by apply resolve_tensor_config.
          * revert E1. apply for_each_invariant; [|done].
            intros y b c _. apply resolve_tensor_config.
      - intros y a b. apply resolve_node_config. }
    rewrite Hnone in Hsome. by destruct Hsome.
  - intros Hwf.
    destruct (for_each_total (same_config st) resolve_node (sorted_nodes st) st)
      as (s1 & Hs1 & Hc1); [|apply same_config_refl|].
    { intros node a Hnode Ha. unfold resolve_node.
      destruct (for_each_total (same_config st) (resolve_tensor node true)
                  (get_input_tensors node) a) as (a1 & -> & Ha1); [|done|].
      { intros x b Hx Hb. apply resolve_tensor_Some; [done|].
        intros Htwd. apply (Hwf Htwd node Hnode). apply elem_of_app. by left. }
      simpl. apply for_each_total; [|done].
      intros x b Hx Hb. apply resolve_tensor_Some; [done|].
      intros Htwd. apply (Hwf Htwd node Hnode). apply elem_of_app. by right. }
    rewrite Hs1. simpl.
    pose proof (first_pass_calls st _ _ _ (same_config_refl st) Hs1) as E1.
    destruct Hc1 as (Ht1 & Hd1 & Hn1).
    assert (∀ t, key_of s1 t = key_of st t) as Hk
      by (intros t; unfold key_of; by rewrite Ht1).
    assert (∀ t, tracked s1 t = tracked st t) as Htr
      by (intros t; unfold tracked; by rewrite Hd1).
    rewrite Hn1. apply simulate_total.
    intros node x Hnode Htracked. rewrite Hk, Htr in Htracked. rewrite !Hk.
    split; intros Hx; rewrite E1; apply resolve_all_mapping_has; right.
    + exists (mkCall (id node) (key_of st x.1.2) x.2 true
                (if tensor_with_device st
                 then default (TInt (-1)) (x.1.2 !! 5%nat) else TInt (-1))).
      split; [|done]. apply list_elem_of_bind. exists node. split; [|done].
      unfold node_calls. apply elem_of_app. left.
      apply list_elem_of_omap. exists x. split; [done|].
      destruct x as [[ty t] shp]. unfold tensor_call. simpl in *.
      by rewrite Htracked.
    + exists (mkCall (id node) (key_of st x.1.2) x.2 false
                (if tensor_with_device st
                 then default (TInt (-1)) (x.1.2 !! 5%nat) else TInt (-1))).
      split; [|done]. apply list_elem_of_bind. exists node. split; [|done].
      unfold node_calls. apply elem_of_app. right.
      apply list_elem_of_omap. exists x. split; [done|].
      destruct x as [[ty t] shp]. unfold tensor_call. simpl in *.
      by rewrite Htracked.
Qed.

(** ** The tables of the Replay Tensors *)

Lemma do_call_tables c st :
  (replay_unique_tensor_num (do_call c st) = replay_unique_tensor_num st ∧
   replay_tensors_shapes (do_call c st) = replay_tensors_shapes st ∧
   tensor_device (do_call c st) = tensor_device st)
  ∨ (replay_unique_tensor_num (do_call c st) = replay_unique_tensor_num st + 1 ∧
     replay_tensors_shapes (do_call c st)
     = <[replay_unique_tensor_num st + 1 := c_shape c]>
         (replay_tensors_shapes st) ∧
     tensor_device (do_call c st)
     = if tensor_with_device st
       then <[replay_unique_tensor_num st + 1 := c_device c]> (tensor_device st)
       else tensor_device st).
Proof.
  unfold do_call, add_unique_tensor, mint. destruct c as [n k s input dev].
  simpl. destruct (decide _).
  - right. destruct st; simpl. by destruct tensor_with_device0.
  - destruct (find_shape _ _ _) as [[r0 s0]|].
    + left. by destruct st.
    + right. destruct st; simpl. by destruct tensor_with_device0.
Qed.

Lemma do_call_tables_inv c st :
  resolver_inv st → tables_inv st →
  tables_inv (do_call c st) ∧
  (∀ r s, replay_tensors_shapes st !! r = Some s →
          replay_tensors_shapes (do_call c st) !! r = Some s) ∧
  (∀ r d, tensor_device st !! r = Some d →
          tensor_device (do_call c st) !! r = Some d) ∧
  ((∀ k s, (assigned c st, s) ∉ shapes_of st k) →
   tensor_with_device st = true →
   tensor_device (do_call c st) !! assigned c st = Some (c_device c)).
Proof.
  intros Hinv Htbl.
  destruct (do_call_mapping c st) as ((Htwd & _) & _).
  destruct (do_call_cases c st Hinv) as [(Hin & Hsh & Hn & _)|Hm].
  - destruct (do_call_tables c st) as [(_ & Ht & Hd)|(Hn' & _)]; [|lia].
    split_and!.
    + split; intros *; rewrite ?Hsh, ?Hn, ?Ht, ?Hd, ?Htwd; apply Htbl.
    + intros r s. by rewrite Ht.
    + intros r d. by rewrite Hd.
    + intros Hnot. by destruct (Hnot _ _ Hin).
  - destruct Hm as (_ & Hr & Hn & Hk & Hother & _).
    destruct (do_call_tables c st) as [(Hn' & _)|(_ & Ht & Hd)]; [lia|].
    assert (∀ r, is_Some (replay_tensors_shapes st !! r) →
                 replay_unique_tensor_num st + 1 ≠ r) as Hfresh1.
    { intros r Hsome <-. apply (tbl_shape_bound _ Htbl) in Hsome. lia. }
    assert (∀ r, is_Some (tensor_device st !! r) →
                 replay_unique_tensor_num st + 1 ≠ r) as Hfresh2.
    { intros r Hsome <-. apply (tbl_device_bound _ Htbl) in Hsome. lia. }
    assert (∀ k r s, (r, s) ∈ shapes_of (do_call c st) k →
              (r = replay_unique_tensor_num st + 1 ∧ s = c_shape c)
              ∨ (r, s) ∈ shapes_of st k) as Hsplit.
    { intros k r s. destruct (decide (k = c_key c)) as [->|Hne].
      - rewrite Hk, Hr.
        intros [[= -> ->]%elem_of_singleton|?]%elem_of_union;
          [by left|by right].
      - rewrite Hother by done. by right. }
    split_and!.
    + split.
      * intros r. rewrite Ht, Hn, lookup_insert. case_decide; [lia|].
        intros ?%(tbl_shape_bound _ Htbl). lia.
      * intros r. rewrite Hd, Hn. destruct (tensor_with_device st).
        -- rewrite lookup_insert. case_decide; [lia|].
           intros ?%(tbl_device_bound _ Htbl). lia.
        -- intros ?%(tbl_device_bound _ Htbl). lia.
      * intros k r s [[-> ->]|Hold]%Hsplit; rewrite Ht.
        -- by rewrite lookup_insert_eq.
        -- pose proof (tbl_shape _ Htbl _ _ _ Hold) as Hs.
           rewrite lookup_insert_ne; [done|]. apply Hfresh1. by eexists.
      * intros k r s Hin. rewrite Htwd. intros Hon. rewrite Hd, Hon.
        apply Hsplit in Hin as [[-> ->]|Hold].
        -- rewrite lookup_insert_eq. by eexists.
        -- pose proof (tbl_device _ Htbl _ _ _ Hold Hon) as Hs.
           rewrite lookup_insert_ne; [done|]. by apply Hfresh2.
    + intros r s Hs. rewrite Ht, lookup_insert_ne; [done|].
      apply Hfresh1. by eexists.
    + intros r d Hs. rewrite Hd. destruct (tensor_with_device st); [|done].
      rewrite lookup_insert_ne; [done|]. apply Hfresh2. by eexists.
    + intros _ Hon. rewrite Hd, Hon, Hr. by rewrite lookup_insert_eq.
Qed.

Lemma resolve_all_tables cs st ids st' :
  resolver_inv st → tables_inv st → resolve_all cs st = (ids, st') →
  tables_inv st' ∧
  (∀ r s, replay_tensors_shapes st !! r = Some s →
          replay_tensors_shapes st' !! r = Some s) ∧
  (∀ r d, tensor_device st !! r = Some d → tensor_device st' !! r = Some d) ∧
  (∀ i c r, cs !! i = Some c → ids !! i = Some r →
     (∀ j, (j < i)%nat → ids !! j ≠ Some r) →
     (∀ k s, (r, s) ∉ shapes_of st k) →
     tensor_with_device st = true →
     tensor_device st' !! r = Some (c_device c)).
Proof.
  revert st ids st'. induction cs as [|c cs IH]; intros st ids st' Hinv Htbl;
    simpl.
  { intros [= <- <-]. split_and!; [done..|]. by intros []. }
  destruct (resolve_all cs (do_call c st)) as [ids1 st1] eqn:E.
  intros [= <- <-].
  destruct (do_call_tables_inv c st Hinv Htbl) as (Htbl1 & Hs1 & Hd1 & Hfirst).
  destruct (IH _ _ _ (do_call_inv c st Hinv) Htbl1 E)
    as (Htbl' & Hs' & Hd' & Hdev).
  destruct (do_call_mapping c st) as ((Htwd & _) & _).
  destruct (do_call_records c st Hinv) as (_ & _ & Hback).
  split_and!; [done|by auto|by auto|].
  intros [|i] c' r; simpl.
  - intros [= <-] [= <-] _ Hnot Hon. apply Hd'. by apply Hfirst.
  - intros Hi Hr Hearlier Hnot Hon. eapply Hdev; [done..| | |by rewrite Htwd].
    + intros j Hj. apply (Hearlier (S j)). lia.
    + intros k s [Hold|(-> & _)]%Hback; [by eapply Hnot|].
      apply (Hearlier 0%nat); [lia|done].
Qed.

(** X7. After a sequence of calls of [add_unique_tensor] on a manager
    without tensors, every id assigned lies above the counter before and at
    most at the counter after, [replay_tensors_shapes] holds for it the
    shape of the call, and in the device-aware mode [tensor_device] holds an
    entry for it, which is the device of the first call that was assigned
    the id: a later occurrence on another device does not change it. *)
Theorem replay_tensor_tables cs st ids st' i c r :
  no_tensors st →
  replay_tensors_shapes st = ∅ → tensor_device st = ∅ →
  resolve_all cs st = (ids, st') →
  cs !! i = Some c → ids !! i = Some r →
  replay_unique_tensor_num st < r ≤ replay_unique_tensor_num st' ∧
  replay_tensors_shapes st' !! r = Some (c_shape c) ∧
  (tensor_with_device st = true →
   is_Some (tensor_device st' !! r) ∧
   ((∀ j, (j < i)%nat → ids !! j ≠ Some r) →
    tensor_device st' !! r = Some (c_device c))).
Proof.
  intros Hno Hs0 Hd0 Hrun Hi Hr.
  assert (∀ k, shapes_of st k = ∅) as Hempty.
  { intros k. destruct Hno as [_ Hts]. unfold shapes_of.
    by rewrite Hts, lookup_empty. }
  assert (tables_inv st) as Htbl.
  { split; intros *; rewrite ?Hs0, ?Hd0, ?Hempty, ?lookup_empty;
      try (by intros [? [=]]); set_solver. }
  pose proof (no_tensors_inv _ Hno) as Hinv.
  destruct (resolve_all_spec _ _ _ _ Hinv Hrun) as (Hinv' & _ & _ & Hin & _).
  destruct (resolve_all_tables _ _ _ _ Hinv Htbl Hrun)
    as (Htbl' & _ & _ & Hdev).
  pose proof (resolve_all_config cs st) as (Htwd & _). rewrite Hrun in Htwd.
  simpl in Htwd.
  pose proof (Hin _ _ _ Hi Hr) as Hpair.
  split_and!.
  - cut (∀ cs st ids st' i r,
           resolve_all cs st = (ids, st') → ids !! i = Some r →
           resolver_inv st → replay_unique_tensor_num st < r
           ∨ ∃ k s, (r, s) ∈ shapes_of st k).
    { intros Hcut.
      destruct (Hcut _ _ _ _ _ _ Hrun Hr Hinv) as [?|(k & s & Hks)]; [done|].
      rewrite Hempty in Hks. set_solver. }
    clear. intros cs. induction cs as [|c cs IH]; intros st ids st' i r; simpl.
    { by intros [= <- <-]. }
    destruct (resolve_all cs (do_call c st)) as [ids1 st1] eqn:E.
    intros [= <- <-] Hr Hinv.
    destruct (do_call_cases c st Hinv) as [(Hin & Hsh & Hn & _)|Hm].
    + destruct i as [|i]; simpl in Hr.
      * injection Hr as <-. right. by eexists _, _.
      * destruct (IH _ _ _ _ _ E Hr (do_call_inv c st Hinv))
          as [?|(k & s & Hks)]; [left; lia|].
        right. exists k, s. by rewrite <- Hsh.
    + destruct Hm as (_ & Ha & Hn & Hk & Hother & _).
      destruct i as [|i]; simpl in Hr.
      * injection Hr as <-. left. lia.
      * destruct (IH _ _ _ _ _ E Hr (do_call_inv c st Hinv))
          as [?|(k & s & Hks)]; [left; lia|].
        destruct (decide (k = c_key c)) as [->|Hne].
        -- rewrite Hk in Hks.
           apply elem_of_union in Hks as [[= -> ->]%elem_of_singleton|Hks];
             [left; lia|right; by eexists _, _].
        -- rewrite Hother in Hks by done. right. by eexists _, _.
  - by eapply inv_bound.
  - by eapply tbl_shape.
  - intros Hon. split.
    + eapply tbl_device; [done..|by rewrite Htwd].
    + intros Hearlier. eapply Hdev; [done..| |done].
      intros k s. rewrite Hempty. set_solver.
Qed.

(** ** The Allocator seeds what the execution reads *)

Lemma alloc_le_refl : Reflexive (@alloc_le Tensor).
Proof. intros a. split; [apply same_but_allocation_refl|done]. Qed.

Lemma alloc_le_trans : Transitive (@alloc_le Tensor).
Proof.
  intros a b c [H1 H2] [H3 H4]. split; [|by auto].
  by eapply same_but_allocation_trans.
Qed.

Lemma seeded_mono node x (a b : State Tensor) :
  seeded node x a → alloc_le a b → seeded node x b.
Proof.
  intros Hs [Hab Hdom] r.
  apply same_but_allocation_fields in Hab as (_ & Hm & Hk & Ht & Hi).
  rewrite Hk, Ht, Hm, Hi. intros. by apply Hdom, Hs.
Qed.

Lemma allocate_input_perm node input_args idx ty t shp st st' :
  allocate_input node input_args (idx, (ty, t, shp)) st = Some st' →
  ∃ r, tensors_mapping st !! (id node, key_of st t, true) = Some r ∧
       (tensor_registry_permanent st' = tensor_registry_permanent st
        ∨ ∃ v, tensor_registry_permanent st'
               = <[r := v]> (tensor_registry_permanent st)) ∧
       (tracked st (key_of st t) = true →
        tensor_registry_permanent st !! r = None →
        r ∈ instantiate st ∨ specialized node →
        ∃ v, tensor_registry_permanent st'
             = <[r := v]> (tensor_registry_permanent st)).
Proof.
  unfold allocate_input.
  destruct (tensors_mapping st !! _) as [r|] eqn:Hr; simpl; [|done].
  intros H. exists r. split; [done|].
  destruct (tracked st (key_of st t)
            && bool_decide (tensor_registry_permanent st !! r = None)
            && (is_embedding_bag node || is_split_embedding node
                || bool_decide (r ∈ instantiate st))) eqn:Eg.
  - assert (∃ v, tensor_registry_permanent st'
                 = <[r := v]> (tensor_registry_permanent st)) as Hins.
    { destruct (is_fbgemm_forward node).
      - destruct (input_args !! idx) as [v|]; simpl in H; [|done].
        injection H as <-. exists v.
        destruct (is_split_embedding node); by destruct st.
      - destruct (TORCH_DTYPES_RNG _) as [rng|]; injection H as <-.
        + exists (PTensor (rng shp)).
          destruct (is_embedding_bag node);
            destruct (String.eqb (name node) "aten::pin_memory"
                      && bool_decide (idx = 0%nat));
            by destruct st.
        + exists PNone. by destruct st. }
    split; [by right|done].
  - injection H as <-. split; [by left|].
    intros Htr Hnone Hwhy. exfalso.
    rewrite Htr, (bool_decide_eq_true_2 _ Hnone) in Eg. simpl in Eg.
    destruct Hwhy as [Hin|[He|Hs]].
    + rewrite (bool_decide_eq_true_2 _ Hin), orb_true_r in Eg. done.
    + rewrite He in Eg. done.
    + rewrite Hs, orb_true_r in Eg. done.
Qed.

Lemma allocate_input_seeds node input_args idx x st st' :
  allocate_input node input_args (idx, x) st = Some st' →
  alloc_le st st' ∧ seeded node x st'.
Proof.
  destruct x as [[ty t] shp]. intros H.
  pose proof (allocate_input_spec _ _ _ _ _ _ _ _ H) as [Hab _].
  pose proof (same_but_allocation_fields _ _ Hab) as (_ & Hm & Hk & Ht & Hi).
  apply allocate_input_perm in H as (r & Hr & Hperm & Hseed).
  assert (∀ r', is_Some (tensor_registry_permanent st !! r') →
                is_Some (tensor_registry_permanent st' !! r')) as Hdom.
  { intros r' Hr'. destruct Hperm as [->|[v ->]]; [done|].
    rewrite lookup_insert. case_decide; [by eexists|done]. }
  split; [by split|].
  intros r0. simpl. rewrite Hk, Ht, Hm, Hi, Hr. intros Htr [= <-] Hwhy.
  destruct (tensor_registry_permanent st !! r) as [v|] eqn:E.
  - apply Hdom. rewrite E. by eexists.
  - destruct (Hseed Htr eq_refl Hwhy) as [v ->].
    rewrite lookup_insert_eq. by eexists.
Qed.

Lemma embedding_bag_offsets_le node st st' :
  embedding_bag_offsets node st = Some st' → alloc_le st st'.
Proof.
  unfold embedding_bag_offsets.
  destruct (is_embedding_bag node); [|intros [= <-]; apply alloc_le_refl].
  destruct (input_shapes node !! 1%nat ≫= _) as [a|]; simpl; [|done].
  destruct (input_shapes node !! 2%nat ≫= _) as [b|]; simpl; [|done].
  case_decide; [done|].
  apply (for_each_invariant (alloc_le st)); [|apply alloc_le_refl].
  intros i s1 s2 _ Hs1 Hstep. eapply alloc_le_trans; [exact Hs1|].
  pose proof (set_offset_same _ _ _ _ _ _ Hstep) as [Hsame _].
  split; [done|]. unfold set_offset in Hstep.
  destruct (inputs node !! 2%nat) as [it|]; simpl in Hstep; [|done].
  destruct (match it with ITensor t => _ | _ => None end) as [t|];
    simpl in Hstep; [|done].
  destruct (tensors_mapping s1 !! _) as [r|]; simpl in Hstep; [|done].
  destruct (tensor_registry_permanent s1 !! r) as [[| t0 | | | | | |]|];
    simpl in Hstep; try done.
  destruct (tensor_setitem t0 i a b) as [t'|]; simpl in Hstep; [|done].
  injection Hstep as <-. intros r' Hr'. destruct s1; simpl in *.
  rewrite lookup_insert. case_decide; [by eexists|done].
Qed.

(** X8. After [allocate_tensors], the Permanent Registry has an entry
    (a value or [None]) for the replay id of every tracked input that is
    must-instantiate or belongs to a specialized node; so the first
    [reset_registry] gives the Working Registry an entry for it and
    [get_inputs] finds it. No entry that was there before is dropped. *)
Theorem must_instantiate_inputs_seeded st st' :
  allocate_tensors st = Some st' →
  (∀ node x r, node ∈ sorted_nodes st → x ∈ get_input_tensors node →
     tracked st (key_of st x.1.2) = true →
     tensors_mapping st !! (id node, key_of st x.1.2, true) = Some r →
     r ∈ instantiate st ∨ specialized node →
     is_Some (tensor_registry_permanent st' !! r)) ∧
  (∀ r, is_Some (tensor_registry_permanent st !! r) →
        is_Some (tensor_registry_permanent st' !! r)).
Proof.
  unfold allocate_tensors. intros Hrun.
  apply (for_each_visits _ alloc_le
           (λ node s, ∀ x, x ∈ get_input_tensors node → seeded node x s))
    in Hrun as [[Hab Hdom] Hall];
    [|apply alloc_le_refl|apply alloc_le_trans| |].
  - split; [|done]. intros node x r Hnode Hx Htr Hm Hwhy.
    apply same_but_allocation_fields in Hab as (_ & Hm' & Hk & Ht & Hi).
    apply (Hall node Hnode x Hx r); by rewrite ?Hk, ?Ht, ?Hm', ?Hi.
  - intros node a b _. unfold allocate_node.
    set (args := if is_fbgemm_forward node then _ else _). intros Hstep.
    destruct (for_each (allocate_input node args) _ a) as [a1|] eqn:E;
      simpl in Hstep; [|done].
    apply embedding_bag_offsets_le in Hstep.
    apply (for_each_visits _ alloc_le
             (λ ix s, seeded node ix.2 s)) in E as [Hle Hq];
      [|apply alloc_le_refl|apply alloc_le_trans| |].
    + split; [by eapply alloc_le_trans|]. intros x Hx.
      apply list_elem_of_lookup in Hx as [i Hi].
      eapply seeded_mono; [|exact Hstep].
      apply (Hq (i, x)). by apply elem_of_lookup_imap_2.
    + intros [idx x] a0 b0 _. apply allocate_input_seeds.
    + intros [idx x] a0 b0. apply seeded_mono.
  - intros node a b Hq Hle x Hx. eapply seeded_mono; [by apply Hq|done].
Qed.

(** ** reset_registry, entry by entry *)

(** X9. The Working Registry that [reset_registry] builds has the ids of
    the Permanent Registry and no other; a [None] stays [None], a value
    whose device is recorded as ["cpu"] (or, without device tags, whose id
    is in [cpu_tensor]) is the permanent value itself, and any other tensor
    is the permanent tensor moved with [.cuda(self.device)]. *)
Theorem reset_registry_entries st st1 :
  reset_registry st = Some st1 →
  dom (tensor_registry st1) = dom (tensor_registry_permanent st) ∧
  (∀ k, tensor_registry_permanent st !! k = Some PNone →
        tensor_registry st1 !! k = Some PNone) ∧
  (∀ k v, tensor_registry_permanent st !! k = Some v →
          (if tensor_with_device st
           then tensor_device st !! k = Some (TStr "cpu")
           else k ∈ cpu_tensor st) →
          tensor_registry st1 !! k = Some v) ∧
  (∀ k t, tensor_registry_permanent st !! k = Some (PTensor t) →
          (if tensor_with_device st
           then ∃ d, tensor_device st !! k = Some d ∧ d ≠ TStr "cpu"
           else k ∉ cpu_tensor st) →
          tensor_registry st1 !! k
          = Some (PTensor (tensor_cuda t (cuda st)))).
Proof.
  intros H.
  pose proof (λ k, reset_registry_lookup st st1 k H) as Hl.
  unfold reset_registry in H. case_decide as Hall; [|done]. clear H.
  split_and!.
  - apply set_eq. intros k. rewrite !elem_of_dom, Hl.
    destruct (tensor_registry_permanent st !! k) as [v|] eqn:E; simpl.
    + split; [by eauto|]. intros _. by apply (Hall k v).
    + split; by intros [? ?].
  - intros k Hk. by rewrite Hl, Hk.
  - intros k v Hk Hcpu. rewrite Hl, Hk. simpl. unfold place.
    destruct v; try done; destruct (tensor_with_device st);
      rewrite ?Hcpu; simpl; by rewrite ?decide_True.
  - intros k t Hk Hdev. rewrite Hl, Hk. simpl.
    destruct (tensor_with_device st).
    + destruct Hdev as (d & -> & Hd). simpl. by rewrite decide_False.
    + by rewrite decide_False.
Qed.

(** X10. [reset_registry] raises when the Permanent Registry holds, under
    an id without recorded device, a value other than [None]
    ([self.tensor_device[k]]), and when a value that is not a tensor is to
    be moved to the device ([v.cuda]). *)
Theorem reset_registry_raises st k v :
  tensor_registry_permanent st !! k = Some v → v ≠ PNone →
  (tensor_with_device st = true ∧ tensor_device st !! k = None)
  ∨ ((∀ t, v ≠ PTensor t) ∧
     if tensor_with_device st
     then ∃ d, tensor_device st !! k = Some d ∧ d ≠ TStr "cpu"
     else k ∉ cpu_tensor st) →
  reset_registry st = None.
Proof.
  intros Hk Hv Hwhy. unfold reset_registry. rewrite decide_False; [done|].
  intros Hall. destruct (Hall k v Hk) as [w Hw]. revert Hw. unfold place.
  destruct Hwhy as [[-> Hd]|[Hnt Hdev]].
  - rewrite Hd. by destruct v.
  - destruct (tensor_with_device st).
    + destruct Hdev as (d & -> & Hd). simpl. rewrite decide_False by done.
      destruct v; try done. by destruct (Hnt t).
    + rewrite decide_False by done.
      destruct v; try done. by destruct (Hnt t).
Qed.

(** ** get_inputs and run_op *)

(** X11. For a node that is not an fbgemm forward node, [get_inputs]
    returns one argument per entry of [node.inputs], in order; the argument
    of a tensor input is the Working Registry entry of the replay id that
    [tensors_mapping] gives its descriptor as an input of the node. *)
Theorem get_inputs_arguments node st ins :
  is_fbgemm_forward node = false →
  get_inputs node st = Some ins →
  length ins = length (inputs node) ∧
  ∀ idx it, inputs node !! idx = Some it → is_tensor node idx = true →
    ∃ t r v, as_tensor it = Some t ∧
             tensors_mapping st !! (id node, key_of st t, true) = Some r ∧
             tensor_registry st !! r = Some v ∧ ins !! idx = Some v.
Proof.
  intros Hf. unfold get_inputs. rewrite Hf. intros H. split.
  - apply length_mapM in H. unfold enumerate in H.
    by rewrite length_imap in H.
  - intros idx it Hit Hten. apply mapM_Some in H.
    destruct (Forall2_lookup_l _ _ _ idx (idx, it) H) as (v & Hv & Hget).
    { unfold enumerate. by rewrite list_lookup_imap, Hit. }
    unfold get_input in Hget. rewrite Hten in Hget.
    destruct (as_tensor it) as [t|]; simpl in Hget; [|done].
    unfold lookup_input in Hget.
    destruct (tensors_mapping st !! _) as [r|] eqn:Hr; simpl in Hget; [|done].
    by exists t, r, v.
Qed.

(** X12. [run_op] on a node with a callable: with an output count of zero
    it leaves the state as it is; it ends the run when the operator raises,
    when [get_inputs] fails, and in particular when the replay id of a
    tensor input has no Working Registry entry. *)
Theorem run_op_edges node iter st (f : Callable Tensor) oc :
  funcs st !! id node = Some (Some f, oc) →
  (oc = 0 → ∀ st', run_op node iter st = Some st' → st' = st) ∧
  (∀ ins ins', get_inputs node st = Some ins →
               patch_inputs node ins = Some ins' → f ins' = None →
               run_op node iter st = None) ∧
  (get_inputs node st = None → run_op node iter st = None) ∧
  (∀ idx t r, is_fbgemm_forward node = false →
              inputs node !! idx = Some (ITensor t) →
              is_tensor node idx = true →
              tensors_mapping st !! (id node, key_of st t, true) = Some r →
              tensor_registry st !! r = None →
              run_op node iter st = None).
Proof.
  intros Hfn. unfold run_op. rewrite Hfn. simpl. split_and!.
  - intros -> st'.
    destruct (get_inputs node st) as [ins|]; simpl; [|done].
    destruct (patch_inputs node ins) as [ins'|]; simpl; [|done].
    unfold call_op. rewrite decide_True by done.
    destruct (f ins'); simpl; [|done]. unfold bind_outputs.
    rewrite zip_with_nil_r. simpl. by intros [= <-].
  - intros ins ins' -> Hp Hf. simpl. rewrite Hp. simpl. unfold call_op.
    rewrite Hf. by destruct (decide (oc = 0)), (decide (oc = 1)).
  - by intros ->.
  - intros idx t r Hfw Hit Hten Hr Hnone.
    assert (get_inputs node st = None) as ->; [|done].
    unfold get_inputs. rewrite Hfw. apply mapM_None, Exists_exists.
    exists (idx, ITensor t). split.
    + unfold enumerate. eapply (elem_of_lookup_imap_2 _ _ _ idx). exact Hit.
    + unfold get_input. rewrite Hten. simpl. unfold lookup_input.
      rewrite Hr. simpl. exact Hnone.
Qed.

(** ** What the execution writes *)

Lemma bound_by_refl nodes a : bound_by nodes a a.
Proof. split; [apply same_but_registry_refl|]. by left. Qed.

Lemma bound_by_trans nodes a b c :
  bound_by nodes a b → bound_by nodes b c → bound_by nodes a c.
Proof.
  intros [Hab H1] [Hbc H2]. split; [by eapply same_but_registry_trans|].
  intros r. destruct (H2 r) as [->|(Hs & Hp & node & x & Hn & Hx & Ht & Hm)];
    [apply H1|].
  right. split; [done|].
  pose proof (same_but_registry_fields _ _ Hab) as (_ & Hi & Hu & _ & Hmap).
  assert (∀ t, key_of b t = key_of a t ∧ tracked b t = tracked a t) as Hk.
  { intros t. rewrite Hab. by destruct a. }
  split.
  - intros Hpa. apply Hp. by eapply protected_same.
  - exists node, x. split_and!; [done..| |].
    + by rewrite <- (proj1 (Hk _)), <- (proj2 (Hk _)).
    + by rewrite <- (proj1 (Hk _)), <- Hmap.
Qed.

Lemma bind_outputs_bound nodes node outputs a b :
  node ∈ nodes → bind_outputs node outputs a = Some b → bound_by nodes a b.
Proof.
  intros Hnode. unfold bind_outputs.
  generalize (elem_of_zip_l (A:=string * tid * shape) (B:=pyval Tensor)).
  intros Hzip.
  assert (∀ xo, xo ∈ zip (get_output_tensors node) outputs →
                xo.1 ∈ get_output_tensors node) as Hin.
  { intros [x o] Hxo. by eapply elem_of_zip_l. }
  clear Hzip. revert Hin. generalize (zip (get_output_tensors node) outputs).
  intros l Hin.
  apply (for_each_invariant (bound_by nodes a)); [|apply bound_by_refl].
  intros xo s1 s2 Hxo Hs1 Hstep. eapply bound_by_trans; [exact Hs1|].
  apply bind_output_spec in Hstep as [->|(r & Ht & Hm & Hu & Hi & ->)];
    [apply bound_by_refl|].
  split; [apply same_but_registry_set|]. intros r'.
  destruct (decide (r' = r)) as [->|Hne].
  - right. split; [destruct s1; simpl; rewrite lookup_insert_eq; by eexists|].
    split; [by intros [?|?]|]. exists node, xo.1. by split_and!; auto.
  - left. destruct s1; simpl. by rewrite lookup_insert_ne.
Qed.

(** X13. The execution loop writes nothing but the Working Registry: after
    any number of iterations every other attribute is as before, no entry of
    the Working Registry is gone, and an entry that differs is the entry of
    the replay id of a tracked output of a node of [sorted_nodes], neither
    unchangeable-intermediate nor must-instantiate. *)
Theorem execution_only_binds_outputs n st st' :
  run_iterations n st = Some st' →
  st' = set_tensor_registry (tensor_registry st') st ∧
  (∀ r, is_Some (tensor_registry st !! r) →
        is_Some (tensor_registry st' !! r)) ∧
  (∀ r, tensor_registry st' !! r ≠ tensor_registry st !! r →
        (r ∉ unchangeable_intermediate_tensors st) ∧ (r ∉ instantiate st) ∧
        ∃ node x, node ∈ sorted_nodes st ∧ x ∈ get_output_tensors node ∧
                  tracked st (key_of st x.1.2) = true ∧
                  tensors_mapping st !! (id node, key_of st x.1.2, false)
                  = Some r).
Proof.
  intros Hrun.
  assert (bound_by (sorted_nodes st) st st') as [Hsame Hb].
  { revert Hrun. unfold run_iterations.
    apply for_each_invariant; [|apply bound_by_refl].
    intros it a b _ Ha. unfold run_iteration.
    pose proof (same_but_registry_fields _ _ (proj1 Ha)) as (Hsn & _).
    rewrite Hsn. intros Hit.
    cut (bound_by (sorted_nodes st) a b);
      [intros; by eapply bound_by_trans|].
    revert Hit. apply for_each_invariant; [|apply bound_by_refl].
    intros node a0 b0 Hnode Ha0 Hop. eapply bound_by_trans; [exact Ha0|].
    apply run_op_bind in Hop as [->|[outs Hop]]; [apply bound_by_refl|].
    by eapply bind_outputs_bound. }
  split_and!; [done| |].
  - intros r Hr. destruct (Hb r) as [->|[? _]]; done.
  - intros r Hne. destruct (Hb r) as [?|(_ & Hp & Hex)]; [done|].
    split_and!; [intros ?; apply Hp; by left|intros ?; apply Hp; by right
                |done].
Qed.

(** X14. [zip] pairs the outputs with the descriptors: the outputs beyond
    the number of output tensors of the node are not bound, and with no
    output or no output tensor the state is left as it is. *)
Theorem bind_outputs_truncates node outputs st :
  bind_outputs node outputs st
  = bind_outputs node (take (length (get_output_tensors node)) outputs) st ∧
  bind_outputs node [] st = Some st ∧
  (get_output_tensors node = [] → bind_outputs node outputs st = Some st).
Proof.
  unfold bind_outputs. split_and!.
  - f_equal. symmetry. apply (zip_with_take_r pair).
  - by rewrite (zip_with_nil_r pair).
  - by intros ->.
Qed.

(** ** generate_code *)

(** X15. The generator and [run_op] agree on where an output goes: for the
    first output tensor of a node, [_generate_output_tensor_str] gives the
    name [tensor_<r>] exactly when [bind_output] writes the output at replay
    id [r], gives ["_"] when [bind_output] leaves the state as it is, and
    raises when [bind_output] raises. *)
Theorem generated_name_matches_binding node x rest out st :
  match _generate_output_tensor_str node (x :: rest) st with
  | None => bind_output node (x, out) st = None
  | Some (nm, rest') =>
      rest' = rest ∧
      ((nm = "_"%string ∧ bind_output node (x, out) st = Some st)
       ∨ ∃ r, nm = ("tensor_" +:+ pretty r)%string ∧
              tensors_mapping st !! (id node, key_of st x.1.2, false)
              = Some r ∧
              bind_output node (x, out) st
              = Some (set_tensor_registry
                        (<[r := out]> (tensor_registry st)) st))
  end.
Proof.
  destruct x as [[ty t] shp]. unfold _generate_output_tensor_str, bind_output.
  simpl. destruct (tracked st (key_of st t)); [|by split; [|left]].
  destruct (tensors_mapping st !! _) as [r|]; simpl; [|done].
  destruct (decide (r ∉ unchangeable_intermediate_tensors st)) as [Hu|Hu].
  - destruct (decide (r ∉ instantiate st)) as [Hi|Hi].
    + rewrite decide_True by done. split; [done|]. right. by exists r.
    + rewrite decide_False by tauto. split; [done|]. by left.
  - rewrite decide_False by tauto. split; [done|]. by left.
Qed.

(** ** The report *)

(** X16. When the skip tally counts the skipped names, the coverage line of
    the report prints the number of nodes of [sorted_nodes] over that number
    plus the tally, the first at most the second; the report raises
    [ZeroDivisionError] exactly when [numIters] is zero or nothing was
    selected and nothing skipped. *)
Theorem coverage_report_defined st :
  actual_skip_nodes_cnt st = Z.of_nat (length (actual_skip_nodes st)) →
  (coverage_report st = None ↔
   numIters st = 0%nat ∨ (sorted_nodes st = [] ∧ actual_skip_nodes st = [])) ∧
  (∀ a b, coverage_report st = Some (a, b) →
          a = Z.of_nat (length (sorted_nodes st)) ∧
          b = Z.of_nat (length (sorted_nodes st)
                        + length (actual_skip_nodes st)) ∧
          0 ≤ a ≤ b ∧ 0 < b).
Proof.
  intros Hcnt. unfold coverage_report. rewrite Hcnt. split.
  - destruct (decide (numIters st = 0%nat)) as [?|Hn]; [split; by auto|].
    case_decide as Hz.
    + split; [|done]. intros _. right.
      destruct (sorted_nodes st), (actual_skip_nodes st); simpl in *;
        (done || lia).
    + split; [done|]. intros [?|[Hs Ha]]; [done|].
      rewrite Hs, Ha in Hz. simpl in Hz. lia.
  - intros a b. destruct (decide (numIters st = 0%nat)); [done|].
    case_decide; [done|]. intros [= <- <-]. lia.
Qed.

(** ** analyze_ops *)

Lemma prefix_app_l (a b s : string) :
  String.prefix (a +:+ b) s = true → String.prefix a s = true.
Proof.
  revert s. induction a as [|c a IH]; intros s; [by destruct s|].
  destruct s as [|c' s]; [done|]. simpl.
  destruct (Ascii.ascii_dec c c'); [apply IH|done].
Qed.

Lemma contains_app_l (a b s : string) :
  contains (a +:+ b) s = true → contains a s = true.
Proof.
  induction s as [|c s IH].
  - cbn [contains]. rewrite !orb_false_r. apply prefix_app_l.
  - cbn [contains]. intros [H|H]%orb_true_iff; apply orb_true_iff.
    + left. by eapply prefix_app_l.
    + right. by apply IH.
Qed.

Lemma tally_cons (P : string → Prop) `{!∀ op, Decision (P op)} op l :
  tally P (op :: l) = tally P [op] + tally P l.
Proof.
  unfold tally. change (op :: l) with ([op] ++ l).
  rewrite filter_app, length_app. lia.
Qed.

Lemma count_op_step c op :
  let c' := count_op c op in
  fused_cnt c' = fused_cnt c + tally in_fused [op] ∧
  aten_up_cnt c' + aten_cnt c'
  = aten_up_cnt c + aten_cnt c + tally in_aten [op] ∧
  custom_cnt c' = custom_cnt c + tally in_custom [op] ∧
  printed c' = printed c ++ filter in_none [op] ∧
  aten_up_cnt c ≤ aten_up_cnt c' ∧ aten_cnt c ≤ aten_cnt c'.
Proof.
  assert (contains "aten::record_stream" op = true →
          contains "aten::" op = true) as Hrs
    by apply (contains_app_l "aten::" "record_stream").
  assert (contains "aten::set_" op = true → contains "aten::" op = true)
    as Hset by apply (contains_app_l "aten::" "set_").
  unfold tally, in_fused, in_aten, in_custom, in_none, count_op.
  rewrite !filter_cons, !filter_nil.
  destruct (contains "fused" op) eqn:E1; simpl;
    [|destruct (contains "aten::record_stream" op
                || contains "aten::set_" op) eqn:E2; simpl;
      [|destruct (contains "aten::" op) eqn:E3; simpl;
        [|destruct (contains "fb::" op || contains "fbgemm::" op) eqn:E4;
          simpl]]];
    rewrite ?orb_true_iff, ?orb_false_iff in *;
    repeat case_decide; simpl; rewrite ?app_nil_r;
    try (exfalso; intuition congruence);
    split_and!; (done || lia).
Qed.

Lemma count_op_fold c l :
  let c' := foldl count_op c l in
  fused_cnt c' = fused_cnt c + tally in_fused l ∧
  aten_up_cnt c' + aten_cnt c'
  = aten_up_cnt c + aten_cnt c + tally in_aten l ∧
  custom_cnt c' = custom_cnt c + tally in_custom l ∧
  printed c' = printed c ++ filter in_none l ∧
  aten_up_cnt c ≤ aten_up_cnt c' ∧ aten_cnt c ≤ aten_cnt c'.
Proof.
  revert c. induction l as [|op l IH]; intros c; simpl.
  { unfold tally. rewrite !filter_nil, app_nil_r. simpl.
    split_and!; (done || lia). }
  destruct (IH (count_op c op)) as (H1 & H2 & H3 & H4 & H5 & H6).
  destruct (count_op_step c op) as (G1 & G2 & G3 & G4 & G5 & G6).
  rewrite (tally_cons in_fused), (tally_cons in_aten), (tally_cons in_custom).
  split_and!; [lia..| |lia|lia].
  rewrite H4, G4, <- (assoc_L (++)). f_equal.
  change (op :: l) with ([op] ++ l). by rewrite filter_app.
Qed.

(** X17. [analyze_ops] sorts every skipped name into one place: the fused
    counter counts the names that contain [fused]; the two aten counters
    together count the names that contain [aten::] and not [fused]; the
    custom counter counts the names with [fb::] or [fbgemm::] and neither
    of the former; the names printed one by one are, in order, the names
    with none of the four markers; so the four counters and the printed
    names add up to the number of skipped names. *)
Theorem analyze_ops_partitions st :
  let c := analyze_ops st in
  let names := actual_skip_nodes st in
  fused_cnt c = tally in_fused names ∧
  aten_up_cnt c + aten_cnt c = tally in_aten names ∧
  0 ≤ aten_up_cnt c ∧ 0 ≤ aten_cnt c ∧
  custom_cnt c = tally in_custom names ∧
  printed c = filter in_none names ∧
  fused_cnt c + aten_up_cnt c + aten_cnt c + custom_cnt c
  + Z.of_nat (length (printed c))
  = Z.of_nat (length names).
Proof.
  intros c names.
  pose proof (count_op_fold (mkCounts 0 0 0 0 []) names) as H.
  change (foldl count_op _ names) with c in H. cbn [fused_cnt aten_up_cnt 
    aten_cnt custom_cnt printed app] in H. cbv zeta in H.
  destruct H as (H1 & H2 & H3 & H4 & H5 & H6).
  split_and!; [lia..|done|].
  rewrite H1, H3, H4.
  assert (aten_up_cnt c + aten_cnt c = tally in_aten names) as Ha by lia.
  transitivity (tally in_fused names + tally in_aten names
                + tally in_custom names + tally in_none names);
    [unfold tally in *; lia|].
  clear. unfold tally. induction names as [|op l IH]; [done|].
  unfold in_fused, in_aten, in_custom, in_none in *.
  destruct (contains "fused" op) eqn:E1;
    destruct (contains "aten::" op) eqn:E2;
    destruct (contains "fb::" op) eqn:E3;
    destruct (contains "fbgemm::" op) eqn:E4;
    repeat (first [rewrite (filter_cons_True _ op) by (rewrite ?E1, ?E2, ?E3, ?E4; tauto)
                  |rewrite (filter_cons_False _ op) by (rewrite ?E1, ?E2, ?E3, ?E4; intuition congruence)]);
    simpl length; lia.
Qed.

(** ** The dtype key of allocate_tensors *)

Lemma list_ascii_of_string_app (a b : string) :
  String.list_ascii_of_string (a +:+ b)
  = String.list_ascii_of_string a ++ String.list_ascii_of_string b.
Proof. induction a as [|c a IH]; [done|]. simpl. by rewrite IH. Qed.

Lemma lstrip_list_prefix chars p l :
  Forall (λ c, in_chars c chars = true) p →
  lstrip_list chars (p ++ l) = lstrip_list chars l.
Proof. induction 1 as [|c p Hc _ IH]; [done|]. simpl. by rewrite Hc. Qed.

Lemma lstrip_list_stop chars l c k :
  in_chars c chars = false →
  lstrip_list chars (l ++ c :: k) = lstrip_list chars l ++ c :: k.
Proof.
  intros Hc. induction l as [|c' l IH]; simpl; [by rewrite Hc|].
  by destruct (in_chars c' chars).
Qed.

Lemma lstrip_list_length chars l :
  (length (lstrip_list chars l) ≤ length l)%nat.
Proof.
  induction l as [|c l IH]; simpl; [done|].
  destruct (in_chars c chars); simpl; lia.
Qed.

Lemma lstrip_list_id chars l :
  lstrip_list chars l = l ↔ ∀ c, head l = Some c → in_chars c chars = false.
Proof.
  destruct l as [|c l]; simpl; [done|].
  destruct (in_chars c chars) eqn:Hc.
  - split.
    + intros E. pose proof (lstrip_list_length chars l) as Hl.
      rewrite E in Hl. simpl in Hl. lia.
    + intros H. specialize (H c eq_refl). congruence.
  - split; [|done]. by intros _ ? [= <-].
Qed.

(** X18. The key looked up in [TORCH_DTYPES_RNG] is made with [lstrip] and
    [rstrip], which strip characters of a set, not a prefix and a suffix:
    for the type [Tensor(d)] the key is [d] without its leading characters
    among [T e n s o r (] and without its trailing [)]. It is [d] exactly
    when [d] starts with none of these characters and does not end in
    [)]. *)
Theorem dtype_key_strips_characters (d : string) :
  let key := rstrip ")" (lstrip "Tensor(" ("Tensor(" +:+ d +:+ ")")) in
  let l := String.list_ascii_of_string d in
  key = rstrip ")" (lstrip "Tensor(" d) ∧
  (key = d ↔
   (∀ c, head l = Some c → in_chars c "Tensor(" = false) ∧
   (∀ c, last l = Some c → in_chars c ")" = false)).
Proof.
  intros key l.
  assert (key = rstrip ")" (lstrip "Tensor(" d)) as Hkey.
  { unfold key, rstrip, lstrip. f_equal. f_equal.
    rewrite !String.list_ascii_of_string_of_list_ascii.
    rewrite !list_ascii_of_string_app. fold l.
    rewrite lstrip_list_prefix
      by (apply Forall_forall; intros c Hc; vm_compute in Hc;
          set_unfold; by destruct_or!; subst).
    cbn [String.list_ascii_of_string].
    rewrite lstrip_list_stop by done.
    rewrite reverse_snoc. simpl. done. }
  split; [done|]. rewrite Hkey. unfold rstrip, lstrip. fold l.
  rewrite String.list_ascii_of_string_of_list_ascii.
  rewrite <- (String.string_of_list_ascii_of_string d) at 1. fold l.
  set (S := "Tensor("%string). set (R := ")"%string).
  assert (∀ a b, String.string_of_list_ascii a = String.string_of_list_ascii b
                 ↔ a = b) as Hinj.
  { intros a b. split; [|by intros ->]. intros E.
    by rewrite <- (String.list_ascii_of_string_of_list_ascii a), E,
      String.list_ascii_of_string_of_list_ascii. }
  rewrite Hinj. clear Hinj Hkey key.
  assert (∀ k, reverse (lstrip_list R (reverse k)) = k ↔
               ∀ c, last k = Some c → in_chars c R = false) as Hr.
  { intros k. split.
    - intros E c Hc. apply (f_equal reverse) in E.
      rewrite reverse_involutive in E.
      apply (proj1 (lstrip_list_id R (reverse k)) E). by rewrite head_reverse.
    - intros H.
      assert (lstrip_list R (reverse k) = reverse k) as ->.
      { apply lstrip_list_id. intros c. rewrite head_reverse. apply H. }
      apply reverse_involutive. }
  split.
  - intros E.
    assert (lstrip_list S l = l) as El.
    { apply (f_equal length) in E.
      rewrite length_reverse in E.
      pose proof (lstrip_list_length R (reverse (lstrip_list S l))) as H1.
      rewrite length_reverse in H1.
      pose proof (lstrip_list_length S l) as H2.
      assert (length (lstrip_list S l) = length l) as Hlen by lia.
      clear -Hlen. destruct l as [|c l]; [done|]. simpl in *.
      destruct (in_chars c S); [|done].
      pose proof (lstrip_list_length S l). lia. }
    split; [by apply lstrip_list_id|]. apply Hr. by rewrite El in E.
  - intros [H1 H2]. apply lstrip_list_id in H1. rewrite H1. by apply Hr.
Qed.

End Further.

(** * The properties on concrete traces *)

Ltac by_compute := vm_compute; reflexivity.
Ltac by_decide := apply (bool_decide_unpack _); vm_compute; exact I.

(** ** reset_registry *)

Lemma reset_registry_idempotent_witness :
  reset_registry (demo_allocated trace_chain) = Some (demo_ready trace_chain) ∧
  tensor_registry_permanent (demo_ready trace_chain)
  = tensor_registry_permanent (demo_allocated trace_chain) ∧
  (∀ reg, reset_registry (set_tensor_registry reg (demo_ready trace_chain))
          = Some (demo_ready trace_chain)) ∧
  (∀ n, reset_n (S n) (demo_allocated trace_chain)
        = Some (demo_ready trace_chain)).
Proof.
  assert (reset_registry (demo_allocated trace_chain)
          = Some (demo_ready trace_chain)) as H by by_compute.
  split; [exact H|].
  destruct (reset_registry_idempotent _ _ H) as (H1 & _ & H3 & H4).
  by split_and!.
Defined.

(** ** The execution loop *)

Lemma protected_entry_kept_witness :
  protected (demo_ready trace_rewrite) 1 ∧
  bind_output node_rewrite demo_output (demo_ready trace_rewrite)
  = Some (demo_ready trace_rewrite) ∧
  run_iterations 2 (demo_ready trace_rewrite)
  = Some (demo_run trace_rewrite 2) ∧
  tensor_registry (demo_run trace_rewrite 2) !! 1
  = tensor_registry (demo_ready trace_rewrite) !! 1.
Proof.
  assert (protected (demo_ready trace_rewrite) 1) as Hp
    by (right; by_decide).
  assert (bind_output node_rewrite demo_output (demo_ready trace_rewrite)
          = Some (demo_ready trace_rewrite)) as Hb by by_compute.
  assert (run_iterations 2 (demo_ready trace_rewrite)
          = Some (demo_run trace_rewrite 2)) as Hrun by by_compute.
  split_and!; [exact Hp|exact Hb|exact Hrun|].
  apply (protected_entry_kept _ _ _ _ _ _ _ Hp Hb Hrun).
Defined.

(** Tensor 10 is consumed by node 2 before node 3 produces it: its replay
    id 1 is must-instantiate and not unchangeable-intermediate, the output
    of node 3 is bound to it, and the binding leaves the seeded value in the
    Working Registry. *)
Lemma seeded_entry_kept_on_later_write :
  preprocess_graph trace_rewrite demo_init = Some (demo_ready trace_rewrite) ∧
  1 ∈ instantiate (demo_ready trace_rewrite) ∧
  (1 ∉ unchangeable_intermediate_tensors (demo_ready trace_rewrite)) ∧
  get_output_tensors node_rewrite = [demo_output.1] ∧
  tensors_mapping (demo_ready trace_rewrite) !! (3, demo_key 10, false)
  = Some 1 ∧
  ∃ st', bind_outputs node_rewrite [demo_output.2] (demo_ready trace_rewrite)
         = Some st' ∧
         tensor_registry st' !! 1 = Some (PTensor ("seed", "cuda")%string) ∧
         tensor_registry st' !! 1 ≠ Some demo_output.2.
Proof.
  split_and!; [by_compute|by_decide|by_decide|by_compute|by_compute|].
  exists (demo_ready trace_rewrite).
  split_and!; [by_compute|by_compute|].
  intros E. vm_compute in E. discriminate E.
Qed.

Lemma seeded_entry_not_overwritten_witness :
  preprocess_graph trace_rewrite demo_init = Some (demo_ready trace_rewrite) ∧
  1 ∈ instantiate (demo_ready trace_rewrite) ∧
  run_iterations 2 (demo_ready trace_rewrite)
  = Some (demo_run trace_rewrite 2) ∧
  tensor_registry (demo_run trace_rewrite 2) !! 1
  = tensor_registry_permanent (demo_ready trace_rewrite) !! 1
    ≫= place (demo_ready trace_rewrite) 1.
Proof.
  assert (preprocess_graph trace_rewrite demo_init
          = Some (demo_ready trace_rewrite)) as Hpre by by_compute.
  assert (1 ∈ instantiate (demo_ready trace_rewrite)) as Hin by by_decide.
  assert (run_iterations 2 (demo_ready trace_rewrite)
          = Some (demo_run trace_rewrite 2)) as Hrun by by_compute.
  split_and!; [exact Hpre|exact Hin|exact Hrun|].
  apply (seeded_entry_not_overwritten _ _ _ _ _ _ Hpre Hin Hrun).
Defined.



(** ** The flattener *)

Lemma sorted_nodes_increasing_witness :
  extract_subgraph trace_unordered demo_init
  = Some (demo_flat trace_unordered) ∧
  sorted_nodes demo_init = [] ∧
  NoDup (id <$> selected (skip_node_names demo_init) trace_unordered) ∧
  id <$> selected (skip_node_names demo_init) trace_unordered = [5; 4; 3] ∧
  id <$> sorted_nodes (demo_flat trace_unordered) = [3; 4; 5] ∧
  StronglySorted Z.lt (id <$> sorted_nodes (demo_flat trace_unordered)).
Proof.
  assert (extract_subgraph trace_unordered demo_init
          = Some (demo_flat trace_unordered)) as Hrun by by_compute.
  assert (sorted_nodes demo_init = []) as Hnil by reflexivity.
  assert (NoDup (id <$> selected (skip_node_names demo_init) trace_unordered))
    as Hnd by by_decide.
  split_and!; [exact Hrun|exact Hnil|exact Hnd|by_compute|by_compute|].
  apply (sorted_nodes_increasing _ _ _ Hrun Hnil Hnd).
Defined.

(** The operator of node 4 is not resolved: the node is recorded as skipped
    and is the third node of [sorted_nodes]. *)
Lemma unresolved_node_in_sorted_nodes :
  extract_subgraph trace_rewrite demo_init = Some (demo_flat trace_rewrite) ∧
  is_qualified node_foo = true ∧
  (build_torchscript_func node_foo).1 = None ∧
  actual_skip_nodes (demo_flat trace_rewrite) = ["aten::foo"%string] ∧
  sorted_nodes (demo_flat trace_rewrite) !! 2%nat = Some node_foo ∧
  node_foo ∈ sorted_nodes (demo_flat trace_rewrite).
Proof.
  split_and!; [by_compute|by_compute|by_compute|by_compute|by_compute|].
  apply list_elem_of_lookup. exists 2%nat. by_compute.
Qed.

Lemma unresolved_node_skipped_at_run_witness :
  extract_subgraph trace_rewrite demo_init = Some (demo_flat trace_rewrite) ∧
  node_foo ∈ selected (skip_node_names demo_init) trace_rewrite ∧
  unresolved node_foo ∧
  NoDup (id <$> selected (skip_node_names demo_init) trace_rewrite) ∧
  node_foo ∈ sorted_nodes (demo_flat trace_rewrite) ∧
  funcs (demo_flat trace_rewrite) !! id node_foo = Some (None, 1) ∧
  (∀ iter s, funcs s = funcs (demo_flat trace_rewrite) →
             run_op node_foo iter s = Some s).
Proof.
  assert (extract_subgraph trace_rewrite demo_init
          = Some (demo_flat trace_rewrite)) as Hrun by by_compute.
  assert (node_foo ∈ selected (skip_node_names demo_init) trace_rewrite)
    as Hsel by (apply list_elem_of_lookup; exists 2%nat; by_compute).
  assert (unresolved node_foo) as Hun by (split_and!; by_compute).
  assert (NoDup (id <$> selected (skip_node_names demo_init) trace_rewrite))
    as Hnd by by_decide.
  split_and!; [exact Hrun|exact Hsel|exact Hun|exact Hnd|..];
    apply (unresolved_node_skipped_at_run _ _ _ _ Hrun Hsel Hun Hnd).
Defined.

(** ** The Allocator *)

(** The ids of the three inputs of the [aten::embedding_bag] node are
    flagged; the id of its output, which node 3 consumes, is not, and the
    first iteration binds the output of the operator to it. *)
Lemma embedding_output_not_flagged :
  preprocess_graph trace_embedding demo_init
  = Some (demo_ready trace_embedding) ∧
  is_embedding_bag node_embedding = true ∧
  get_output_tensors node_embedding
  = [("Tensor(float)"%string, demo_tid 13, [3; 4])] ∧
  tensors_mapping (demo_ready trace_embedding) !! (2, demo_key 13, false)
  = Some 4 ∧
  unchangeable_intermediate_tensors (demo_ready trace_embedding)
  = {[1; 2; 3]} ∧
  (4 ∉ unchangeable_intermediate_tensors (demo_ready trace_embedding)) ∧
  tensor_registry (demo_ready trace_embedding) !! 4 = None ∧
  tensor_registry (demo_run trace_embedding 1) !! 4
  = Some (PTensor ("aten::embedding_bag", "cuda")%string).
Proof.
  split_and!; [by_compute|by_compute|by_compute|by_compute|by_decide
              |by_decide|by_compute|by_compute].
Qed.

Lemma specialized_inputs_flagged_witness :
  allocate_tensors (demo_analyzed trace_embedding)
  = Some (demo_allocated trace_embedding) ∧
  unchangeable_intermediate_tensors (demo_allocated trace_embedding)
  = {[1; 2; 3]} ∧
  ∀ r, r ∈ unchangeable_intermediate_tensors (demo_allocated trace_embedding) →
       r ∈ unchangeable_intermediate_tensors (demo_analyzed trace_embedding) ∨
       ∃ node x,
         node ∈ sorted_nodes (demo_analyzed trace_embedding) ∧
         specialized node ∧ x ∈ get_input_tensors node ∧
         tensors_mapping (demo_analyzed trace_embedding)
           !! (id node, key_of (demo_analyzed trace_embedding) x.1.2, true)
         = Some r.
Proof.
  assert (allocate_tensors (demo_analyzed trace_embedding)
          = Some (demo_allocated trace_embedding)) as Hrun by by_compute.
  split_and!; [exact Hrun|by_decide|].
  apply (specialized_inputs_flagged _ _ Hrun).
Defined.

(** ** The identity resolver *)

Lemma one_replay_tensor_per_shape_witness :
  no_tensors demo_init ∧
  resolve_all demo_calls demo_init
  = ([1; 2; 1], (resolve_all demo_calls demo_init).2) ∧
  size (ids_assigned demo_calls [1; 2; 1] (demo_key 1)) = 2%nat ∧
  ∀ k, size (ids_assigned demo_calls [1; 2; 1] k)
       = size (shapes_seen demo_calls k) ∧
       size (shapes_of (resolve_all demo_calls demo_init).2 k)
       = size (shapes_seen demo_calls k).
Proof.
  assert (no_tensors (demo_init : State demo_tensor)) as Hno
    by (split; reflexivity).
  assert (resolve_all demo_calls demo_init
          = ([1; 2; 1], (resolve_all demo_calls demo_init).2)) as Hrun
    by by_compute.
  split_and!; [exact Hno|exact Hrun|by_compute|].
  apply (one_replay_tensor_per_shape _ _ _ _ Hno Hrun).
Defined.

Lemma replay_ids_shared_across_roles_witness :
  no_tensors (demo_flat trace_rewrite) ∧
  for_each resolve_node (sorted_nodes (demo_flat trace_rewrite))
    (demo_flat trace_rewrite)
  = Some (resolve_all (pass_calls (demo_flat trace_rewrite)
                         (sorted_nodes (demo_flat trace_rewrite)))
            (demo_flat trace_rewrite)).2 ∧
  pass_calls (demo_flat trace_rewrite) (sorted_nodes (demo_flat trace_rewrite))
    !! 0%nat
  = Some (mkCall 2 (demo_key 10) [4] true (TStr "cuda:0")) ∧
  pass_calls (demo_flat trace_rewrite) (sorted_nodes (demo_flat trace_rewrite))
    !! 3%nat
  = Some (mkCall 3 (demo_key 10) [4] false (TStr "cuda:0")) ∧
  (resolve_all (pass_calls (demo_flat trace_rewrite)
                  (sorted_nodes (demo_flat trace_rewrite)))
     (demo_flat trace_rewrite)).1
  = [1; 2; 3; 1; 2; 3] ∧
  (([4] : shape) = [4] ↔ (1 : Z) = 1).
Proof.
  assert (no_tensors (demo_flat trace_rewrite)) as Hno
    by (split; by_compute).
  assert (for_each resolve_node (sorted_nodes (demo_flat trace_rewrite))
            (demo_flat trace_rewrite)
          = Some (resolve_all (pass_calls (demo_flat trace_rewrite)
                                 (sorted_nodes (demo_flat trace_rewrite)))
                    (demo_flat trace_rewrite)).2) as Hpass by by_compute.
  assert (pass_calls (demo_flat trace_rewrite)
            (sorted_nodes (demo_flat trace_rewrite)) !! 0%nat
          = Some (mkCall 2 (demo_key 10) [4] true (TStr "cuda:0"))) as Hi
    by by_compute.
  assert (pass_calls (demo_flat trace_rewrite)
            (sorted_nodes (demo_flat trace_rewrite)) !! 3%nat
          = Some (mkCall 3 (demo_key 10) [4] false (TStr "cuda:0"))) as Hj
    by by_compute.
  assert ((resolve_all (pass_calls (demo_flat trace_rewrite)
                          (sorted_nodes (demo_flat trace_rewrite)))
             (demo_flat trace_rewrite)).1 !! 0%nat = Some 1) as Hri
    by by_compute.
  assert ((resolve_all (pass_calls (demo_flat trace_rewrite)
                          (sorted_nodes (demo_flat trace_rewrite)))
             (demo_flat trace_rewrite)).1 !! 3%nat = Some 1) as Hrj
    by by_compute.
  split_and!; [exact Hno|exact Hpass|exact Hi|exact Hj|by_compute|].
  apply (replay_ids_shared_across_roles _ _ _ _ _ _ _ _
           Hno Hpass Hi Hj Hri Hrj eq_refl eq_refl eq_refl).
Defined.

(** ** The lifetime analyzer *)

(** Replay id 1 is consumed by node 2 before node 3 produces it: it is in
    the must-instantiate set and in the set of the ids produced by
    execution. *)
Lemma instantiate_and_produced_overlap :
  extract_subgraph trace_rewrite demo_init = Some (demo_flat trace_rewrite) ∧
  analyze_tensors_sets (demo_flat trace_rewrite)
  = Some (demo_sets trace_rewrite) ∧
  instantiate (demo_sets trace_rewrite).2 = {[1; 3]} ∧
  (demo_sets trace_rewrite).1 = {[1; 2; 3]} ∧
  ¬ (instantiate (demo_sets trace_rewrite).2 ## (demo_sets trace_rewrite).1).
Proof.
  split_and!; [by_compute|by_compute|by_decide|by_decide|].
  intros Hdisj. apply (Hdisj 1); by_decide.
Qed.

Lemma mapped_ids_classified_witness :
  tensors_mapping (demo_flat trace_rewrite) = ∅ ∧
  instantiate (demo_flat trace_rewrite) = ∅ ∧
  analyze_tensors_sets (demo_flat trace_rewrite)
  = Some ((demo_sets trace_rewrite).1, (demo_sets trace_rewrite).2) ∧
  ∀ r, r ∈ instantiate (demo_sets trace_rewrite).2
       ∨ r ∈ (demo_sets trace_rewrite).1 ↔
       ∃ t, tensors_mapping (demo_sets trace_rewrite).2 !! t = Some r.
Proof.
  assert (tensors_mapping (demo_flat trace_rewrite) = ∅) as Hmap
    by by_compute.
  assert (instantiate (demo_flat trace_rewrite) = ∅) as Hinst by by_compute.
  assert (analyze_tensors_sets (demo_flat trace_rewrite)
          = Some ((demo_sets trace_rewrite).1, (demo_sets trace_rewrite).2))
    as Hrun by by_compute.
  split_and!; [exact Hmap|exact Hinst|exact Hrun|].
  apply (mapped_ids_classified _ _ _ Hmap Hinst Hrun).
Defined.

(** ** Further properties *)

Lemma skip_tally_counts_names_witness :
  extract_subgraph trace_rewrite demo_init = Some (demo_flat trace_rewrite) ∧
  actual_skip_nodes (demo_flat trace_rewrite) = ["aten::foo"%string] ∧
  actual_skip_nodes_cnt (demo_flat trace_rewrite)
  = Z.of_nat (length (actual_skip_nodes (demo_flat trace_rewrite))) ∧
  actual_skip_nodes demo_init
    `prefix_of` actual_skip_nodes (demo_flat trace_rewrite).
Proof.
  assert (extract_subgraph trace_rewrite demo_init
          = Some (demo_flat trace_rewrite)) as Hrun by by_compute.
  split_and!; [exact Hrun|by_compute|..];
    apply (skip_tally_counts_names _ _ _ Hrun); reflexivity.
Defined.

Lemma funcs_entry_for_sorted_nodes_witness :
  extract_subgraph trace_rewrite demo_init = Some (demo_flat trace_rewrite) ∧
  node_foo ∈ sorted_nodes (demo_flat trace_rewrite) ∧
  is_Some (funcs (demo_flat trace_rewrite) !! id node_foo).
Proof.
  assert (extract_subgraph trace_rewrite demo_init
          = Some (demo_flat trace_rewrite)) as Hrun by by_compute.
  assert (node_foo ∈ sorted_nodes (demo_flat trace_rewrite)) as Hin
    by (apply list_elem_of_lookup; exists 2%nat; by_compute).
  split_and!; [exact Hrun|exact Hin|].
  apply (funcs_entry_for_sorted_nodes _ _ _ _ Hrun); [|exact Hin].
  intros m Hm. vm_compute in Hm. by apply elem_of_nil in Hm.
Defined.

Lemma dependency_counts_inputs_witness :
  extract_subgraph trace_chain demo_init = Some (demo_flat trace_chain) ∧
  occurrences (demo_key 11)
    (input_keys demo_init (selected (skip_node_names demo_init) trace_chain))
  = 1 ∧
  dependency_permanent (demo_flat trace_chain) !! demo_key 11 = Some 1 ∧
  dependency_permanent (demo_flat trace_chain) !! demo_key 12 = None.
Proof.
  assert (extract_subgraph trace_chain demo_init
          = Some (demo_flat trace_chain)) as Hrun by by_compute.
  split_and!; [exact Hrun|by_compute|..].
  - rewrite (dependency_counts_inputs _ _ _ (demo_key 11) Hrun eq_refl).
    by_compute.
  - rewrite (dependency_counts_inputs _ _ _ (demo_key 12) Hrun eq_refl).
    by_compute.
Defined.

Lemma build_func_pairs_backward_witness :
  (∃ s1 s2,
     @build_func _ fbgemm_helpers node_lookup demo_init
     = Some (Some (demo_op "fwd"), 1, s1) ∧
     @build_func _ fbgemm_helpers node_lookup_backward s1
     = Some (Some (demo_op "bwd"), 1, s2) ∧
     fbgemm_backward_ops s2 = [] ∧ actual_skip_nodes s2 = []) ∧
  @build_func _ fbgemm_helpers node_lookup_backward demo_init = None.
Proof.
  destruct (@build_func_pairs_backward _ fbgemm_helpers
              node_lookup node_lookup_backward demo_init)
    as [H1 H2]; [by_compute..|].
  split; [exact H1|apply H2; reflexivity].
Defined.

Lemma replay_tensor_tables_witness :
  resolve_all demo_calls demo_init
  = ([1; 2; 1], (resolve_all demo_calls demo_init).2) ∧
  replay_tensors_shapes (resolve_all demo_calls demo_init).2 !! 2
  = Some [16] ∧
  tensor_device (resolve_all demo_calls demo_init).2 !! 2
  = Some (TStr "cuda:0").
Proof.
  assert (resolve_all demo_calls demo_init
          = ([1; 2; 1], (resolve_all demo_calls demo_init).2)) as Hrun
    by by_compute.
  destruct (replay_tensor_tables demo_calls demo_init [1; 2; 1]
              (resolve_all demo_calls demo_init).2 1
              (mkCall 9 (demo_key 1) [16] true (TStr "cuda:0")) 2)
    as (_ & Hshape & Hdev);
    [split; reflexivity|reflexivity|reflexivity|exact Hrun|reflexivity
    |reflexivity|].
  split_and!; [exact Hrun|exact Hshape|].
  apply Hdev; [reflexivity|].
  intros [|j] Hj; [intros E; vm_compute in E; discriminate E|lia].
Defined.

Lemma must_instantiate_inputs_seeded_witness :
  allocate_tensors (demo_analyzed trace_embedding)
  = Some (demo_allocated trace_embedding) ∧
  (∀ r, r ∈ instantiate (demo_analyzed trace_embedding) →
        tensors_mapping (demo_analyzed trace_embedding)
          !! (2, demo_key 10, true) = Some r →
        is_Some (tensor_registry_permanent (demo_allocated trace_embedding)
                   !! r)) ∧
  tensors_mapping (demo_analyzed trace_embedding) !! (2, demo_key 10, true)
  = Some 1.
Proof.
  assert (allocate_tensors (demo_analyzed trace_embedding)
          = Some (demo_allocated trace_embedding)) as Hrun by by_compute.
  split_and!; [exact Hrun| |by_compute].
  intros r Hr Hm.
  apply (proj1 (must_instantiate_inputs_seeded _ _ Hrun) node_embedding
           ("Tensor(float)"%string, demo_tid 10, [10; 4]) r).
  - apply list_elem_of_lookup. exists 0%nat. by_compute.
  - apply list_elem_of_lookup. exists 0%nat. by_compute.
  - by_compute.
  - exact Hm.
  - left. exact Hr.
Defined.

Lemma reset_registry_entries_witness :
  reset_registry (demo_allocated trace_chain) = Some (demo_ready trace_chain) ∧
  dom (tensor_registry (demo_ready trace_chain))
  = dom (tensor_registry_permanent (demo_allocated trace_chain)) ∧
  tensor_registry_permanent (demo_allocated trace_chain) !! 1
  = Some (PTensor ("seed", "cpu")%string) ∧
  tensor_registry (demo_ready trace_chain) !! 1
  = Some (PTensor ("seed", "cuda")%string).
Proof.
  assert (reset_registry (demo_allocated trace_chain)
          = Some (demo_ready trace_chain)) as Hrun by by_compute.
  assert (tensor_registry_permanent (demo_allocated trace_chain) !! 1
          = Some (PTensor ("seed", "cpu")%string)) as Hperm by by_compute.
  assert (tensor_with_device (demo_allocated trace_chain) = true) as Hflag
    by by_compute.
  assert (tensor_device (demo_allocated trace_chain) !! 1
          = Some (TStr "cuda:0")) as Hdev by by_compute.
  destruct (reset_registry_entries _ _ Hrun) as (Hdom & _ & _ & Hcuda).
  specialize (Hcuda 1 _ Hperm). rewrite Hflag in Hcuda.
  split_and!; [exact Hrun|exact Hdom|exact Hperm|].
  etrans; [apply Hcuda|by_compute].
  exists (TStr "cuda:0"). split; [exact Hdev|intros E; discriminate E].
Defined.

Lemma reset_registry_raises_witness :
  tensor_registry_permanent demo_no_device !! 1
  = Some (PTensor ("seed", "cpu")%string) ∧
  tensor_with_device demo_no_device = true ∧
  tensor_device demo_no_device !! 1 = None ∧
  reset_registry demo_no_device = None.
Proof.
  assert (tensor_registry_permanent demo_no_device !! 1
          = Some (PTensor ("seed", "cpu")%string)) as Hperm by by_compute.
  assert (tensor_with_device demo_no_device = true) as Hflag by by_compute.
  assert (tensor_device demo_no_device !! 1 = None) as Hdev by by_compute.
  split_and!; [exact Hperm|exact Hflag|exact Hdev|].
  apply (reset_registry_raises _ 1 _ Hperm).
  - intros E. discriminate E.
  - left. split; [exact Hflag|exact Hdev].
Defined.

Lemma get_inputs_arguments_witness :
  get_inputs (demo_unary 2 "aten::relu" 10 11) (demo_ready trace_chain)
  = Some [PTensor ("seed", "cuda")%string] ∧
  ∃ t r v,
    as_tensor (ITensor (demo_tid 10)) = Some t ∧
    tensors_mapping (demo_ready trace_chain)
      !! (2, key_of (demo_ready trace_chain) t, true) = Some r ∧
    tensor_registry (demo_ready trace_chain) !! r = Some v ∧
    [PTensor ("seed", "cuda")%string] !! 0%nat = Some v.
Proof.
  assert (get_inputs (demo_unary 2 "aten::relu" 10 11) (demo_ready trace_chain)
          = Some [PTensor ("seed", "cuda")%string]) as Hrun by by_compute.
  assert (is_fbgemm_forward (demo_unary 2 "aten::relu" 10 11) = false)
    as Hfwd by reflexivity.
  split; [exact Hrun|].
  apply (proj2 (get_inputs_arguments _ _ _ Hfwd Hrun)
           0%nat (ITensor (demo_tid 10))); reflexivity.
Defined.

Lemma run_op_edges_witness :
  funcs demo_cleared !! 2 = Some (Some (demo_op "aten::relu"), 1) ∧
  tensors_mapping demo_cleared !! (2, demo_key 10, true) = Some 1 ∧
  tensor_registry demo_cleared !! 1 = None ∧
  run_op (demo_unary 2 "aten::relu" 10 11) 0 demo_cleared = None.
Proof.
  assert (funcs demo_cleared !! id (demo_unary 2 "aten::relu" 10 11)
          = Some (Some (demo_op "aten::relu"), 1)) as Hf by by_compute.
  assert (tensors_mapping demo_cleared !! (2, demo_key 10, true) = Some 1)
    as Hm by by_compute.
  assert (tensor_registry demo_cleared !! 1 = None) as Hreg by by_compute.
  split_and!; [exact Hf|exact Hm|exact Hreg|].
  destruct (run_op_edges _ 0%nat _ _ _ Hf) as (_ & _ & _ & Hmiss).
  apply (Hmiss 0%nat (demo_tid 10) 1); [reflexivity..|exact Hm|exact Hreg].
Defined.

Lemma execution_only_binds_outputs_witness :
  run_iterations 2 (demo_ready trace_chain) = Some (demo_run trace_chain 2) ∧
  demo_run trace_chain 2
  = set_tensor_registry (tensor_registry (demo_run trace_chain 2))
      (demo_ready trace_chain) ∧
  tensor_registry (demo_ready trace_chain) !! 2 = None ∧
  tensor_registry (demo_run trace_chain 2) !! 2
  = Some (PTensor ("aten::relu", "cuda")%string) ∧
  (2 ∉ instantiate (demo_ready trace_chain)) ∧
  ∃ node x,
    node ∈ sorted_nodes (demo_ready trace_chain) ∧
    x ∈ get_output_tensors node ∧
    tracked (demo_ready trace_chain) (key_of (demo_ready trace_chain) x.1.2)
    = true ∧
    tensors_mapping (demo_ready trace_chain)
      !! (id node, key_of (demo_ready trace_chain) x.1.2, false) = Some 2.
Proof.
  assert (run_iterations 2 (demo_ready trace_chain)
          = Some (demo_run trace_chain 2)) as Hrun by by_compute.
  destruct (execution_only_binds_outputs _ _ _ Hrun) as (Hsame & _ & Hdiff).
  split_and!; [exact Hrun|exact Hsame|by_compute|by_compute|..];
    apply (Hdiff 2); intros E; vm_compute in E; discriminate E.
Defined.

Lemma coverage_report_defined_witness :
  actual_skip_nodes_cnt (demo_flat trace_rewrite)
  = Z.of_nat (length (actual_skip_nodes (demo_flat trace_rewrite))) ∧
  coverage_report (demo_flat trace_rewrite) = Some (3, 4) ∧
  0 ≤ 3 ≤ 4 ∧
  (coverage_report (demo_flat trace_rewrite) = None ↔
   numIters (demo_flat trace_rewrite) = 0%nat
   ∨ (sorted_nodes (demo_flat trace_rewrite) = []
      ∧ actual_skip_nodes (demo_flat trace_rewrite) = [])).
Proof.
  assert (actual_skip_nodes_cnt (demo_flat trace_rewrite)
          = Z.of_nat (length (actual_skip_nodes (demo_flat trace_rewrite))))
    as Hcnt by by_compute.
  assert (coverage_report (demo_flat trace_rewrite) = Some (3, 4)) as Hrep
    by by_compute.
  destruct (coverage_report_defined _ Hcnt) as [Hnone Hsome].
  destruct (Hsome 3 4 Hrep) as (_ & _ & Hle & _).
  split; [exact Hcnt|]. split; [exact Hrep|]. split; [exact Hle|exact Hnone].
Defined.
